(** * Adaptive resolution core of the particle solver (adaptation.cpp)

    A shallow embedding of [SPHAdaptation], [ParticleWithLocalRefinement],
    [ParticleRefinementByShape] and [ParticleSplitAndMerge], followed by the
    properties established about them.

    Number model.  The C++ type [Real] is read in its real-number semantics:
    [Real] is [R], the arithmetic operators are the field operations, the
    <cmath> functions are the mathematical ones, and rounding is abstracted
    away.  This reading serves the properties of values that vary
    continuously with the data.  The properties that a rounding decides (the
    split test and its exclusion of the merge test, the level count of the
    split-and-merge adaptation, the margins of [Eps] around the spacing
    bounds) are stated in the last part, where [Real] is read as a double.
    A quotient is only given a meaning for a non-zero divisor: the
    statements whose content depends on one assume it.  [int] values are
    integers [Z] (no overflow is assumed on them), a conversion to [size_t]
    reduces modulo 2^64, and a conversion from [size_t] to [int] keeps the
    low 32 bits.

    Object model.  Each class is a record of its data members, a derived
    class holding its base as a coercible field.  A member function takes the
    object first and returns the updated object; a virtual member function
    called through the base class is passed in by the caller.  The constants
    and classes that live in headers outside the sources at hand ([Eps], the
    spatial dimension, the kernel classes) are parameters. *)

From Stdlib Require Import Reals Lra Lia ZArith List String Bool.
From Stdlib Require Floats.
Import ListNotations.

Open Scope R_scope.

(** ** Scalars and conversions *)

(** Comparisons of the source, as booleans. *)
Definition Rltb (x y : R) : bool := if Rlt_dec x y then true else false.
Definition Rgtb (x y : R) : bool := Rltb y x.

(** [floor] of <cmath>: the largest integral value not above [x], as a
    floating value. *)
Definition floor (x : R) : R := IZR (Int_part x).

(** The cast [(int)x] of a floating value: truncation toward zero. *)
Definition int_of_Real (x : R) : Z :=
  if Rltb x 0 then (- Int_part (- x))%Z else Int_part x.

(** Conversion of an integer to [size_t] (64 bits, wraps around). *)
Definition size_t_of_int (n : Z) : Z := (n mod 2 ^ 64)%Z.

(** Conversion of a [size_t] to [int] (32 bits, two's complement). *)
Definition int_of_size_t (n : Z) : Z :=
  ((n + 2 ^ 31) mod 2 ^ 32 - 2 ^ 31)%Z.

(** [log10], [log2] and [pow] of <cmath>, on positive arguments. *)
Definition log10 (x : R) : R := ln x / ln 10.
Definition log2 (x : R) : R := ln x / ln 2.
Definition pow_Real (x y : R) : R := Rpower x y.

(** Modelled from the spec: [powerN] is declared in a header that is not part
    of the sources at hand; the spec writes its uses as [2^L] and [spacing^D],
    an integer power.  It is taken as repeated multiplication from 1, once
    for every [i] in [0 .. n-1], so that a non-positive [n] leaves 1. *)
Fixpoint powerN_loop (a res : R) (k : nat) : R :=
  match k with
  | O => res
  | S k' => powerN_loop a (res * a) k'
  end.

Definition powerN (a : R) (n : Z) : R := powerN_loop a 1 (Z.to_nat n).

(** ** Kernel interface *)

(** What the adaptation asks of a kernel object: its dimensionless support
    size, its cut-off radius, the radial profile [W_1D], and the weight [W]
    of a displacement (given with its length). *)
Record Kernel : Type := mkKernel {
  KernelSize : R;
  CutOffRadius : R;
  W_1D : R -> R;
  W : R -> list R -> R
}.

(** Spatial dimension of the build. *)
Inductive Dim : Type := Dim2 | Dim3.

Definition Dimensions_of (d : Dim) : Z :=
  match d with Dim2 => 2%Z | Dim3 => 3%Z end.

(** ** Object state *)

Record SPHAdaptation : Type := mkSPHAdaptation {
  h_spacing_ratio_ : R;
  system_refinement_ratio_ : R;
  local_refinement_level_ : Z;
  spacing_ref_ : R;
  h_ref_ : R;
  kernel_ptr_ : Kernel;
  sigma0_ref_ : R;
  spacing_min_ : R;
  h_ratio_max_ : R;
  body_name_ : string
}.

Record ParticleWithLocalRefinement : Type := mkParticleWithLocalRefinement {
  adaptation :> SPHAdaptation;
  finest_spacing_bound_ : R;
  coarsest_spacing_bound_ : R
}.

Record ParticleSplitAndMerge : Type := mkParticleSplitAndMerge {
  refinement :> ParticleWithLocalRefinement;
  minimum_volume_ : R;
  maximum_volume_ : R
}.

(** What a constructor reads from the body it is attached to. *)
Record SPHBody : Type := mkSPHBody {
  resolution_ref_ : R;
  getName : string
}.

(** Outcome of an operation that may reject its configuration: either the
    operation ran to its return statement, and the result is described by the
    arguments its constructors were given, or it signalled a configuration
    error. *)
Inductive Outcome (A : Type) : Type :=
| Built (a : A)
| ConfigurationError.

Arguments Built {A} a.
Arguments ConfigurationError {A}.

(** Integer ranges of the lattice loops: [lo, lo+1, ..., lo+n-1]. *)
Fixpoint Zrange (lo : Z) (n : nat) : list Z :=
  match n with
  | O => []
  | S n' => lo :: Zrange (lo + 1) n'
  end.

Definition Zinterval (lo hi : Z) : list Z := Zrange lo (Z.to_nat (hi - lo + 1)).

Definition norm (v : list R) : R :=
  sqrt (fold_left (fun acc x => acc + x * x) v 0).

(** Bounding boxes and shapes, as far as the adaptation consumes them. *)
Definition Vecd := list R.
Definition BoundingBox : Type := (Vecd * Vecd)%type.

Record Shape : Type := mkShape {
  findSignedDistance : Vecd -> R;
  getBounds : BoundingBox
}.

(** Modelled from the spec: [MinimumDimension] is declared in a header that is
    not part of the sources at hand; it is the smallest side of the bounding
    box, the "bounding extent" the level estimate is taken from. *)
Definition MinimumDimension (bbox : BoundingBox) : R :=
  match map (fun p => Rabs (snd p - fst p)) (combine (fst bbox) (snd bbox)) with
  | [] => 0
  | side :: sides => fold_left Rmin sides side
  end.

(** The level sets a factory hands back, described by how they are built. *)
Record MultilevelLevelSet : Type := mkMultilevelLevelSet {
  mls_bounds : BoundingBox;
  mls_reference_data_spacing : R;
  mls_total_levels : Z
}.

Inductive BaseLevelSet : Type :=
| RefinedLevelSet (bounds : BoundingBox) (coarser_level_sets : MultilevelLevelSet)
| FullMultilevelLevelSet (levels : MultilevelLevelSet).

(** ** Concrete instances

    Values the statements below are exercised on: the double-precision
    machine epsilon for [Eps], and a kernel with the Wendland C2 radial
    profile on a support of two smoothing lengths (its weight is the profile
    scaled by the squared smoothing length). *)

Definition Eps_double : R := / 2 ^ 52.

Definition wendland_profile (q : R) : R := (1 - 0.5 * q) ^ 4 * (1 + 2 * q).

Definition wendland_kernel (h : R) : Kernel :=
  {| KernelSize := 2;
     CutOffRadius := 2 * h;
     W_1D := wendland_profile;
     W := fun r_ij _ => wendland_profile (r_ij / h) / (h * h) |}.

Definition water_body : SPHBody :=
  {| resolution_ref_ := 0.1; getName := "WaterBody" |}.

Section Adaptation.

(** Ambient constants of the build: the tolerance [Eps], the spatial
    dimension, and the two kernel families the constructors instantiate
    (each from a smoothing length). *)
Variable Eps : R.
Variable dim : Dim.
Variable KernelWendlandC2 : R -> Kernel.
Variable Winfunc : R -> Kernel.

Definition Dimensions : Z := Dimensions_of dim.

(** *** SPHAdaptation *)

Definition SPHAdaptation_MostRefinedSpacing
    (coarse_particle_spacing : R) (refinement_level : Z) : R :=
  coarse_particle_spacing / powerN 2 refinement_level.

Definition ReferenceSpacing (a : SPHAdaptation) : R := spacing_ref_ a.

(** One lattice site of the density summation. *)
Definition lattice_site (k : Kernel) (cutoff_radius : R)
    (particle_location : Vecd) (sigma : R) : R :=
  let distance := norm particle_location in
  if Rltb distance cutoff_radius
  then sigma + W k distance particle_location
  else sigma.

Definition computeReferenceNumberDensity_2d
    (k : Kernel) (particle_spacing : R) : R :=
  let cutoff_radius := CutOffRadius k in
  let search_depth := (int_of_Real (cutoff_radius / particle_spacing) + 1)%Z in
  let range := Zinterval (- search_depth) search_depth in
  fold_left (fun sigma j =>
    fold_left (fun sigma i =>
      lattice_site k cutoff_radius
        [IZR i * particle_spacing; IZR j * particle_spacing] sigma)
      range sigma)
    range 0.

Definition computeReferenceNumberDensity_3d
    (k : Kernel) (particle_spacing : R) : R :=
  let cutoff_radius := CutOffRadius k in
  let search_depth := (int_of_Real (cutoff_radius / particle_spacing) + 1)%Z in
  let range := Zinterval (- search_depth) search_depth in
  fold_left (fun sigma k3 =>
    fold_left (fun sigma j =>
      fold_left (fun sigma i =>
        lattice_site k cutoff_radius
          [IZR i * particle_spacing; IZR j * particle_spacing;
           IZR k3 * particle_spacing] sigma)
        range sigma)
      range sigma)
    range 0.

(** [computeReferenceNumberDensity(Vecd())]: the overload is picked by the
    dimension of the build. *)
Definition computeReferenceNumberDensity
    (k : Kernel) (particle_spacing : R) : R :=
  match dim with
  | Dim2 => computeReferenceNumberDensity_2d k particle_spacing
  | Dim3 => computeReferenceNumberDensity_3d k particle_spacing
  end.

Definition ReferenceNumberDensity
    (a : SPHAdaptation) (smoothing_length_ratio : R) : R :=
  sigma0_ref_ a * powerN smoothing_length_ratio Dimensions.

(** First constructor, from a reference resolution. *)
Definition SPHAdaptation_of_resolution
    (resolution_ref h_spacing_ratio system_refinement_ratio : R)
    : SPHAdaptation :=
  let local_refinement_level := 0%Z in
  let spacing_ref := resolution_ref / system_refinement_ratio in
  let h_ref := h_spacing_ratio * spacing_ref in
  let kernel := KernelWendlandC2 h_ref in
  {| h_spacing_ratio_ := h_spacing_ratio;
     system_refinement_ratio_ := system_refinement_ratio;
     local_refinement_level_ := local_refinement_level;
     spacing_ref_ := spacing_ref;
     h_ref_ := h_ref;
     kernel_ptr_ := kernel;
     sigma0_ref_ := computeReferenceNumberDensity kernel spacing_ref;
     spacing_min_ :=
       SPHAdaptation_MostRefinedSpacing spacing_ref local_refinement_level;
     h_ratio_max_ := powerN 2 local_refinement_level;
     body_name_ := EmptyString |}.

(** Second constructor, from a body: delegates to the first, records the
    body name, and swaps the kernel for bodies named [PDBody...]. *)
Definition SPHAdaptation_of_body
    (sph_body : SPHBody) (h_spacing_ratio system_refinement_ratio : R)
    : SPHAdaptation :=
  let a := SPHAdaptation_of_resolution
             (resolution_ref_ sph_body) h_spacing_ratio system_refinement_ratio in
  let body_name := getName sph_body in
  let first_six := substring 0 6 body_name in
  {| h_spacing_ratio_ := h_spacing_ratio_ a;
     system_refinement_ratio_ := system_refinement_ratio_ a;
     local_refinement_level_ := local_refinement_level_ a;
     spacing_ref_ := spacing_ref_ a;
     h_ref_ := h_ref_ a;
     kernel_ptr_ :=
       if String.eqb first_six "PDBody" then Winfunc (h_ref_ a)
       else kernel_ptr_ a;
     sigma0_ref_ := sigma0_ref_ a;
     spacing_min_ := spacing_min_ a;
     h_ratio_max_ := h_ratio_max_ a;
     body_name_ := body_name |}.

(** [resetAdaptationRatios].  [MostRefinedSpacing] is virtual: the caller
    passes the override of the object's class. *)
Definition SPHAdaptation_resetAdaptationRatios
    (MostRefinedSpacing : R -> Z -> R)
    (a : SPHAdaptation) (h_spacing_ratio new_system_refinement_ratio : R)
    : SPHAdaptation :=
  let spacing_ref :=
    spacing_ref_ a * system_refinement_ratio_ a / new_system_refinement_ratio in
  let h_ref := h_spacing_ratio * spacing_ref in
  let kernel := KernelWendlandC2 h_ref in
  let spacing_min := MostRefinedSpacing spacing_ref (local_refinement_level_ a) in
  {| h_spacing_ratio_ := h_spacing_ratio;
     system_refinement_ratio_ := new_system_refinement_ratio;
     local_refinement_level_ := local_refinement_level_ a;
     spacing_ref_ := spacing_ref;
     h_ref_ := h_ref;
     kernel_ptr_ := kernel;
     sigma0_ref_ := computeReferenceNumberDensity kernel spacing_ref;
     spacing_min_ := spacing_min;
     h_ratio_max_ := h_ref * spacing_ref / spacing_min;
     body_name_ := body_name_ a |}.

(** The level count estimated by [createLevelSet], as the [int] it is
    computed in and as the [size_t] it is stored in. *)
Definition estimated_levels (a : SPHAdaptation) (shape : Shape) : Z :=
  (int_of_Real (log10 (MinimumDimension (getBounds shape) / ReferenceSpacing a)) + 2)%Z.

Definition SPHAdaptation_createLevelSet
    (a : SPHAdaptation) (shape : Shape) (refinement_ratio : R)
    : Outcome BaseLevelSet :=
  let total_levels := size_t_of_int (estimated_levels a shape) in
  let coarsest_spacing :=
    ReferenceSpacing a
    * powerN 2 (int_of_size_t (size_t_of_int (total_levels - 1))) in
  let coarser_level_sets :=
    {| mls_bounds := getBounds shape;
       mls_reference_data_spacing := coarsest_spacing / refinement_ratio;
       mls_total_levels := size_t_of_int (total_levels - 1) |} in
  Built (RefinedLevelSet (getBounds shape) coarser_level_sets).

(** *** ParticleWithLocalRefinement *)

(** The constructor runs the base constructor, then overwrites the level,
    the finest spacing and the maximum smoothing ratio, and sets the two
    spacing bounds.  Inside this constructor [MostRefinedSpacing] is the
    base version. *)
Definition ParticleWithLocalRefinement_new
    (sph_body : SPHBody) (h_spacing_ratio system_refinement_ratio : R)
    (local_refinement_level : Z) : ParticleWithLocalRefinement :=
  let a := SPHAdaptation_of_body sph_body h_spacing_ratio system_refinement_ratio in
  let spacing_min :=
    SPHAdaptation_MostRefinedSpacing (spacing_ref_ a) local_refinement_level in
  {| adaptation :=
       {| h_spacing_ratio_ := h_spacing_ratio_ a;
          system_refinement_ratio_ := system_refinement_ratio_ a;
          local_refinement_level_ := local_refinement_level;
          spacing_ref_ := spacing_ref_ a;
          h_ref_ := h_ref_ a;
          kernel_ptr_ := kernel_ptr_ a;
          sigma0_ref_ := sigma0_ref_ a;
          spacing_min_ := spacing_min;
          h_ratio_max_ := powerN 2 local_refinement_level;
          body_name_ := body_name_ a |};
     finest_spacing_bound_ := spacing_min + Eps;
     coarsest_spacing_bound_ := spacing_ref_ a - Eps |}.

(** [resetAdaptationRatios] is inherited: the base fields are rebuilt, the
    two bounds are not touched. *)
Definition ParticleWithLocalRefinement_resetAdaptationRatios
    (MostRefinedSpacing : R -> Z -> R)
    (p : ParticleWithLocalRefinement)
    (h_spacing_ratio new_system_refinement_ratio : R)
    : ParticleWithLocalRefinement :=
  {| adaptation :=
       SPHAdaptation_resetAdaptationRatios MostRefinedSpacing p
         h_spacing_ratio new_system_refinement_ratio;
     finest_spacing_bound_ := finest_spacing_bound_ p;
     coarsest_spacing_bound_ := coarsest_spacing_bound_ p |}.

Definition ParticleWithLocalRefinement_getCellLinkedListTotalLevel
    (p : ParticleWithLocalRefinement) : Z :=
  size_t_of_int (local_refinement_level_ p).

(** [getLevelSetTotalLevel] calls the virtual [getCellLinkedListTotalLevel]
    of the object's class. *)
Definition getLevelSetTotalLevel {A : Type}
    (getCellLinkedListTotalLevel : A -> Z) (p : A) : Z :=
  size_t_of_int (getCellLinkedListTotalLevel p + 1).

Definition ParticleWithLocalRefinement_getLevelSetTotalLevel
    (p : ParticleWithLocalRefinement) : Z :=
  getLevelSetTotalLevel ParticleWithLocalRefinement_getCellLinkedListTotalLevel p.

Definition ParticleWithLocalRefinement_createLevelSet
    (p : ParticleWithLocalRefinement) (shape : Shape) (refinement_ratio : R)
    : Outcome BaseLevelSet :=
  Built (FullMultilevelLevelSet
           {| mls_bounds := getBounds shape;
              mls_reference_data_spacing := ReferenceSpacing p / refinement_ratio;
              mls_total_levels := ParticleWithLocalRefinement_getLevelSetTotalLevel p |}).

(** *** ParticleRefinementByShape and its two variants *)

Definition smoothedSpacing
    (p : ParticleWithLocalRefinement) (measure transition_thickness : R) : R :=
  let ratio_ref := measure / (2 * transition_thickness) in
  let target_spacing := coarsest_spacing_bound_ p in
  if Rltb ratio_ref (KernelSize (kernel_ptr_ p))
  then
    let weight := W_1D (kernel_ptr_ p) ratio_ref / W_1D (kernel_ptr_ p) 0 in
    weight * finest_spacing_bound_ p + (1 - weight) * coarsest_spacing_bound_ p
  else target_spacing.

Definition ParticleRefinementNearSurface_getLocalSpacing
    (p : ParticleWithLocalRefinement) (shape : Shape) (position : Vecd) : R :=
  let phi := Rabs (findSignedDistance shape position) in
  smoothedSpacing p phi (spacing_ref_ p).

Definition ParticleRefinementWithinShape_getLocalSpacing
    (p : ParticleWithLocalRefinement) (shape : Shape) (position : Vecd) : R :=
  let phi := findSignedDistance shape position in
  if Rltb phi 0 then finest_spacing_bound_ p
  else smoothedSpacing p phi (2 * spacing_ref_ p).

(** *** ParticleSplitAndMerge *)

Definition ParticleSplitAndMerge_MostRefinedSpacing
    (coarse_particle_spacing : R) (local_refinement_level : Z) : R :=
  let minimum_spacing_particles := powerN 2 local_refinement_level in
  let spacing_ratio := pow_Real minimum_spacing_particles (1 / IZR Dimensions) in
  coarse_particle_spacing / spacing_ratio.

(** The constructor runs the local-refinement constructor, then recomputes
    the finest spacing with its own [MostRefinedSpacing]. *)
Definition ParticleSplitAndMerge_new
    (sph_body : SPHBody) (h_spacing_ratio system_resolution_ratio : R)
    (local_refinement_level : Z) : ParticleSplitAndMerge :=
  let p := ParticleWithLocalRefinement_new
             sph_body h_spacing_ratio system_resolution_ratio local_refinement_level in
  let spacing_min :=
    ParticleSplitAndMerge_MostRefinedSpacing
      (spacing_ref_ p) (local_refinement_level_ p) in
  {| refinement :=
       {| adaptation :=
            {| h_spacing_ratio_ := h_spacing_ratio_ p;
               system_refinement_ratio_ := system_refinement_ratio_ p;
               local_refinement_level_ := local_refinement_level_ p;
               spacing_ref_ := spacing_ref_ p;
               h_ref_ := h_ref_ p;
               kernel_ptr_ := kernel_ptr_ p;
               sigma0_ref_ := sigma0_ref_ p;
               spacing_min_ := spacing_min;
               h_ratio_max_ := spacing_ref_ p / spacing_min;
               body_name_ := body_name_ p |};
          finest_spacing_bound_ := finest_spacing_bound_ p;
          coarsest_spacing_bound_ := coarsest_spacing_bound_ p |};
     minimum_volume_ := powerN spacing_min Dimensions;
     maximum_volume_ := powerN (spacing_ref_ p) Dimensions |}.

Definition mergeResolutionCheck (s : ParticleSplitAndMerge) (volume : R) : bool :=
  if Rltb (volume - 1.2 * powerN (spacing_min_ s) Dimensions) Eps
  then true else false.

Definition ParticleSplitAndMerge_resetAdaptationRatios
    (s : ParticleSplitAndMerge) (h_spacing_ratio new_system_refinement_ratio : R)
    : ParticleSplitAndMerge :=
  let p := ParticleWithLocalRefinement_resetAdaptationRatios
             ParticleSplitAndMerge_MostRefinedSpacing s
             h_spacing_ratio new_system_refinement_ratio in
  {| refinement := p;
     minimum_volume_ := powerN (spacing_min_ p) Dimensions;
     maximum_volume_ := powerN (spacing_ref_ p) Dimensions |}.

Definition splittingPattern_2d (pos : R * R) (particle_spacing delta : R) : R * R :=
  (fst pos + 0.5 * particle_spacing * cos delta,
   snd pos + 0.5 * particle_spacing * sin delta).

Definition splittingPattern_3d
    (pos : R * R * R) (particle_spacing delta : R) : R * R * R :=
  let '(x, y, z) := pos in
  (x + 0.5 * particle_spacing * cos delta,
   y + 0.5 * particle_spacing * sin delta,
   z).

(** *** Histories *)

(** A call to [resetAdaptationRatios], by its two arguments. *)
Definition ResetCall : Type := (R * R)%type.

(** The object after a constructor call followed by the given resets, in
    order. *)
Definition after_resets {A : Type} (reset : A -> R -> R -> A)
    (start : A) (calls : list ResetCall) : A :=
  fold_left (fun s call => reset s (fst call) (snd call)) calls start.


(** The dimension as a natural number, for exponents. *)
Definition spatial_dimension : nat :=
  match dim with Dim2 => 2%nat | Dim3 => 3%nat end.

(** The derived fields of a split-and-merge adaptation agree with its
    reference spacing and refinement level [L]. *)
Definition split_merge_consistent (L : Z) (s : ParticleSplitAndMerge) : Prop :=
  local_refinement_level_ s = L
  /\ spacing_min_ s
     = spacing_ref_ s / Rpower (2 ^ Z.to_nat L) (1 / INR spatial_dimension)
  /\ minimum_volume_ s = spacing_min_ s ^ spatial_dimension
  /\ maximum_volume_ s = spacing_ref_ s ^ spatial_dimension.

(** Reset calls that keep the configuration valid: positive system ratios. *)
Definition valid_calls (calls : list ResetCall) : Prop :=
  Forall (fun call => 0 < snd call) calls.

(** ** Basic facts on the scalar helpers *)

Arguments powerN : simpl never.
Arguments pow_Real : simpl never.
Arguments computeReferenceNumberDensity : simpl never.

Lemma Rltb_true (x y : R) : Rltb x y = true <-> x < y.
Proof. unfold Rltb; destruct (Rlt_dec x y); split; intros; try easy. Qed.

Lemma Rltb_false (x y : R) : Rltb x y = false <-> y <= x.
Proof.
  unfold Rltb; destruct (Rlt_dec x y); split; intros; try easy; lra.
Qed.

Lemma Rgtb_true (x y : R) : Rgtb x y = true <-> x > y.
Proof. unfold Rgtb; rewrite Rltb_true; lra. Qed.

Lemma Rgtb_false (x y : R) : Rgtb x y = false <-> x <= y.
Proof. unfold Rgtb; rewrite Rltb_false; lra. Qed.

Lemma powerN_loop_pow (a res : R) (k : nat) : powerN_loop a res k = res * a ^ k.
Proof.
  revert res; induction k as [|k IH]; intros res; simpl.
  - lra.
  - rewrite IH; ring.
Qed.

Lemma powerN_pow (a : R) (n : Z) : powerN a n = a ^ Z.to_nat n.
Proof. unfold powerN; rewrite powerN_loop_pow; ring. Qed.

Lemma powerN_2_pos (n : Z) : 0 < powerN 2 n.
Proof. rewrite powerN_pow; apply pow_lt; lra. Qed.

Lemma powerN_2_ge_1 (n : Z) : 1 <= powerN 2 n.
Proof. rewrite powerN_pow; apply pow_R1_Rle; lra. Qed.

Lemma Int_part_IZR (z : Z) : Int_part (IZR z) = z.
Proof. symmetry; apply Int_part_spec; lra. Qed.

Lemma int_of_Real_IZR (z : Z) : int_of_Real (IZR z) = z.
Proof.
  unfold int_of_Real.
  destruct (Rltb (IZR z) 0) eqn:E.
  - rewrite <- opp_IZR, Int_part_IZR; lia.
  - apply Int_part_IZR.
Qed.

Lemma int_of_Real_floor (x : R) : int_of_Real (floor x) = Int_part x.
Proof. apply int_of_Real_IZR. Qed.

(** ** Properties of the adaptation classes *)

Hypothesis Eps_pos : 0 < Eps.

(** *** Finest spacing and maximum smoothing ratio *)

Lemma SPHAdaptation_MostRefinedSpacing_le (spacing : R) (L : Z) :
  0 <= spacing -> SPHAdaptation_MostRefinedSpacing spacing L <= spacing.
Proof.
  intros Hs; unfold SPHAdaptation_MostRefinedSpacing.
  pose proof (powerN_2_ge_1 L) as H1.
  assert (Hinv : / powerN 2 L <= 1).
  { rewrite <- Rinv_1; apply Rinv_le_contravar; lra. }
  unfold Rdiv; nra.
Qed.

(** After construction the two facts hold. *)
Lemma ParticleWithLocalRefinement_new_ratio (body : SPHBody) (h sys : R) (L : Z) :
  0 < resolution_ref_ body -> 0 < sys ->
  let p := ParticleWithLocalRefinement_new body h sys L in
  spacing_min_ p <= spacing_ref_ p
  /\ h_ratio_max_ p = spacing_ref_ p / spacing_min_ p.
Proof.
  intros Hr Hs; simpl.
  assert (Hpos : 0 < resolution_ref_ body / sys) by (apply Rdiv_lt_0_compat; lra).
  split.
  - apply SPHAdaptation_MostRefinedSpacing_le; lra.
  - unfold SPHAdaptation_MostRefinedSpacing.
    pose proof (powerN_2_pos L).
    field; split; lra.
Qed.

(** A reset keeps the finest spacing below the reference spacing, but leaves
    the maximum smoothing ratio at the smoothing length times that quotient. *)
Lemma ParticleWithLocalRefinement_reset_ratio (p : ParticleWithLocalRefinement) (h sys : R) :
  0 < spacing_ref_ p -> 0 < system_refinement_ratio_ p -> 0 < sys ->
  let p' := ParticleWithLocalRefinement_resetAdaptationRatios SPHAdaptation_MostRefinedSpacing p h sys in
  0 < spacing_ref_ p'
  /\ spacing_min_ p' <= spacing_ref_ p'
  /\ h_ratio_max_ p' = h_ref_ p' * (spacing_ref_ p' / spacing_min_ p').
Proof.
  intros Hr Ho Hs; simpl.
  assert (Hpos : 0 < spacing_ref_ p * system_refinement_ratio_ p / sys).
  { apply Rdiv_lt_0_compat; nra. }
  repeat split.
  - exact Hpos.
  - apply SPHAdaptation_MostRefinedSpacing_le; lra.
  - unfold Rdiv; ring.
Qed.

(** C1, at a concrete history: a body of reference resolution 0.1 built with
    smoothing ratio 1.3, system ratio 1 and refinement level 2, then reset with
    the very same ratios.  After construction the maximum smoothing ratio is
    the quotient of reference and finest spacing (4); after the reset the
    finest spacing is still below the reference spacing and the quotient is
    still 4, but the stored maximum smoothing ratio is 0.52. *)
Theorem C1_h_ratio_max_after_reset :
  let p := ParticleWithLocalRefinement_new water_body 1.3 1 2 in
  let p' := ParticleWithLocalRefinement_resetAdaptationRatios SPHAdaptation_MostRefinedSpacing p 1.3 1 in
  (spacing_min_ p <= spacing_ref_ p
   /\ h_ratio_max_ p = spacing_ref_ p / spacing_min_ p)
  /\ spacing_min_ p' <= spacing_ref_ p'
  /\ spacing_ref_ p' / spacing_min_ p' = 4
  /\ h_ratio_max_ p' = 0.52
  /\ h_ratio_max_ p' <> spacing_ref_ p' / spacing_min_ p'.
Proof.
  cbn -[Rdiv Rmult]; unfold SPHAdaptation_MostRefinedSpacing.
  rewrite powerN_pow.
  change (Z.to_nat 2) with 2%nat.
  repeat split; try lra; try (field_simplify; lra).
Qed.


(** *** Split-and-merge bounds *)

Lemma Dimensions_spatial_dimension : Dimensions = Z.of_nat spatial_dimension.
Proof. unfold Dimensions, spatial_dimension; destruct dim; reflexivity. Qed.

Lemma powerN_Dimensions (x : R) : powerN x Dimensions = x ^ spatial_dimension.
Proof.
  rewrite powerN_pow, Dimensions_spatial_dimension, Nat2Z.id; reflexivity.
Qed.

Lemma IZR_Dimensions : IZR Dimensions = INR spatial_dimension.
Proof. rewrite Dimensions_spatial_dimension, <- INR_IZR_INZ; reflexivity. Qed.

Lemma ParticleSplitAndMerge_MostRefinedSpacing_eq (spacing : R) (L : Z) :
  ParticleSplitAndMerge_MostRefinedSpacing spacing L
  = spacing / Rpower (2 ^ Z.to_nat L) (1 / INR spatial_dimension).
Proof.
  unfold ParticleSplitAndMerge_MostRefinedSpacing, pow_Real.
  rewrite powerN_pow, IZR_Dimensions; reflexivity.
Qed.

Lemma split_merge_consistent_new (body : SPHBody) (h sys : R) (L : Z) :
  split_merge_consistent L (ParticleSplitAndMerge_new body h sys L).
Proof.
  unfold split_merge_consistent; simpl.
  rewrite !powerN_Dimensions, ParticleSplitAndMerge_MostRefinedSpacing_eq.
  repeat split.
Qed.

Lemma split_merge_consistent_reset (L : Z) (s : ParticleSplitAndMerge) (h sys : R) :
  local_refinement_level_ s = L ->
  split_merge_consistent L (ParticleSplitAndMerge_resetAdaptationRatios s h sys).
Proof.
  intros HL; unfold split_merge_consistent; simpl.
  rewrite !powerN_Dimensions, ParticleSplitAndMerge_MostRefinedSpacing_eq, HL.
  repeat split.
Qed.

Lemma split_merge_consistent_resets (L : Z) (calls : list ResetCall) :
  forall s : ParticleSplitAndMerge,
  split_merge_consistent L s ->
  split_merge_consistent L
    (after_resets ParticleSplitAndMerge_resetAdaptationRatios s calls).
Proof.
  induction calls as [|[h sys] calls IH]; intros s Hs; simpl.
  - exact Hs.
  - apply IH, split_merge_consistent_reset, Hs.
Qed.

(** C3: a split-and-merge adaptation built at refinement level [L] and taken
    through any sequence of resets has finest spacing
    [reference spacing / (2^L)^(1/D)], minimum volume [finest spacing ^ D] and
    maximum volume [reference spacing ^ D], where [D] is 2 or 3. *)
Theorem C3_split_merge_bounds
    (body : SPHBody) (h sys : R) (L : Z) (calls : list ResetCall) :
  let s := after_resets ParticleSplitAndMerge_resetAdaptationRatios
             (ParticleSplitAndMerge_new body h sys L) calls in
  let D := spatial_dimension in
  (D = 2 \/ D = 3)%nat
  /\ spacing_min_ s = spacing_ref_ s / Rpower (2 ^ Z.to_nat L) (1 / INR D)
  /\ minimum_volume_ s = spacing_min_ s ^ D
  /\ maximum_volume_ s = spacing_ref_ s ^ D.
Proof.
  intros s D.
  destruct (split_merge_consistent_resets L calls _
              (split_merge_consistent_new body h sys L)) as (_ & H1 & H2 & H3).
  split; [unfold D, spatial_dimension; destruct dim; auto | auto].
Qed.

(** *** Merge eligibility *)





(** *** Smoothed spacing *)

Lemma smoothedSpacing_inside
    (p : ParticleWithLocalRefinement) (measure transition_thickness : R) :
  measure / (2 * transition_thickness) < KernelSize (kernel_ptr_ p) ->
  smoothedSpacing p measure transition_thickness
  = W_1D (kernel_ptr_ p) (measure / (2 * transition_thickness))
      / W_1D (kernel_ptr_ p) 0 * finest_spacing_bound_ p
    + (1 - W_1D (kernel_ptr_ p) (measure / (2 * transition_thickness))
             / W_1D (kernel_ptr_ p) 0) * coarsest_spacing_bound_ p.
Proof.
  intros H; unfold smoothedSpacing.
  apply Rltb_true in H; rewrite H; reflexivity.
Qed.

Lemma smoothedSpacing_outside
    (p : ParticleWithLocalRefinement) (measure transition_thickness : R) :
  KernelSize (kernel_ptr_ p) <= measure / (2 * transition_thickness) ->
  smoothedSpacing p measure transition_thickness = coarsest_spacing_bound_ p.
Proof.
  intros H; unfold smoothedSpacing.
  apply Rltb_false in H; rewrite H; reflexivity.
Qed.

Lemma smoothedSpacing_at_feature
    (p : ParticleWithLocalRefinement) (transition_thickness : R) :
  0 < KernelSize (kernel_ptr_ p) -> W_1D (kernel_ptr_ p) 0 <> 0 ->
  0 < transition_thickness ->
  smoothedSpacing p 0 transition_thickness = finest_spacing_bound_ p.
Proof.
  intros Hk Hw Ht.
  assert (E : 0 / (2 * transition_thickness) = 0) by (field; lra).
  rewrite smoothedSpacing_inside; rewrite E; [field; exact Hw | exact Hk].
Qed.

(** C6: for a kernel of positive support size whose profile does not vanish
    at 0, [smoothedSpacing] returns the kernel-weighted blend of the two
    bounds while [measure / (2 * transition_thickness)] is below the support
    size and the coarsest bound from there on; so it returns the finest bound
    at measure 0 and the coarsest bound at and beyond the support edge. *)
Theorem C6_smoothedSpacing (p : ParticleWithLocalRefinement) :
  0 < KernelSize (kernel_ptr_ p) -> W_1D (kernel_ptr_ p) 0 <> 0 ->
  (forall measure transition_thickness : R,
     0 <= measure -> 0 < transition_thickness ->
     let ratio_ref := measure / (2 * transition_thickness) in
     let weight := W_1D (kernel_ptr_ p) ratio_ref / W_1D (kernel_ptr_ p) 0 in
     (ratio_ref < KernelSize (kernel_ptr_ p) ->
      smoothedSpacing p measure transition_thickness
      = weight * finest_spacing_bound_ p
        + (1 - weight) * coarsest_spacing_bound_ p)
     /\ (KernelSize (kernel_ptr_ p) <= ratio_ref ->
         smoothedSpacing p measure transition_thickness
         = coarsest_spacing_bound_ p))
  /\ (forall transition_thickness : R,
        0 < transition_thickness ->
        smoothedSpacing p 0 transition_thickness = finest_spacing_bound_ p)
  /\ (forall measure transition_thickness : R,
        0 < transition_thickness ->
        KernelSize (kernel_ptr_ p) * (2 * transition_thickness) <= measure ->
        smoothedSpacing p measure transition_thickness
        = coarsest_spacing_bound_ p).
Proof.
  intros Hk Hw; repeat split.
  - apply smoothedSpacing_inside.
  - apply smoothedSpacing_outside.
  - intros t Ht; apply smoothedSpacing_at_feature; assumption.
  - intros m t Ht Hm; apply smoothedSpacing_outside.
    apply Rle_trans with (KernelSize (kernel_ptr_ p) * (2 * t) / (2 * t)).
    + right; field; lra.
    + unfold Rdiv; apply Rmult_le_compat_r; [| exact Hm].
      left; apply Rinv_0_lt_compat; lra.
Qed.

(** *** Resetting the adaptation ratios *)

Lemma reset_spacing_ref
    (mrs : R -> Z -> R) (a : SPHAdaptation) (h new_ratio : R) :
  spacing_ref_ (SPHAdaptation_resetAdaptationRatios mrs a h new_ratio)
  = spacing_ref_ a * system_refinement_ratio_ a / new_ratio.
Proof. reflexivity. Qed.

Lemma reset_twice
    (mrs : R -> Z -> R) (a : SPHAdaptation) (h new_ratio : R) :
  new_ratio <> 0 ->
  SPHAdaptation_resetAdaptationRatios mrs
    (SPHAdaptation_resetAdaptationRatios mrs a h new_ratio) h new_ratio
  = SPHAdaptation_resetAdaptationRatios mrs a h new_ratio.
Proof.
  intros Hn.
  assert (E : spacing_ref_ a * system_refinement_ratio_ a / new_ratio
              * new_ratio / new_ratio
              = spacing_ref_ a * system_refinement_ratio_ a / new_ratio).
  { field; exact Hn. }
  unfold SPHAdaptation_resetAdaptationRatios; simpl.
  rewrite E; reflexivity.
Qed.

(** C7: a reset to a non-zero system ratio multiplies the reference spacing
    by the quotient of the old and the new system ratio; a second identical
    reset changes nothing; and resetting back to the original, non-zero,
    system ratio restores the reference spacing (so the two agree within
    every tolerance). *)
Theorem C7_resetAdaptationRatios
    (mrs : R -> Z -> R) (a : SPHAdaptation) (h new_ratio h_back : R) :
  new_ratio <> 0 ->
  let reset := SPHAdaptation_resetAdaptationRatios mrs in
  let old_ratio := system_refinement_ratio_ a in
  spacing_ref_ (reset a h new_ratio)
  = spacing_ref_ a * (old_ratio / new_ratio)
  /\ reset (reset a h new_ratio) h new_ratio = reset a h new_ratio
  /\ (old_ratio <> 0 ->
      spacing_ref_ (reset (reset a h new_ratio) h_back old_ratio)
      = spacing_ref_ a
      /\ forall tolerance : R, 0 <= tolerance ->
         Rabs (spacing_ref_ (reset (reset a h new_ratio) h_back old_ratio)
               - spacing_ref_ a) <= tolerance).
Proof.
  intros Hn reset old_ratio.
  split; [| split].
  - unfold reset; rewrite reset_spacing_ref; unfold old_ratio, Rdiv; ring.
  - apply reset_twice; exact Hn.
  - intros Ho.
    assert (E : spacing_ref_ (reset (reset a h new_ratio) h_back old_ratio)
                = spacing_ref_ a).
    { unfold reset; rewrite !reset_spacing_ref; simpl.
      fold old_ratio; field; split; assumption. }
    split; [exact E |].
    intros tol Htol; rewrite E.
    replace (spacing_ref_ a - spacing_ref_ a) with 0 by ring.
    rewrite Rabs_R0; exact Htol.
Qed.

(** *** Level counts *)

Lemma size_t_of_int_small (n : Z) :
  (0 <= n < 2 ^ 64)%Z -> size_t_of_int n = n.
Proof. intros H; unfold size_t_of_int; apply Z.mod_small; exact H. Qed.

Lemma Int_part_nonneg (x : R) : 0 <= x -> (0 <= Int_part x)%Z.
Proof.
  intros Hx; destruct (base_Int_part x) as [_ H].
  assert (Hlt : IZR (-1) < IZR (Int_part x)) by lra.
  apply lt_IZR in Hlt; lia.
Qed.

Lemma Int_part_le (x : R) (n : Z) : x < IZR n -> (Int_part x < n)%Z.
Proof.
  intros Hx; destruct (base_Int_part x) as [H _].
  apply lt_IZR; lra.
Qed.

Lemma Int_part_div (n d : Z) :
  (0 < d)%Z -> Int_part (IZR n / IZR d) = (n / d)%Z.
Proof.
  intros Hd; symmetry; apply Int_part_spec.
  assert (HdR : 0 < IZR d) by (apply IZR_lt; exact Hd).
  pose proof (Z.mul_div_le n d Hd) as Hlo.
  pose proof (Z.mul_succ_div_gt n d Hd) as Hhi.
  apply IZR_le in Hlo; apply IZR_lt in Hhi.
  rewrite mult_IZR in Hlo; rewrite mult_IZR, succ_IZR in Hhi.
  split.
  - apply Rmult_lt_reg_r with (IZR d); [exact HdR |].
    replace ((IZR n / IZR d - 1) * IZR d) with (IZR n - IZR d) by (field; lra).
    lra.
  - apply Rmult_le_reg_r with (IZR d); [exact HdR |].
    replace (IZR n / IZR d * IZR d) with (IZR n) by (field; lra).
    lra.
Qed.

Lemma ln_2_pos : 0 < ln 2.
Proof. rewrite <- ln_1; apply ln_increasing; lra. Qed.

Lemma local_refinement_level_resets
    (mrs : R -> Z -> R) (calls : list ResetCall) :
  forall p : ParticleWithLocalRefinement,
  local_refinement_level_
    (after_resets (ParticleWithLocalRefinement_resetAdaptationRatios mrs) p calls)
  = local_refinement_level_ p.
Proof.
  induction calls as [|[h sys] calls IH]; intros p; simpl.
  - reflexivity.
  - rewrite IH; reflexivity.
Qed.

(** *** Level-set construction *)


Lemma ln_10_pos : 0 < ln 10.
Proof. rewrite <- ln_1; apply ln_increasing; lra. Qed.

Lemma log10_inv_pow (n : nat) : log10 (/ 10 ^ n) = - INR n.
Proof.
  unfold log10.
  assert (H : 0 < 10 ^ n) by (apply pow_lt; lra).
  rewrite ln_Rinv, ln_pow by lra.
  pose proof ln_10_pos; field; lra.
Qed.








End Adaptation.

(** ** Concrete objects

    Two-dimensional builds with the tolerance [Eps_double] and the kernel
    [wendland_kernel] for both kernel families. *)

Definition new_refinement : SPHBody -> R -> R -> Z -> ParticleWithLocalRefinement :=
  ParticleWithLocalRefinement_new Eps_double Dim2 wendland_kernel wendland_kernel.

Definition new_split_merge : SPHBody -> R -> R -> Z -> ParticleSplitAndMerge :=
  ParticleSplitAndMerge_new Eps_double Dim2 wendland_kernel wendland_kernel.

Definition reset_split_merge : ParticleSplitAndMerge -> R -> R -> ParticleSplitAndMerge :=
  ParticleSplitAndMerge_resetAdaptationRatios Dim2 wendland_kernel.


(** A square of the given side with a corner at the origin; the signed
    distance is taken in the maximum norm. *)
Definition square_shape (side : R) : Shape :=
  {| findSignedDistance := fun position =>
       match position with
       | [x; y] => Rmax (Rabs (x - side / 2)) (Rabs (y - side / 2)) - side / 2
       | _ => 0
       end;
     getBounds := ([0; 0], [side; side]) |}.

(** ** The statements at concrete objects *)

Lemma Eps_double_pos : 0 < Eps_double.
Proof. unfold Eps_double; lra. Defined.

Lemma Rpower_1 (y : R) : Rpower 1 y = 1.
Proof. unfold Rpower; rewrite ln_1, Rmult_0_r; apply exp_0. Qed.




Lemma MinimumDimension_square (side : R) :
  0 <= side -> MinimumDimension (getBounds (square_shape side)) = side.
Proof.
  intros Hs; unfold MinimumDimension; simpl.
  replace (side - 0) with side by ring.
  rewrite Rabs_right by lra.
  apply Rmin_left; lra.
Qed.

(** What the hierarchy builder is asked for at a square of side [10^-4]
    against a reference spacing of 0.1: the level estimate is -1, and the
    count handed on has wrapped around to [2^64 - 2]. *)
Lemma tiny_shape_level_count_wraps :
  let a := SPHAdaptation_of_body Dim2 wendland_kernel wendland_kernel
             water_body 1.3 1 in
  let shape := square_shape (/ 10 ^ 4) in
  estimated_levels a shape = (-1)%Z
  /\ SPHAdaptation_createLevelSet a shape 1
     = Built (RefinedLevelSet (getBounds shape)
                {| mls_bounds := getBounds shape;
                   mls_reference_data_spacing := ReferenceSpacing a * 1 / 1;
                   mls_total_levels := (2 ^ 64 - 2)%Z |}).
Proof.
  intros a shape.
  assert (Hext : MinimumDimension (getBounds shape) = / 10 ^ 4).
  { apply MinimumDimension_square; lra. }
  assert (Hest : estimated_levels a shape = (-1)%Z).
  { unfold estimated_levels; rewrite Hext.
    replace (/ 10 ^ 4 / ReferenceSpacing a) with (/ 10 ^ 3)
      by (unfold ReferenceSpacing; simpl; lra).
    rewrite log10_inv_pow.
    replace (- INR 3) with (IZR (-3)) by (simpl; lra).
    rewrite int_of_Real_IZR; reflexivity. }
  split; [exact Hest |].
  unfold SPHAdaptation_createLevelSet; rewrite Hest.
  change (size_t_of_int (size_t_of_int (-1) - 1)) with (2 ^ 64 - 2)%Z.
  change (int_of_size_t (2 ^ 64 - 2)) with (-2)%Z.
  rewrite powerN_pow; reflexivity.
Qed.



Lemma Rpower_4_half : Rpower (2 ^ 2) (1 / INR 2) = 2.
Proof.
  replace (1 / INR 2) with (/ 2) by (simpl; lra).
  rewrite Rpower_sqrt by lra.
  replace (2 ^ 2) with (2 * 2) by ring.
  apply sqrt_square; lra.
Qed.

(** The split-and-merge adaptation of the water body at level 2: the finest
    spacing is half the reference spacing, the minimum volume its square. *)
Lemma water_split_merge_level2 :
  let s := new_split_merge water_body 1.3 1 2 in
  spacing_ref_ s = 0.1 /\ spacing_min_ s = 0.05 /\ minimum_volume_ s = 0.0025.
Proof.
  intros s.
  destruct (split_merge_consistent_new Eps_double Dim2 wendland_kernel
              wendland_kernel water_body 1.3 1 2) as (_ & Hmin & Hvol & _).
  fold new_split_merge in Hmin, Hvol; fold s in Hmin, Hvol.
  assert (Href : spacing_ref_ s = 0.1) by (unfold s, new_split_merge; simpl; lra).
  change (Z.to_nat 2) with 2%nat in Hmin.
  change (spatial_dimension Dim2) with 2%nat in Hmin, Hvol.
  rewrite Rpower_4_half, Href in Hmin.
  assert (Hmin' : spacing_min_ s = 0.05) by (rewrite Hmin; lra).
  rewrite Hmin' in Hvol.
  repeat split; [exact Href | exact Hmin' | rewrite Hvol; lra].
Qed.



(** C6 at the water body, level 2: at zero distance and transition thickness
    0.1 the requested spacing is the finest bound, 0.025 plus the tolerance. *)
Lemma C6_smoothedSpacing_witness :
  let p := new_refinement water_body 1.3 1 2 in
  0 < KernelSize (kernel_ptr_ p)
  /\ W_1D (kernel_ptr_ p) 0 <> 0
  /\ 0 < 0.1
  /\ smoothedSpacing p 0 0.1 = finest_spacing_bound_ p
  /\ finest_spacing_bound_ p = 0.025 + Eps_double.
Proof.
  intros p.
  assert (Hk : 0 < KernelSize (kernel_ptr_ p)) by (simpl; lra).
  assert (Hw : W_1D (kernel_ptr_ p) 0 <> 0).
  { simpl; unfold wendland_profile; lra. }
  assert (Ht : 0 < 0.1) by lra.
  split; [exact Hk |]; split; [exact Hw |]; split; [exact Ht |].
  split.
  - exact (proj1 (proj2 (C6_smoothedSpacing p Hk Hw)) 0.1 Ht).
  - simpl; unfold SPHAdaptation_MostRefinedSpacing; rewrite powerN_pow.
    change (Z.to_nat 2) with 2%nat; lra.
Defined.

(** C7 at an adaptation of resolution 0.1 and system ratio 1, reset to system
    ratio 2 and back. *)
Lemma C7_resetAdaptationRatios_witness :
  let a := SPHAdaptation_of_resolution Dim2 wendland_kernel 0.1 1.3 1 in
  let reset := SPHAdaptation_resetAdaptationRatios Dim2 wendland_kernel
                 SPHAdaptation_MostRefinedSpacing in
  2 <> 0
  /\ system_refinement_ratio_ a <> 0
  /\ spacing_ref_ (reset a 1.3 2)
     = spacing_ref_ a * (system_refinement_ratio_ a / 2)
  /\ reset (reset a 1.3 2) 1.3 2 = reset a 1.3 2
  /\ spacing_ref_ (reset (reset a 1.3 2) 1.3 (system_refinement_ratio_ a))
     = spacing_ref_ a.
Proof.
  intros a reset.
  assert (H2 : 2 <> 0) by lra.
  assert (H1 : system_refinement_ratio_ a <> 0) by (simpl; lra).
  destruct (C7_resetAdaptationRatios Dim2 wendland_kernel
              SPHAdaptation_MostRefinedSpacing a 1.3 2 1.3 H2)
    as (Hscale & Hidem & Hback).
  split; [exact H2 |]; split; [exact H1 |]; split; [exact Hscale |].
  split; [exact Hidem |].
  exact (proj1 (Hback H1)).
Defined.

(** ** Child placement

    The two-dimensional pattern at angle 0 and at a quarter turn. *)

Lemma splittingPattern_2d_angle_0 (x y spacing : R) :
  splittingPattern_2d (x, y) spacing 0 = (x + 0.5 * spacing, y).
Proof.
  unfold splittingPattern_2d; simpl; rewrite cos_0, sin_0.
  f_equal; ring.
Qed.

Lemma splittingPattern_2d_quarter_turn (x y spacing : R) :
  splittingPattern_2d (x, y) spacing (PI / 2) = (x, y + 0.5 * spacing).
Proof.
  unfold splittingPattern_2d; simpl; rewrite cos_PI2, sin_PI2.
  f_equal; ring.
Qed.

(** * Further properties of the adaptation classes *)

Section ResetHistories.

Variable Eps : R.
Variable dim : Dim.
Variable KernelWendlandC2 : R -> Kernel.
Variable Winfunc : R -> Kernel.

(** ** Chains of resets *)

(** Two resets in a row: when the first system ratio is not zero, the first
    call leaves no trace. *)
Theorem reset_last_call_wins
    (mrs : R -> Z -> R) (a : SPHAdaptation) (h1 ratio1 h2 ratio2 : R) :
  ratio1 <> 0 ->
  SPHAdaptation_resetAdaptationRatios dim KernelWendlandC2 mrs
    (SPHAdaptation_resetAdaptationRatios dim KernelWendlandC2 mrs a h1 ratio1)
    h2 ratio2
  = SPHAdaptation_resetAdaptationRatios dim KernelWendlandC2 mrs a h2 ratio2.
Proof.
  intros H1.
  assert (E : spacing_ref_ a * system_refinement_ratio_ a / ratio1 * ratio1 / ratio2
              = spacing_ref_ a * system_refinement_ratio_ a / ratio2).
  { unfold Rdiv; rewrite (Rmult_assoc _ (/ ratio1) ratio1).
    rewrite Rinv_l by exact H1; rewrite Rmult_1_r; reflexivity. }
  unfold SPHAdaptation_resetAdaptationRatios; simpl.
  rewrite E; reflexivity.
Qed.

(** The reference spacing times the system ratio is the resolution of the
    body, and the smoothing length is the spacing ratio times the reference
    spacing. *)
Definition resolution_kept (resolution_ref : R) (a : SPHAdaptation) : Prop :=
  system_refinement_ratio_ a <> 0
  /\ spacing_ref_ a * system_refinement_ratio_ a = resolution_ref
  /\ h_ref_ a = h_spacing_ratio_ a * spacing_ref_ a.

Lemma resolution_kept_new (body : SPHBody) (h sys : R) (L : Z) :
  sys <> 0 ->
  resolution_kept (resolution_ref_ body)
    (ParticleSplitAndMerge_new Eps dim KernelWendlandC2 Winfunc body h sys L).
Proof.
  intros Hs; unfold resolution_kept; simpl.
  split; [exact Hs |]; split; [field; exact Hs | reflexivity].
Qed.

Lemma resolution_kept_reset
    (res : R) (s : ParticleSplitAndMerge) (h ratio : R) :
  ratio <> 0 -> resolution_kept res s ->
  resolution_kept res
    (ParticleSplitAndMerge_resetAdaptationRatios dim KernelWendlandC2 s h ratio).
Proof.
  intros Hr (Ho & Hres & _); unfold resolution_kept; simpl.
  split; [exact Hr |]; split; [| reflexivity].
  rewrite <- Hres; field; exact Hr.
Qed.

(** Reset calls with non-zero system ratios. *)
Definition nonzero_calls (calls : list ResetCall) : Prop :=
  Forall (fun call => snd call <> 0) calls.

(** Through construction and any resets with non-zero system ratios, the
    absolute resolution is kept: the reference spacing times the current
    system ratio is the resolution of the body, the smoothing length is the
    current spacing ratio times the reference spacing, and the refinement
    level and the body name are the ones given at construction. *)
Theorem split_merge_resolution_kept
    (body : SPHBody) (h sys : R) (L : Z) (calls : list ResetCall) :
  sys <> 0 -> nonzero_calls calls ->
  let s := after_resets
             (ParticleSplitAndMerge_resetAdaptationRatios dim KernelWendlandC2)
             (ParticleSplitAndMerge_new Eps dim KernelWendlandC2 Winfunc body h sys L)
             calls in
  spacing_ref_ s * system_refinement_ratio_ s = resolution_ref_ body
  /\ h_ref_ s = h_spacing_ratio_ s * spacing_ref_ s
  /\ local_refinement_level_ s = L
  /\ body_name_ s = getName body.
Proof.
  intros Hs Hcalls.
  assert (Hgen : forall (calls : list ResetCall) (s0 : ParticleSplitAndMerge),
            nonzero_calls calls ->
            resolution_kept (resolution_ref_ body) s0 ->
            local_refinement_level_ s0 = L ->
            body_name_ s0 = getName body ->
            let s := after_resets
                       (ParticleSplitAndMerge_resetAdaptationRatios dim KernelWendlandC2)
                       s0 calls in
            resolution_kept (resolution_ref_ body) s
            /\ local_refinement_level_ s = L
            /\ body_name_ s = getName body).
  { clear calls Hcalls.
    induction calls as [|[h' r'] calls IH]; intros s0 Hc Hk HL Hn; simpl.
    - auto.
    - apply Forall_cons_iff in Hc as [Hr Hrest]; simpl in Hr.
      apply IH; [exact Hrest | | exact HL | exact Hn].
      apply resolution_kept_reset; assumption. }
  intros s.
  destruct (Hgen calls _ Hcalls (resolution_kept_new body h sys L Hs)
              eq_refl eq_refl) as ((_ & Hres & Hh) & HL & Hn).
  auto.
Qed.

(** ** Volumes of the split-and-merge adaptation *)

Lemma root_pow (x : R) (n : nat) :
  0 < x -> (0 < n)%nat -> Rpower x (1 / INR n) ^ n = x.
Proof.
  intros Hx Hn.
  assert (HnR : 0 < INR n) by (apply lt_0_INR; exact Hn).
  rewrite <- Rpower_pow by (unfold Rpower; apply exp_pos).
  rewrite Rpower_mult.
  replace (1 / INR n * INR n) with 1 by (field; lra).
  unfold Rpower; rewrite Rmult_1_l; apply exp_ln; exact Hx.
Qed.

Lemma spatial_dimension_pos : (0 < spatial_dimension dim)%nat.
Proof. unfold spatial_dimension; destruct dim; lia. Qed.

(** On a consistent object the maximum volume is [2^L] minimum volumes. *)
Lemma consistent_volume_ratio (L : Z) (s : ParticleSplitAndMerge) :
  split_merge_consistent dim L s ->
  maximum_volume_ s = 2 ^ Z.to_nat L * minimum_volume_ s.
Proof.
  intros (_ & Hmin & Hvmin & Hvmax).
  rewrite Hvmin, Hvmax, Hmin.
  set (q := Rpower (2 ^ Z.to_nat L) (1 / INR (spatial_dimension dim))).
  assert (Hq : 0 < q) by (unfold q, Rpower; apply exp_pos).
  assert (Hroot : q ^ spatial_dimension dim = 2 ^ Z.to_nat L).
  { apply root_pow; [apply pow_lt; lra | apply spatial_dimension_pos]. }
  unfold Rdiv; rewrite Rpow_mult_distr, pow_inv, Hroot.
  field; apply pow_nonzero; lra.
Qed.

(** After construction at level [L] and any resets, the maximum volume is
    [2^L] times the minimum volume: each refinement level halves the volume
    of a particle, in two and in three dimensions alike. *)
Theorem split_merge_volume_ratio
    (body : SPHBody) (h sys : R) (L : Z) (calls : list ResetCall) :
  let s := after_resets
             (ParticleSplitAndMerge_resetAdaptationRatios dim KernelWendlandC2)
             (ParticleSplitAndMerge_new Eps dim KernelWendlandC2 Winfunc body h sys L)
             calls in
  maximum_volume_ s = 2 ^ Z.to_nat L * minimum_volume_ s.
Proof.
  intros s; apply consistent_volume_ratio.
  apply split_merge_consistent_resets, split_merge_consistent_new.
Qed.

End ResetHistories.

(** ** The spacing requested near a shape *)

(** A radial profile that is positive at the centre, not negative on the
    support and not increasing on it. *)
Definition profile_decreasing (k : Kernel) : Prop :=
  0 < W_1D k 0
  /\ (forall q : R, 0 <= q < KernelSize k -> 0 <= W_1D k q)
  /\ (forall q1 q2 : R,
        0 <= q1 <= q2 -> q2 < KernelSize k -> W_1D k q2 <= W_1D k q1).

Lemma blend_weight_range (k : Kernel) (q : R) :
  profile_decreasing k -> 0 <= q < KernelSize k ->
  0 <= W_1D k q / W_1D k 0 <= 1.
Proof.
  intros (H0 & Hpos & Hdec) Hq.
  assert (Hle : W_1D k q <= W_1D k 0) by (apply Hdec; lra).
  pose proof (Hpos q Hq) as Hge.
  pose proof (Rinv_0_lt_compat _ H0) as Hinv.
  split.
  - unfold Rdiv; nra.
  - apply (Rmult_le_reg_r (W_1D k 0)); [exact H0 |].
    replace (W_1D k q / W_1D k 0 * W_1D k 0) with (W_1D k q) by (field; lra).
    lra.
Qed.

Lemma ratio_ref_nonneg (measure transition_thickness : R) :
  0 <= measure -> 0 < transition_thickness ->
  0 <= measure / (2 * transition_thickness).
Proof.
  intros Hm Ht.
  assert (0 < / (2 * transition_thickness)) by (apply Rinv_0_lt_compat; lra).
  unfold Rdiv; nra.
Qed.

Lemma ratio_ref_monotone (m1 m2 transition_thickness : R) :
  m1 <= m2 -> 0 < transition_thickness ->
  m1 / (2 * transition_thickness) <= m2 / (2 * transition_thickness).
Proof.
  intros Hm Ht.
  assert (0 < / (2 * transition_thickness)) by (apply Rinv_0_lt_compat; lra).
  unfold Rdiv; nra.
Qed.

Lemma smoothedSpacing_between
    (p : ParticleWithLocalRefinement) (measure transition_thickness : R) :
  profile_decreasing (kernel_ptr_ p) ->
  finest_spacing_bound_ p <= coarsest_spacing_bound_ p ->
  0 <= measure -> 0 < transition_thickness ->
  finest_spacing_bound_ p <= smoothedSpacing p measure transition_thickness
    <= coarsest_spacing_bound_ p.
Proof.
  intros Hk Hb Hm Ht.
  pose proof (ratio_ref_nonneg measure transition_thickness Hm Ht) as Hq.
  destruct (Rlt_or_le (measure / (2 * transition_thickness))
              (KernelSize (kernel_ptr_ p))) as [Hin | Hout].
  - rewrite smoothedSpacing_inside by exact Hin.
    pose proof (blend_weight_range _ _ Hk (conj Hq Hin)) as Hw.
    nra.
  - rewrite smoothedSpacing_outside by exact Hout; lra.
Qed.

(** With ordered bounds and a decreasing profile, the requested spacing never
    leaves the interval between the finest and the coarsest bound. *)
Theorem smoothedSpacing_range
    (p : ParticleWithLocalRefinement) (measure transition_thickness : R) :
  profile_decreasing (kernel_ptr_ p) ->
  finest_spacing_bound_ p <= coarsest_spacing_bound_ p ->
  0 <= measure -> 0 < transition_thickness ->
  finest_spacing_bound_ p <= smoothedSpacing p measure transition_thickness
    <= coarsest_spacing_bound_ p.
Proof. apply smoothedSpacing_between. Qed.

(** With ordered bounds and a decreasing profile, the requested spacing does
    not decrease when the measure grows. *)
Theorem smoothedSpacing_monotone
    (p : ParticleWithLocalRefinement) (m1 m2 transition_thickness : R) :
  profile_decreasing (kernel_ptr_ p) ->
  finest_spacing_bound_ p <= coarsest_spacing_bound_ p ->
  0 <= m1 <= m2 -> 0 < transition_thickness ->
  smoothedSpacing p m1 transition_thickness
  <= smoothedSpacing p m2 transition_thickness.
Proof.
  intros Hk Hb [Hm1 Hm12] Ht.
  pose proof (ratio_ref_nonneg m1 transition_thickness Hm1 Ht) as Hq1.
  pose proof (ratio_ref_monotone m1 m2 transition_thickness Hm12 Ht) as Hq12.
  destruct (Rlt_or_le (m2 / (2 * transition_thickness))
              (KernelSize (kernel_ptr_ p))) as [Hin | Hout].
  - rewrite !smoothedSpacing_inside by lra.
    destruct Hk as (H0 & Hpos & Hdec).
    pose proof (Hdec _ _ (conj Hq1 Hq12) Hin) as Hw.
    pose proof (Rinv_0_lt_compat _ H0) as Hinv.
    unfold Rdiv in *.
    set (w1 := W_1D (kernel_ptr_ p) (m1 * / (2 * transition_thickness))) in *.
    set (w2 := W_1D (kernel_ptr_ p) (m2 * / (2 * transition_thickness))) in *.
    assert (Hww : w2 * / W_1D (kernel_ptr_ p) 0 <= w1 * / W_1D (kernel_ptr_ p) 0).
    { apply Rmult_le_compat_r; lra. }
    nra.
  - rewrite (smoothedSpacing_outside p m2) by exact Hout.
    apply smoothedSpacing_between; assumption.
Qed.

(** The near-surface variant sees only the distance to the surface: two
    points at opposite signed distances get the same spacing.  On the surface
    the spacing is the finest bound; from a distance of [2 * KernelSize]
    reference spacings on, it is the coarsest bound. *)
Theorem ParticleRefinementNearSurface_shell
    (p : ParticleWithLocalRefinement) (shape : Shape) (inside outside : Vecd) :
  0 < spacing_ref_ p ->
  0 < KernelSize (kernel_ptr_ p) -> W_1D (kernel_ptr_ p) 0 <> 0 ->
  (findSignedDistance shape inside = - findSignedDistance shape outside ->
   ParticleRefinementNearSurface_getLocalSpacing p shape inside
   = ParticleRefinementNearSurface_getLocalSpacing p shape outside)
  /\ (findSignedDistance shape outside = 0 ->
      ParticleRefinementNearSurface_getLocalSpacing p shape outside
      = finest_spacing_bound_ p)
  /\ (2 * KernelSize (kernel_ptr_ p) * spacing_ref_ p
        <= Rabs (findSignedDistance shape outside) ->
      ParticleRefinementNearSurface_getLocalSpacing p shape outside
      = coarsest_spacing_bound_ p).
Proof.
  intros Hs Hk Hw; unfold ParticleRefinementNearSurface_getLocalSpacing.
  split; [| split].
  - intros E; rewrite E, Rabs_Ropp; reflexivity.
  - intros E; rewrite E, Rabs_R0.
    apply smoothedSpacing_at_feature; assumption.
  - intros Hfar; apply smoothedSpacing_outside.
    apply (Rmult_le_reg_r (2 * spacing_ref_ p)); [lra |].
    replace (Rabs (findSignedDistance shape outside) / (2 * spacing_ref_ p)
             * (2 * spacing_ref_ p))
      with (Rabs (findSignedDistance shape outside)) by (field; lra).
    lra.
Qed.

(** The within-shape variant gives the finest bound everywhere inside and on
    the surface, and the coarsest bound from a distance of [4 * KernelSize]
    reference spacings outside on. *)
Theorem ParticleRefinementWithinShape_regions
    (p : ParticleWithLocalRefinement) (shape : Shape) (position : Vecd) :
  0 < spacing_ref_ p ->
  0 < KernelSize (kernel_ptr_ p) -> W_1D (kernel_ptr_ p) 0 <> 0 ->
  (findSignedDistance shape position <= 0 ->
   ParticleRefinementWithinShape_getLocalSpacing p shape position
   = finest_spacing_bound_ p)
  /\ (4 * KernelSize (kernel_ptr_ p) * spacing_ref_ p
        <= findSignedDistance shape position ->
      ParticleRefinementWithinShape_getLocalSpacing p shape position
      = coarsest_spacing_bound_ p).
Proof.
  intros Hs Hk Hw; unfold ParticleRefinementWithinShape_getLocalSpacing.
  split.
  - intros [Hneg | Hzero].
    + apply Rltb_true in Hneg; rewrite Hneg; reflexivity.
    + rewrite Hzero.
      assert (E : Rltb 0 0 = false) by (apply Rltb_false; lra).
      rewrite E; apply smoothedSpacing_at_feature; [assumption .. | lra].
  - intros Hfar.
    assert (E : Rltb (findSignedDistance shape position) 0 = false).
    { apply Rltb_false; nra. }
    rewrite E; apply smoothedSpacing_outside.
    apply (Rmult_le_reg_r (2 * (2 * spacing_ref_ p))); [lra |].
    replace (findSignedDistance shape position / (2 * (2 * spacing_ref_ p))
             * (2 * (2 * spacing_ref_ p)))
      with (findSignedDistance shape position) by (field; lra).
    lra.
Qed.

(** Outside the shape the within-shape variant coarsens more slowly: at the
    same point it never asks for a larger spacing than the near-surface
    variant. *)
Theorem within_shape_not_coarser_than_near_surface
    (p : ParticleWithLocalRefinement) (shape : Shape) (position : Vecd) :
  profile_decreasing (kernel_ptr_ p) ->
  finest_spacing_bound_ p <= coarsest_spacing_bound_ p ->
  0 < spacing_ref_ p ->
  ParticleRefinementWithinShape_getLocalSpacing p shape position
  <= ParticleRefinementNearSurface_getLocalSpacing p shape position.
Proof.
  intros Hk Hb Hs.
  unfold ParticleRefinementWithinShape_getLocalSpacing,
    ParticleRefinementNearSurface_getLocalSpacing.
  set (phi := findSignedDistance shape position).
  destruct (Rltb phi 0) eqn:E.
  - apply smoothedSpacing_between; [assumption .. | apply Rabs_pos | exact Hs].
  - apply Rltb_false in E.
    rewrite (Rabs_right phi) by lra.
    destruct (Rlt_or_le (phi / (2 * spacing_ref_ p))
                (KernelSize (kernel_ptr_ p))) as [Hin | Hout].
    + assert (Hq : 0 <= phi / (2 * (2 * spacing_ref_ p))
                   <= phi / (2 * spacing_ref_ p)).
      { assert (0 < / spacing_ref_ p) by (apply Rinv_0_lt_compat; exact Hs).
        split.
        - apply ratio_ref_nonneg; lra.
        - replace (phi / (2 * (2 * spacing_ref_ p)))
            with (phi * / spacing_ref_ p / 4) by (field; lra).
          replace (phi / (2 * spacing_ref_ p))
            with (phi * / spacing_ref_ p / 2) by (field; lra).
          nra. }
      rewrite !smoothedSpacing_inside by lra.
      destruct Hk as (H0 & Hpos & Hdec).
      pose proof (Hdec _ _ Hq Hin) as Hw.
      pose proof (Rinv_0_lt_compat _ H0) as Hinv.
      unfold Rdiv in *.
      set (w1 := W_1D (kernel_ptr_ p) (phi * / (2 * (2 * spacing_ref_ p)))) in *.
      set (w2 := W_1D (kernel_ptr_ p) (phi * / (2 * spacing_ref_ p))) in *.
      assert (Hww : w2 * / W_1D (kernel_ptr_ p) 0 <= w1 * / W_1D (kernel_ptr_ p) 0).
      { apply Rmult_le_compat_r; lra. }
      nra.
    + rewrite (smoothedSpacing_outside p phi (spacing_ref_ p)) by exact Hout.
      apply smoothedSpacing_between; [assumption .. | lra | lra].
Qed.

(** *** The statements at the water body *)

Lemma quintic_monotone (c s : R) :
  0 <= c <= s -> s <= 1 -> c ^ 4 * (5 - 4 * c) <= s ^ 4 * (5 - 4 * s).
Proof.
  intros [Hc Hcs] Hs.
  assert (HA : 0 <= s ^ 3 * (1 - s)) by (apply Rmult_le_pos; [apply pow_le |]; lra).
  assert (HB : 0 <= s ^ 2 * c * (1 - s)).
  { apply Rmult_le_pos; [apply Rmult_le_pos; [apply pow_le |] |]; lra. }
  assert (HC : 0 <= s * c ^ 2 * (1 - s)).
  { apply Rmult_le_pos; [apply Rmult_le_pos; [| apply pow_le] |]; lra. }
  assert (HD : 0 <= c ^ 3 * (1 - s)) by (apply Rmult_le_pos; [apply pow_le |]; lra).
  assert (HE : 0 <= c ^ 3 * (1 - c)) by (apply Rmult_le_pos; [apply pow_le |]; lra).
  assert (HF : 0 <= (s - c) * (s ^ 2 + s * c + c ^ 2)).
  { apply Rmult_le_pos; [lra | nra]. }
  assert (HG : 0 <= c * ((s - c) * (s + c))).
  { apply Rmult_le_pos; [lra | apply Rmult_le_pos; lra]. }
  assert (HH : 0 <= c ^ 2 * (s - c)) by (apply Rmult_le_pos; [apply pow_le |]; lra).
  apply Rge_le, Rminus_ge, Rle_ge.
  replace (s ^ 4 * (5 - 4 * s) - c ^ 4 * (5 - 4 * c))
    with ((s - c) * (4 * (s ^ 3 * (1 - s)) + 4 * (s ^ 2 * c * (1 - s))
                     + 4 * (s * c ^ 2 * (1 - s)) + 4 * (c ^ 3 * (1 - s))
                     + 4 * (c ^ 3 * (1 - c))
                     + (s - c) * (s ^ 2 + s * c + c ^ 2)
                     + c * ((s - c) * (s + c)) + c ^ 2 * (s - c))) by ring.
  apply Rmult_le_pos; lra.
Qed.

Lemma wendland_profile_quintic (q : R) :
  wendland_profile q = (1 - q / 2) ^ 4 * (5 - 4 * (1 - q / 2)).
Proof.
  unfold wendland_profile.
  replace (0.5 * q) with (q / 2) by lra.
  replace (5 - 4 * (1 - q / 2)) with (1 + 2 * q) by lra.
  reflexivity.
Qed.

(** The Wendland profile is a decreasing profile on its support. *)
Lemma wendland_profile_decreasing (h : R) : profile_decreasing (wendland_kernel h).
Proof.
  unfold profile_decreasing; simpl.
  split; [unfold wendland_profile; lra |].
  split.
  - intros q [Hq0 Hq2]; unfold wendland_profile.
    apply Rmult_le_pos; [apply pow_le |]; lra.
  - intros q1 q2 [Hq1 Hq12] Hq2.
    rewrite !wendland_profile_quintic.
    apply quintic_monotone; lra.
Defined.

Lemma water_refinement_level2 :
  let p := new_refinement water_body 1.3 1 2 in
  kernel_ptr_ p = wendland_kernel (1.3 * (0.1 / 1))
  /\ spacing_ref_ p = 0.1
  /\ finest_spacing_bound_ p = 0.025 + Eps_double
  /\ coarsest_spacing_bound_ p = 0.1 - Eps_double.
Proof.
  intros p.
  split; [reflexivity |].
  split; [simpl; lra |].
  split; [| simpl; lra].
  simpl; unfold SPHAdaptation_MostRefinedSpacing; rewrite powerN_pow.
  change (Z.to_nat 2) with 2%nat; lra.
Defined.

Lemma smoothedSpacing_range_witness :
  let p := new_refinement water_body 1.3 1 2 in
  finest_spacing_bound_ p <= smoothedSpacing p 0.05 0.1 <= coarsest_spacing_bound_ p.
Proof.
  intros p.
  destruct water_refinement_level2 as (Hk & _ & Hf & Hc); fold p in Hk, Hf, Hc.
  apply smoothedSpacing_range.
  - rewrite Hk; apply wendland_profile_decreasing.
  - rewrite Hf, Hc; unfold Eps_double; lra.
  - lra.
  - lra.
Defined.

Lemma smoothedSpacing_monotone_witness :
  let p := new_refinement water_body 1.3 1 2 in
  smoothedSpacing p 0.05 0.1 <= smoothedSpacing p 0.2 0.1.
Proof.
  intros p.
  destruct water_refinement_level2 as (Hk & _ & Hf & Hc); fold p in Hk, Hf, Hc.
  apply smoothedSpacing_monotone.
  - rewrite Hk; apply wendland_profile_decreasing.
  - rewrite Hf, Hc; unfold Eps_double; lra.
  - lra.
  - lra.
Defined.

Lemma ParticleRefinementNearSurface_shell_witness :
  let p := new_refinement water_body 1.3 1 2 in
  let shape := square_shape 1 in
  ParticleRefinementNearSurface_getLocalSpacing p shape [0; 0.5]
  = finest_spacing_bound_ p
  /\ ParticleRefinementNearSurface_getLocalSpacing p shape [2; 0.5]
     = coarsest_spacing_bound_ p.
Proof.
  intros p shape.
  destruct water_refinement_level2 as (Hk & Hs & _); fold p in Hk, Hs.
  assert (Hsp : 0 < spacing_ref_ p) by lra.
  assert (Hsize : 0 < KernelSize (kernel_ptr_ p)) by (rewrite Hk; simpl; lra).
  assert (Hw : W_1D (kernel_ptr_ p) 0 <> 0).
  { rewrite Hk; simpl; unfold wendland_profile; lra. }
  assert (Hon : findSignedDistance shape [0; 0.5] = 0).
  { simpl. replace (0 - 1 / 2) with (- (1 / 2)) by lra.
    replace (0.5 - 1 / 2) with 0 by lra.
    rewrite Rabs_Ropp, Rabs_R0, (Rabs_right (1 / 2)) by lra.
    rewrite Rmax_left by lra; lra. }
  assert (Hout : findSignedDistance shape [2; 0.5] = 1).
  { simpl. replace (2 - 1 / 2) with (3 / 2) by lra.
    replace (0.5 - 1 / 2) with 0 by lra.
    rewrite Rabs_R0, (Rabs_right (3 / 2)) by lra.
    rewrite Rmax_left by lra; lra. }
  split.
  - exact (proj1 (proj2 (ParticleRefinementNearSurface_shell p shape [0; 0.5]
                           [0; 0.5] Hsp Hsize Hw)) Hon).
  - apply (proj2 (proj2 (ParticleRefinementNearSurface_shell p shape [0; 0.5]
                           [2; 0.5] Hsp Hsize Hw))).
    rewrite Hout, Hk, Hs, Rabs_R1; simpl; lra.
Defined.

Lemma ParticleRefinementWithinShape_regions_witness :
  let p := new_refinement water_body 1.3 1 2 in
  let shape := square_shape 1 in
  ParticleRefinementWithinShape_getLocalSpacing p shape [0.5; 0.5]
  = finest_spacing_bound_ p
  /\ ParticleRefinementWithinShape_getLocalSpacing p shape [2; 0.5]
     = coarsest_spacing_bound_ p.
Proof.
  intros p shape.
  destruct water_refinement_level2 as (Hk & Hs & _); fold p in Hk, Hs.
  assert (Hsp : 0 < spacing_ref_ p) by lra.
  assert (Hsize : 0 < KernelSize (kernel_ptr_ p)) by (rewrite Hk; simpl; lra).
  assert (Hw : W_1D (kernel_ptr_ p) 0 <> 0).
  { rewrite Hk; simpl; unfold wendland_profile; lra. }
  assert (Hin : findSignedDistance shape [0.5; 0.5] = - (1 / 2)).
  { simpl. replace (0.5 - 1 / 2) with 0 by lra.
    rewrite Rabs_R0, Rmax_left by lra; lra. }
  assert (Hout : findSignedDistance shape [2; 0.5] = 1).
  { simpl. replace (2 - 1 / 2) with (3 / 2) by lra.
    replace (0.5 - 1 / 2) with 0 by lra.
    rewrite Rabs_R0, (Rabs_right (3 / 2)) by lra.
    rewrite Rmax_left by lra; lra. }
  split.
  - apply (proj1 (ParticleRefinementWithinShape_regions p shape [0.5; 0.5]
                    Hsp Hsize Hw)).
    rewrite Hin; lra.
  - apply (proj2 (ParticleRefinementWithinShape_regions p shape [2; 0.5]
                    Hsp Hsize Hw)).
    rewrite Hout, Hk, Hs; simpl; lra.
Defined.

Lemma within_shape_not_coarser_than_near_surface_witness :
  let p := new_refinement water_body 1.3 1 2 in
  let shape := square_shape 1 in
  ParticleRefinementWithinShape_getLocalSpacing p shape [1.1; 0.5]
  <= ParticleRefinementNearSurface_getLocalSpacing p shape [1.1; 0.5].
Proof.
  intros p shape.
  destruct water_refinement_level2 as (Hk & Hs & Hf & Hc); fold p in Hk, Hs, Hf, Hc.
  apply within_shape_not_coarser_than_near_surface.
  - rewrite Hk; apply wendland_profile_decreasing.
  - rewrite Hf, Hc; unfold Eps_double; lra.
  - lra.
Defined.

(** ** Child placement *)

Lemma planar_pattern (x y particle_spacing delta : R) :
  let child := splittingPattern_2d (x, y) particle_spacing delta in
  let sibling := splittingPattern_2d (x, y) particle_spacing (delta + PI) in
  (fst child - x) ^ 2 + (snd child - y) ^ 2 = (0.5 * particle_spacing) ^ 2
  /\ fst child + fst sibling = 2 * x
  /\ snd child + snd sibling = 2 * y
  /\ (fst child - fst sibling) ^ 2 + (snd child - snd sibling) ^ 2
     = particle_spacing ^ 2.
Proof.
  unfold splittingPattern_2d; simpl.
  rewrite neg_cos, neg_sin.
  pose proof (sin2_cos2 delta) as H; unfold Rsqr in H.
  repeat split; try ring.
  - replace ((x + 0.5 * particle_spacing * cos delta - x)
             * ((x + 0.5 * particle_spacing * cos delta - x) * 1)
             + (y + 0.5 * particle_spacing * sin delta - y)
               * ((y + 0.5 * particle_spacing * sin delta - y) * 1))
      with (0.5 * particle_spacing * (0.5 * particle_spacing)
            * (sin delta * sin delta + cos delta * cos delta)) by ring.
    rewrite H; ring.
  - replace ((x + 0.5 * particle_spacing * cos delta
              - (x + 0.5 * particle_spacing * - cos delta))
             * ((x + 0.5 * particle_spacing * cos delta
                 - (x + 0.5 * particle_spacing * - cos delta)) * 1)
             + (y + 0.5 * particle_spacing * sin delta
                - (y + 0.5 * particle_spacing * - sin delta))
               * ((y + 0.5 * particle_spacing * sin delta
                   - (y + 0.5 * particle_spacing * - sin delta)) * 1))
      with (particle_spacing * particle_spacing
            * (sin delta * sin delta + cos delta * cos delta)) by lra.
    rewrite H; ring.
Qed.

(** In the plane the child sits at half the spacing from the parent, and the
    children placed at an angle and at the opposite angle are mirror images
    in the parent, one spacing apart. *)
Theorem splittingPattern_2d_siblings (x y particle_spacing delta : R) :
  let child := splittingPattern_2d (x, y) particle_spacing delta in
  let sibling := splittingPattern_2d (x, y) particle_spacing (delta + PI) in
  (fst child - x) ^ 2 + (snd child - y) ^ 2 = (0.5 * particle_spacing) ^ 2
  /\ fst child + fst sibling = 2 * x
  /\ snd child + snd sibling = 2 * y
  /\ (fst child - fst sibling) ^ 2 + (snd child - snd sibling) ^ 2
     = particle_spacing ^ 2.
Proof. apply planar_pattern. Qed.

(** In space the pattern is the planar one at constant height: the third
    coordinate of the child is the parent's, the child is still at half the
    spacing from the parent, and opposite angles give mirror images. *)
Theorem splittingPattern_3d_planar (x y z particle_spacing delta : R) :
  let child := splittingPattern_3d (x, y, z) particle_spacing delta in
  let sibling := splittingPattern_3d (x, y, z) particle_spacing (delta + PI) in
  snd child = z
  /\ fst child = splittingPattern_2d (x, y) particle_spacing delta
  /\ (fst (fst child) - x) ^ 2 + (snd (fst child) - y) ^ 2 + (snd child - z) ^ 2
     = (0.5 * particle_spacing) ^ 2
  /\ fst (fst child) + fst (fst sibling) = 2 * x
  /\ snd (fst child) + snd (fst sibling) = 2 * y.
Proof.
  intros child sibling.
  destruct (planar_pattern x y particle_spacing delta)
    as (Hdist & Hx & Hy & _).
  split; [reflexivity |]; split; [reflexivity |].
  split; [| split; [exact Hx | exact Hy]].
  change (fst (fst child)) with (fst (splittingPattern_2d (x, y) particle_spacing delta)).
  change (snd (fst child)) with (snd (splittingPattern_2d (x, y) particle_spacing delta)).
  change (snd child) with z.
  rewrite <- Hdist; ring.
Qed.

(** ** Which kernel an adaptation carries *)

Lemma first_six_is_prefix (name : string) :
  String.eqb (substring 0 6 name) "PDBody" = prefix "PDBody" name.
Proof.
  destruct (prefix "PDBody" name) eqn:E.
  - apply prefix_correct in E; simpl String.length in E.
    rewrite E; apply String.eqb_refl.
  - apply String.eqb_neq; intros H.
    assert (Hp : prefix "PDBody" name = true) by (apply prefix_correct; exact H).
    congruence.
Qed.

(** The last reset of a non-empty history decides the kernel fields. *)
Lemma kernel_after_resets
    (dim : Dim) (KernelWendlandC2 : R -> Kernel) (calls : list ResetCall) :
  forall s0 : ParticleSplitAndMerge,
  calls <> [] ->
  let s := after_resets
             (ParticleSplitAndMerge_resetAdaptationRatios dim KernelWendlandC2)
             s0 calls in
  kernel_ptr_ s = KernelWendlandC2 (h_ref_ s)
  /\ sigma0_ref_ s
     = computeReferenceNumberDensity dim (KernelWendlandC2 (h_ref_ s)) (spacing_ref_ s).
Proof.
  induction calls as [|[h r] calls IH]; intros s0 Hne; [congruence |].
  destruct calls as [|call calls'].
  - simpl; split; reflexivity.
  - apply (IH (ParticleSplitAndMerge_resetAdaptationRatios dim KernelWendlandC2 s0 h r)).
    discriminate.
Qed.

(** A body gets the kernel [Winfunc] exactly when its name starts with
    [PDBody], and [KernelWendlandC2] otherwise, at the reference smoothing
    length in both cases; the reference number density is the Wendland
    lattice sum in both cases.  After one or more resets the kernel is
    [KernelWendlandC2] again, whatever the name. *)
Theorem kernel_of_body
    (Eps : R) (dim : Dim) (KernelWendlandC2 Winfunc : R -> Kernel)
    (body : SPHBody) (h sys : R) (L : Z) (calls : list ResetCall) :
  let s0 := ParticleSplitAndMerge_new Eps dim KernelWendlandC2 Winfunc body h sys L in
  let s := after_resets
             (ParticleSplitAndMerge_resetAdaptationRatios dim KernelWendlandC2)
             s0 calls in
  kernel_ptr_ s0
  = (if prefix "PDBody" (getName body)
     then Winfunc (h_ref_ s0) else KernelWendlandC2 (h_ref_ s0))
  /\ sigma0_ref_ s0
     = computeReferenceNumberDensity dim (KernelWendlandC2 (h_ref_ s0)) (spacing_ref_ s0)
  /\ (calls <> [] ->
      kernel_ptr_ s = KernelWendlandC2 (h_ref_ s)
      /\ sigma0_ref_ s
         = computeReferenceNumberDensity dim (KernelWendlandC2 (h_ref_ s))
             (spacing_ref_ s)).
Proof.
  intros s0 s.
  split; [| split].
  - unfold s0; simpl; rewrite first_six_is_prefix; reflexivity.
  - reflexivity.
  - intros Hne; apply kernel_after_resets; exact Hne.
Qed.

(** ** The lattice summation of the reference number density *)

(** The search half-width of the summation, and the summation over a window
    of any half-width [n]. *)
Definition search_depth (k : Kernel) (particle_spacing : R) : Z :=
  (int_of_Real (CutOffRadius k / particle_spacing) + 1)%Z.

Definition lattice_row (k : Kernel) (particle_spacing : R) (n : Z)
    (tail : Vecd) (sigma : R) : R :=
  fold_left (fun sigma i =>
    lattice_site k (CutOffRadius k) (IZR i * particle_spacing :: tail) sigma)
    (Zinterval (- n) n) sigma.

Definition lattice_sum_2d (k : Kernel) (particle_spacing : R) (n : Z) : R :=
  fold_left (fun sigma j =>
    lattice_row k particle_spacing n [IZR j * particle_spacing] sigma)
    (Zinterval (- n) n) 0.

Definition lattice_sum_3d (k : Kernel) (particle_spacing : R) (n : Z) : R :=
  fold_left (fun sigma k3 =>
    fold_left (fun sigma j =>
      lattice_row k particle_spacing n
        [IZR j * particle_spacing; IZR k3 * particle_spacing] sigma)
      (Zinterval (- n) n) sigma)
    (Zinterval (- n) n) 0.

Lemma computeReferenceNumberDensity_2d_window (k : Kernel) (particle_spacing : R) :
  computeReferenceNumberDensity_2d k particle_spacing
  = lattice_sum_2d k particle_spacing (search_depth k particle_spacing).
Proof. reflexivity. Qed.

Lemma computeReferenceNumberDensity_3d_window (k : Kernel) (particle_spacing : R) :
  computeReferenceNumberDensity_3d k particle_spacing
  = lattice_sum_3d k particle_spacing (search_depth k particle_spacing).
Proof. reflexivity. Qed.

(** *** Integer ranges *)

Lemma Zrange_app (lo : Z) (a b : nat) :
  Zrange lo (a + b) = Zrange lo a ++ Zrange (lo + Z.of_nat a) b.
Proof.
  revert lo; induction a as [|a IH]; intros lo.
  - simpl; f_equal; lia.
  - change (S a + b)%nat with (S (a + b)); simpl Zrange.
    rewrite IH; simpl; do 3 f_equal; lia.
Qed.

Lemma In_Zrange (lo : Z) (n : nat) (i : Z) :
  In i (Zrange lo n) <-> (lo <= i < lo + Z.of_nat n)%Z.
Proof.
  revert lo; induction n as [|n IH]; intros lo; simpl Zrange.
  - simpl; lia.
  - simpl In; rewrite IH; lia.
Qed.

Lemma In_Zinterval (lo hi i : Z) :
  In i (Zinterval lo hi) <-> (lo <= i <= hi)%Z.
Proof. unfold Zinterval; rewrite In_Zrange; lia. Qed.

Lemma Zinterval_split (lo mid hi : Z) :
  (lo <= mid + 1)%Z -> (mid <= hi)%Z ->
  Zinterval lo hi = Zinterval lo mid ++ Zinterval (mid + 1) hi.
Proof.
  intros H1 H2; unfold Zinterval.
  replace (Z.to_nat (hi - lo + 1))
    with (Z.to_nat (mid - lo + 1) + Z.to_nat (hi - (mid + 1) + 1))%nat by lia.
  rewrite Zrange_app; do 2 f_equal; lia.
Qed.

(** *** Folds that skip elements *)

Lemma fold_left_skip {A : Type} (f : R -> A -> R) (l : list A) (sigma : R) :
  (forall x : A, In x l -> forall s : R, f s x = s) ->
  fold_left f l sigma = sigma.
Proof.
  revert sigma; induction l as [|x l IH]; intros sigma H; simpl.
  - reflexivity.
  - rewrite (H x (or_introl eq_refl)); apply IH.
    intros y Hy; apply H; right; exact Hy.
Qed.

Lemma fold_left_same {A : Type} (f g : R -> A -> R) (l : list A) (sigma : R) :
  (forall x : A, In x l -> forall s : R, f s x = g s x) ->
  fold_left f l sigma = fold_left g l sigma.
Proof.
  revert sigma; induction l as [|x l IH]; intros sigma H; simpl.
  - reflexivity.
  - rewrite (H x (or_introl eq_refl)); apply IH.
    intros y Hy; apply H; right; exact Hy.
Qed.

(** A fold over a symmetric window can be cut down to any smaller symmetric
    window outside of which the step does nothing. *)
Lemma fold_window (f : R -> Z -> R) (m n : Z) (sigma : R) :
  (m <= n)%Z ->
  (forall i : Z, (i < - m \/ m < i)%Z -> forall s : R, f s i = s) ->
  fold_left f (Zinterval (- n) n) sigma = fold_left f (Zinterval (- m) m) sigma.
Proof.
  intros Hmn Hskip.
  destruct (Z_lt_le_dec m 0) as [Hneg | Hpos].
  - rewrite !fold_left_skip; [reflexivity | |].
    + intros i Hi; apply In_Zinterval in Hi; lia.
    + intros i _; apply Hskip; lia.
  - rewrite (Zinterval_split (- n) (- m - 1) n) by lia.
    replace (- m - 1 + 1)%Z with (- m)%Z by lia.
    rewrite (Zinterval_split (- m) m n) by lia.
    rewrite !fold_left_app.
    rewrite (fold_left_skip f (Zinterval (- n) (- m - 1))).
    + apply fold_left_skip.
      intros i Hi; apply In_Zinterval in Hi; apply Hskip; lia.
    + intros i Hi; apply In_Zinterval in Hi; apply Hskip; lia.
Qed.

(** *** Sites beyond the cut-off *)

Lemma sum_of_squares_ge (v : Vecd) (acc : R) :
  acc <= fold_left (fun acc x => acc + x * x) v acc.
Proof.
  revert acc; induction v as [|y v IH]; intros acc; simpl.
  - lra.
  - apply Rle_trans with (acc + y * y); [nra | apply IH].
Qed.

Lemma sum_of_squares_component (v : Vecd) (x acc : R) :
  In x v -> acc + x * x <= fold_left (fun acc x => acc + x * x) v acc.
Proof.
  revert acc; induction v as [|y v IH]; intros acc Hin; simpl.
  - destruct Hin.
  - destruct Hin as [-> | Hin].
    + apply sum_of_squares_ge.
    + apply Rle_trans with (acc + y * y + x * x); [nra | apply IH; exact Hin].
Qed.

Lemma norm_ge_component (v : Vecd) (x : R) : In x v -> Rabs x <= norm v.
Proof.
  intros Hin; unfold norm.
  rewrite <- sqrt_Rsqr_abs; apply sqrt_le_1_alt.
  pose proof (sum_of_squares_component v x 0 Hin); unfold Rsqr; lra.
Qed.

Lemma norm_nonneg (v : Vecd) : 0 <= norm v.
Proof. unfold norm; apply sqrt_pos. Qed.

Lemma lattice_site_beyond (k : Kernel) (cutoff_radius : R) (loc : Vecd) (sigma : R) :
  cutoff_radius <= norm loc -> lattice_site k cutoff_radius loc sigma = sigma.
Proof.
  intros H; unfold lattice_site.
  apply Rltb_false in H; rewrite H; reflexivity.
Qed.

(** A lattice coordinate beyond [int (cutoff / spacing)] puts the site at or
    beyond the cut-off. *)
Lemma coordinate_beyond (cutoff_radius particle_spacing : R) (i : Z) (loc : Vecd) :
  0 < particle_spacing ->
  (i < - int_of_Real (cutoff_radius / particle_spacing)
   \/ int_of_Real (cutoff_radius / particle_spacing) < i)%Z ->
  In (IZR i * particle_spacing) loc ->
  cutoff_radius <= norm loc.
Proof.
  intros Hs Hi Hin.
  apply Rle_trans with (Rabs (IZR i * particle_spacing));
    [| apply norm_ge_component; exact Hin].
  unfold int_of_Real in Hi.
  assert (Hq : cutoff_radius / particle_spacing * particle_spacing = cutoff_radius)
    by (field; lra).
  destruct (Rltb (cutoff_radius / particle_spacing) 0) eqn:E.
  - apply Rltb_true in E.
    assert (cutoff_radius < 0) by nra.
    pose proof (Rabs_pos (IZR i * particle_spacing)); lra.
  - apply Rltb_false in E.
    pose proof (Int_part_nonneg _ E) as Hm.
    destruct (base_Int_part (cutoff_radius / particle_spacing)) as [_ Hup].
    set (m := Int_part (cutoff_radius / particle_spacing)) in *.
    rewrite Rabs_mult, (Rabs_right particle_spacing) by lra.
    assert (Habs : IZR m + 1 <= Rabs (IZR i)).
    { rewrite <- plus_IZR, <- abs_IZR; apply IZR_le; lia. }
    nra.
Qed.

Lemma lattice_row_window (k : Kernel) (particle_spacing : R) (n : Z)
    (tail : Vecd) (sigma : R) :
  0 < particle_spacing ->
  (search_depth k particle_spacing - 1 <= n)%Z ->
  lattice_row k particle_spacing n tail sigma
  = lattice_row k particle_spacing (search_depth k particle_spacing - 1) tail sigma.
Proof.
  intros Hs Hn; unfold lattice_row.
  apply fold_window; [exact Hn |].
  intros i Hi s; apply lattice_site_beyond.
  apply (coordinate_beyond _ particle_spacing i); [exact Hs | | left; reflexivity].
  unfold search_depth in Hi; lia.
Qed.

Lemma lattice_row_beyond (k : Kernel) (particle_spacing : R) (n : Z)
    (tail : Vecd) (j : Z) (sigma : R) :
  0 < particle_spacing ->
  (j < - (search_depth k particle_spacing - 1)
   \/ search_depth k particle_spacing - 1 < j)%Z ->
  In (IZR j * particle_spacing) tail ->
  lattice_row k particle_spacing n tail sigma = sigma.
Proof.
  intros Hs Hj Hin; unfold lattice_row.
  apply fold_left_skip; intros i _ s.
  apply lattice_site_beyond.
  apply (coordinate_beyond _ particle_spacing j); [exact Hs | | right; exact Hin].
  unfold search_depth in Hj; lia.
Qed.

Lemma lattice_sum_2d_cut (k : Kernel) (particle_spacing : R) (n : Z) :
  0 < particle_spacing ->
  (search_depth k particle_spacing - 1 <= n)%Z ->
  lattice_sum_2d k particle_spacing n
  = lattice_sum_2d k particle_spacing (search_depth k particle_spacing - 1).
Proof.
  intros Hs Hn; unfold lattice_sum_2d.
  rewrite (fold_left_same _
             (fun sigma j =>
                lattice_row k particle_spacing
                  (search_depth k particle_spacing - 1)
                  [IZR j * particle_spacing] sigma))
    by (intros j _ s; apply lattice_row_window; assumption).
  apply fold_window; [exact Hn |].
  intros j Hj s.
  apply (lattice_row_beyond k particle_spacing _ _ j); [exact Hs | exact Hj |].
  left; reflexivity.
Qed.

Lemma lattice_sum_3d_cut (k : Kernel) (particle_spacing : R) (n : Z) :
  0 < particle_spacing ->
  (search_depth k particle_spacing - 1 <= n)%Z ->
  lattice_sum_3d k particle_spacing n
  = lattice_sum_3d k particle_spacing (search_depth k particle_spacing - 1).
Proof.
  intros Hs Hn; unfold lattice_sum_3d.
  set (m := (search_depth k particle_spacing - 1)%Z) in *.
  rewrite (fold_left_same _
             (fun sigma k3 =>
                fold_left (fun sigma j =>
                  lattice_row k particle_spacing m
                    [IZR j * particle_spacing; IZR k3 * particle_spacing] sigma)
                  (Zinterval (- m) m) sigma)).
  - apply fold_window; [exact Hn |].
    intros k3 Hk3 s; apply fold_left_skip; intros j _ s'.
    apply (lattice_row_beyond k particle_spacing _ _ k3); [exact Hs | exact Hk3 |].
    right; left; reflexivity.
  - intros k3 _ s.
    rewrite (fold_left_same _
               (fun sigma j =>
                  lattice_row k particle_spacing m
                    [IZR j * particle_spacing; IZR k3 * particle_spacing] sigma))
      by (intros j _ s'; apply lattice_row_window; assumption).
    apply fold_window; [exact Hn |].
    intros j Hj s'.
    apply (lattice_row_beyond k particle_spacing _ _ j); [exact Hs | exact Hj |].
    left; reflexivity.
Qed.

(** The summation does not depend on its window: with a positive spacing,
    every half-width from [int (cutoff / spacing)] on gives the value the
    code computes with its half-width [int (cutoff / spacing) + 1], in two
    and in three dimensions.  The outermost ring of the window of the code
    never contributes. *)
Theorem computeReferenceNumberDensity_window
    (k : Kernel) (particle_spacing : R) (n : Z) :
  0 < particle_spacing ->
  (int_of_Real (CutOffRadius k / particle_spacing) <= n)%Z ->
  lattice_sum_2d k particle_spacing n
  = computeReferenceNumberDensity Dim2 k particle_spacing
  /\ lattice_sum_3d k particle_spacing n
     = computeReferenceNumberDensity Dim3 k particle_spacing.
Proof.
  intros Hs Hn.
  assert (Hn' : (search_depth k particle_spacing - 1 <= n)%Z).
  { unfold search_depth; lia. }
  assert (Hsd : (search_depth k particle_spacing - 1
                 <= search_depth k particle_spacing)%Z) by lia.
  split.
  - change (computeReferenceNumberDensity Dim2 k particle_spacing)
      with (lattice_sum_2d k particle_spacing (search_depth k particle_spacing)).
    rewrite (lattice_sum_2d_cut k particle_spacing n Hs Hn').
    rewrite (lattice_sum_2d_cut k particle_spacing _ Hs Hsd); reflexivity.
  - change (computeReferenceNumberDensity Dim3 k particle_spacing)
      with (lattice_sum_3d k particle_spacing (search_depth k particle_spacing)).
    rewrite (lattice_sum_3d_cut k particle_spacing n Hs Hn').
    rewrite (lattice_sum_3d_cut k particle_spacing _ Hs Hsd); reflexivity.
Qed.

(** *** Sign of the summation *)

(** A kernel whose weight is not negative inside the cut-off and positive at
    the centre. *)
Definition weight_nonneg (k : Kernel) : Prop :=
  (forall (r : R) (v : Vecd), 0 <= r < CutOffRadius k -> 0 <= W k r v)
  /\ (forall v : Vecd, 0 < W k 0 v).

Lemma fold_left_ge {A : Type} (f : R -> A -> R) (l : list A) (sigma : R) :
  (forall x : A, In x l -> forall s : R, s <= f s x) ->
  sigma <= fold_left f l sigma.
Proof.
  revert sigma; induction l as [|x l IH]; intros sigma H; simpl.
  - lra.
  - apply Rle_trans with (f sigma x); [apply H; left; reflexivity |].
    apply IH; intros y Hy; apply H; right; exact Hy.
Qed.

Lemma fold_left_gt {A : Type} (f : R -> A -> R) (l : list A) (x0 : A) (sigma : R) :
  (forall x : A, In x l -> forall s : R, s <= f s x) ->
  In x0 l -> (forall s : R, s < f s x0) ->
  sigma < fold_left f l sigma.
Proof.
  revert sigma; induction l as [|x l IH]; intros sigma H Hin Hgt; simpl.
  - destruct Hin.
  - destruct Hin as [-> | Hin].
    + apply Rlt_le_trans with (f sigma x0); [apply Hgt |].
      apply fold_left_ge; intros y Hy; apply H; right; exact Hy.
    + apply Rle_lt_trans with (f sigma x); [apply H; left; reflexivity |].
      apply IH; [intros y Hy; apply H; right; exact Hy | exact Hin | exact Hgt].
Qed.

Lemma lattice_site_ge (k : Kernel) (loc : Vecd) (sigma : R) :
  weight_nonneg k -> sigma <= lattice_site k (CutOffRadius k) loc sigma.
Proof.
  intros [Hpos _]; unfold lattice_site.
  destruct (Rltb (norm loc) (CutOffRadius k)) eqn:E; [| lra].
  apply Rltb_true in E.
  pose proof (Hpos (norm loc) loc (conj (norm_nonneg loc) E)); lra.
Qed.

Lemma norm_zero (v : Vecd) : (forall x : R, In x v -> x = 0) -> norm v = 0.
Proof.
  intros H; unfold norm.
  assert (E : forall acc : R, fold_left (fun acc x => acc + x * x) v acc = acc).
  { induction v as [|y v IH]; intros acc; simpl; [reflexivity |].
    rewrite (H y (or_introl eq_refl)), IH.
    - ring.
    - intros x Hx; apply H; right; exact Hx. }
  rewrite E; apply sqrt_0.
Qed.

Lemma lattice_site_origin (k : Kernel) (loc : Vecd) (sigma : R) :
  weight_nonneg k -> 0 < CutOffRadius k ->
  (forall x : R, In x loc -> x = 0) ->
  sigma < lattice_site k (CutOffRadius k) loc sigma.
Proof.
  intros [_ Hcentre] Hc Hzero; unfold lattice_site.
  rewrite (norm_zero loc Hzero).
  assert (E : Rltb 0 (CutOffRadius k) = true) by (apply Rltb_true; exact Hc).
  rewrite E; pose proof (Hcentre loc); lra.
Qed.

Lemma lattice_row_ge (k : Kernel) (particle_spacing : R) (n : Z)
    (tail : Vecd) (sigma : R) :
  weight_nonneg k -> sigma <= lattice_row k particle_spacing n tail sigma.
Proof.
  intros Hk; unfold lattice_row.
  apply fold_left_ge; intros i _ s; apply lattice_site_ge; exact Hk.
Qed.

Lemma lattice_row_origin (k : Kernel) (particle_spacing : R) (n : Z)
    (tail : Vecd) (sigma : R) :
  weight_nonneg k -> 0 < CutOffRadius k -> (0 <= n)%Z ->
  (forall x : R, In x tail -> x = 0) ->
  sigma < lattice_row k particle_spacing n tail sigma.
Proof.
  intros Hk Hc Hn Hzero; unfold lattice_row.
  apply (fold_left_gt _ _ 0%Z).
  - intros i _ s; apply lattice_site_ge; exact Hk.
  - apply In_Zinterval; lia.
  - intros s; apply lattice_site_origin; [exact Hk | exact Hc |].
    intros x [<- | Hx]; [ring | apply Hzero; exact Hx].
Qed.

Lemma search_depth_pos (k : Kernel) (particle_spacing : R) :
  0 < particle_spacing -> 0 < CutOffRadius k ->
  (1 <= search_depth k particle_spacing)%Z.
Proof.
  intros Hs Hc; unfold search_depth, int_of_Real.
  assert (Hq : 0 < CutOffRadius k / particle_spacing)
    by (apply Rdiv_lt_0_compat; assumption).
  assert (E : Rltb (CutOffRadius k / particle_spacing) 0 = false).
  { apply Rltb_false; lra. }
  rewrite E.
  assert (Hm : (0 <= Int_part (CutOffRadius k / particle_spacing))%Z).
  { apply Int_part_nonneg; lra. }
  lia.
Qed.

Lemma computeReferenceNumberDensity_pos
    (dim : Dim) (k : Kernel) (particle_spacing : R) :
  weight_nonneg k -> 0 < CutOffRadius k -> 0 < particle_spacing ->
  0 < computeReferenceNumberDensity dim k particle_spacing.
Proof.
  intros Hk Hc Hs.
  pose proof (search_depth_pos k particle_spacing Hs Hc) as Hsd.
  destruct dim.
  - change (computeReferenceNumberDensity Dim2 k particle_spacing)
      with (lattice_sum_2d k particle_spacing (search_depth k particle_spacing)).
    unfold lattice_sum_2d.
    apply (fold_left_gt _ _ 0%Z).
    + intros j _ s; apply lattice_row_ge; exact Hk.
    + apply In_Zinterval; lia.
    + intros s; apply lattice_row_origin; [exact Hk | exact Hc | lia |].
      intros x [<- | []]; ring.
  - change (computeReferenceNumberDensity Dim3 k particle_spacing)
      with (lattice_sum_3d k particle_spacing (search_depth k particle_spacing)).
    unfold lattice_sum_3d.
    apply (fold_left_gt _ _ 0%Z).
    + intros k3 _ s; apply fold_left_ge.
      intros j _ s'; apply lattice_row_ge; exact Hk.
    + apply In_Zinterval; lia.
    + intros s; apply (fold_left_gt _ _ 0%Z).
      * intros j _ s'; apply lattice_row_ge; exact Hk.
      * apply In_Zinterval; lia.
      * intros s'; apply lattice_row_origin; [exact Hk | exact Hc | lia |].
        intros x [<- | [<- | []]]; ring.
Qed.

(** For a kernel whose weight is not negative inside a positive cut-off and
    positive at the centre, an adaptation built with positive resolution and
    ratios has a positive reference number density, and so has its rescaling
    to any positive smoothing-length ratio. *)
Theorem ReferenceNumberDensity_positive
    (dim : Dim) (KernelWendlandC2 : R -> Kernel)
    (resolution_ref h_spacing_ratio system_refinement_ratio ratio : R) :
  let a := SPHAdaptation_of_resolution dim KernelWendlandC2
             resolution_ref h_spacing_ratio system_refinement_ratio in
  0 < resolution_ref -> 0 < system_refinement_ratio ->
  weight_nonneg (kernel_ptr_ a) -> 0 < CutOffRadius (kernel_ptr_ a) ->
  0 < ratio ->
  0 < sigma0_ref_ a /\ 0 < ReferenceNumberDensity dim a ratio.
Proof.
  intros a Hres Hsys Hk Hc Hratio.
  assert (Hsigma : 0 < sigma0_ref_ a).
  { apply computeReferenceNumberDensity_pos; [exact Hk | exact Hc |].
    apply Rdiv_lt_0_compat; assumption. }
  split; [exact Hsigma |].
  unfold ReferenceNumberDensity; rewrite powerN_pow.
  apply Rmult_lt_0_compat; [exact Hsigma | apply pow_lt; exact Hratio].
Qed.

(** ** The finest spacing of the two refinement rules *)

Lemma root_between (x : R) (n : nat) :
  1 <= x -> (0 < n)%nat -> 1 <= Rpower x (1 / INR n) <= x.
Proof.
  intros Hx Hn.
  assert (HnR : 1 <= INR n).
  { change 1 with (INR 1); apply le_INR; lia. }
  assert (Hexp : 0 <= 1 / INR n <= 1).
  { split.
    - apply Rlt_le, Rdiv_lt_0_compat; lra.
    - apply (Rmult_le_reg_r (INR n)); [lra |].
      replace (1 / INR n * INR n) with 1 by (field; lra); lra. }
  split.
  - apply Rle_trans with (Rpower x 0); [rewrite Rpower_O by lra; lra |].
    apply Rle_Rpower; lra.
  - apply Rle_trans with (Rpower x 1); [apply Rle_Rpower; lra |].
    rewrite Stdlib.Reals.Rpower.Rpower_1 by lra; lra.
Qed.

Lemma root_below (x : R) (n : nat) :
  1 < x -> (1 < n)%nat -> Rpower x (1 / INR n) < x.
Proof.
  intros Hx Hn.
  assert (HnR : 1 < INR n).
  { change 1 with (INR 1); apply lt_INR; lia. }
  apply Rlt_le_trans with (Rpower x 1);
    [| rewrite Stdlib.Reals.Rpower.Rpower_1 by lra; lra].
  apply Rpower_lt; [exact Hx |].
  apply (Rmult_lt_reg_r (INR n)); [lra |].
  replace (1 / INR n * INR n) with 1 by (field; lra); lra.
Qed.

(** A split-and-merge adaptation built on a positive reference spacing has
    its finest spacing between the halved spacing [reference / 2^L] of the
    local-refinement rule and the reference spacing, strictly above the
    halved spacing once [L >= 1].  Its finest spacing bound is still the one
    of the local-refinement constructor, the halved spacing plus the
    tolerance. *)
Theorem split_merge_finest_spacing
    (Eps : R) (dim : Dim) (KernelWendlandC2 Winfunc : R -> Kernel)
    (body : SPHBody) (h sys : R) (L : nat) :
  let s := ParticleSplitAndMerge_new Eps dim KernelWendlandC2 Winfunc
             body h sys (Z.of_nat L) in
  0 < spacing_ref_ s ->
  spacing_ref_ s / 2 ^ L <= spacing_min_ s <= spacing_ref_ s
  /\ ((1 <= L)%nat -> spacing_ref_ s / 2 ^ L < spacing_min_ s)
  /\ finest_spacing_bound_ s = spacing_ref_ s / 2 ^ L + Eps.
Proof.
  intros s Hs.
  destruct (split_merge_consistent_new Eps dim KernelWendlandC2 Winfunc
              body h sys (Z.of_nat L)) as (_ & Hmin & _).
  fold s in Hmin; rewrite Nat2Z.id in Hmin.
  set (q := Rpower (2 ^ L) (1 / INR (spatial_dimension dim))) in *.
  assert (H2 : 1 <= 2 ^ L) by (apply pow_R1_Rle; lra).
  destruct (root_between (2 ^ L) (spatial_dimension dim) H2
              (spatial_dimension_pos dim)) as [Hq1 Hq2]; fold q in Hq1, Hq2.
  assert (Hinv2 : 0 < / 2 ^ L) by (apply Rinv_0_lt_compat; lra).
  assert (Hinvq : / 2 ^ L <= / q <= 1).
  { split; [apply Rinv_le_contravar; lra |].
    rewrite <- Rinv_1; apply Rinv_le_contravar; lra. }
  split; [| split].
  - rewrite Hmin; unfold Rdiv; nra.
  - intros HL.
    assert (H2' : 1 < 2 ^ L).
    { replace L with (S (L - 1)) by lia; simpl.
      pose proof (pow_R1_Rle 2 (L - 1)); lra. }
    assert (Hq3 : q < 2 ^ L).
    { apply root_below; [exact H2' |].
      unfold spatial_dimension; destruct dim; lia. }
    assert (Hinv3 : / 2 ^ L < / q) by (apply Rinv_lt_contravar; nra).
    rewrite Hmin; unfold Rdiv; nra.
  - simpl; unfold SPHAdaptation_MostRefinedSpacing.
    rewrite powerN_pow, Nat2Z.id; reflexivity.
Qed.

(** ** The further statements at concrete objects *)

(** A second kernel family for the bodies named [PDBody...]: a hat profile on
    a support of one smoothing length. *)
Definition hat_kernel (h : R) : Kernel :=
  {| KernelSize := 1;
     CutOffRadius := h;
     W_1D := fun q => 1 - q;
     W := fun r_ij _ => (1 - r_ij / h) / (h * h) |}.

Definition pd_body : SPHBody :=
  {| resolution_ref_ := 0.1; getName := "PDBody1" |}.

Lemma wendland_weight_nonneg (h : R) : 0 < h -> weight_nonneg (wendland_kernel h).
Proof.
  intros Hh; unfold weight_nonneg; simpl.
  assert (Hhh : 0 < / (h * h)) by (apply Rinv_0_lt_compat; nra).
  split.
  - intros r _ [Hr0 Hr2].
    assert (Hq : 0 <= r / h < 2).
    { assert (0 < / h) by (apply Rinv_0_lt_compat; exact Hh).
      split; [unfold Rdiv; nra |].
      apply (Rmult_lt_reg_r h); [exact Hh |].
      replace (r / h * h) with r by (field; lra); lra. }
    apply Rmult_le_pos; [| lra].
    unfold wendland_profile; apply Rmult_le_pos; [apply pow_le |]; lra.
  - intros _.
    replace (0 / h) with 0 by (field; lra).
    apply Rmult_lt_0_compat; [unfold wendland_profile; lra | exact Hhh].
Defined.

Lemma reset_last_call_wins_witness :
  let a := SPHAdaptation_of_resolution Dim2 wendland_kernel 0.1 1.3 1 in
  let reset := SPHAdaptation_resetAdaptationRatios Dim2 wendland_kernel
                 SPHAdaptation_MostRefinedSpacing in
  reset (reset a 1.3 2) 1.5 4 = reset a 1.5 4.
Proof.
  intros a reset.
  apply (reset_last_call_wins Dim2 wendland_kernel); lra.
Defined.

Lemma split_merge_resolution_kept_witness :
  let s := after_resets reset_split_merge
             (new_split_merge water_body 1.3 1 2) [(1.3, 2); (1.5, 4)] in
  spacing_ref_ s * system_refinement_ratio_ s = resolution_ref_ water_body
  /\ h_ref_ s = h_spacing_ratio_ s * spacing_ref_ s
  /\ local_refinement_level_ s = 2%Z
  /\ body_name_ s = getName water_body.
Proof.
  intros s.
  apply (split_merge_resolution_kept Eps_double Dim2 wendland_kernel wendland_kernel).
  - lra.
  - repeat constructor; simpl; lra.
Defined.

Lemma kernel_of_body_witness :
  let s0 := ParticleSplitAndMerge_new Eps_double Dim2 wendland_kernel hat_kernel
              pd_body 1.3 1 2 in
  let s := after_resets
             (ParticleSplitAndMerge_resetAdaptationRatios Dim2 wendland_kernel)
             s0 [(1.3, 2)] in
  kernel_ptr_ s0 = hat_kernel (h_ref_ s0)
  /\ kernel_ptr_ s = wendland_kernel (h_ref_ s).
Proof.
  intros s0 s.
  destruct (kernel_of_body Eps_double Dim2 wendland_kernel hat_kernel
              pd_body 1.3 1 2 [(1.3, 2)]) as (Hnew & _ & Hreset).
  split; [exact Hnew |].
  apply Hreset; discriminate.
Defined.

Lemma computeReferenceNumberDensity_window_witness :
  let k := wendland_kernel 0.13 in
  lattice_sum_2d k 0.1 5 = computeReferenceNumberDensity Dim2 k 0.1
  /\ lattice_sum_3d k 0.1 5 = computeReferenceNumberDensity Dim3 k 0.1.
Proof.
  intros k.
  apply computeReferenceNumberDensity_window; [lra |].
  assert (E : int_of_Real (CutOffRadius k / 0.1) = 2%Z).
  { unfold int_of_Real; simpl CutOffRadius.
    assert (Hnn : Rltb (2 * 0.13 / 0.1) 0 = false) by (apply Rltb_false; lra).
    rewrite Hnn; symmetry; apply Int_part_spec; lra. }
  rewrite E; discriminate.
Defined.

Lemma ReferenceNumberDensity_positive_witness :
  let a := SPHAdaptation_of_resolution Dim2 wendland_kernel 0.1 1.3 1 in
  0 < sigma0_ref_ a /\ 0 < ReferenceNumberDensity Dim2 a 2.
Proof.
  intros a.
  apply (ReferenceNumberDensity_positive Dim2 wendland_kernel 0.1 1.3 1 2).
  - lra.
  - lra.
  - apply wendland_weight_nonneg; lra.
  - simpl; lra.
  - lra.
Defined.

Lemma split_merge_finest_spacing_witness :
  let s := new_split_merge water_body 1.3 1 2 in
  spacing_ref_ s / 2 ^ 2 <= spacing_min_ s <= spacing_ref_ s
  /\ spacing_ref_ s / 2 ^ 2 < spacing_min_ s
  /\ finest_spacing_bound_ s = spacing_ref_ s / 2 ^ 2 + Eps_double.
Proof.
  intros s.
  assert (Hs : 0 < spacing_ref_ s).
  { destruct water_split_merge_level2 as (H & _); fold s in H; rewrite H; lra. }
  destruct (split_merge_finest_spacing Eps_double Dim2 wendland_kernel
              wendland_kernel water_body 1.3 1 2 Hs) as (Hbetween & Hstrict & Hbound).
  split; [exact Hbetween |]; split; [apply Hstrict; lia | exact Hbound].
Defined.

(** * Derived solid variables (solid_particles_supplementary.cpp)

    The three-dimensional build: [Matd] is a 3 by 3 matrix of reals, with the
    matrix operations of the linear-algebra library read mathematically. *)

Record Mat3d : Type := mkMat3d {
  m00 : R; m01 : R; m02 : R;
  m10 : R; m11 : R; m12 : R;
  m20 : R; m21 : R; m22 : R
}.

Definition mat_Identity : Mat3d := mkMat3d 1 0 0 0 1 0 0 0 1.

Definition mat_transpose (a : Mat3d) : Mat3d :=
  mkMat3d (m00 a) (m10 a) (m20 a)
          (m01 a) (m11 a) (m21 a)
          (m02 a) (m12 a) (m22 a).

Definition mat_mul (a b : Mat3d) : Mat3d :=
  mkMat3d
    (m00 a * m00 b + m01 a * m10 b + m02 a * m20 b)
    (m00 a * m01 b + m01 a * m11 b + m02 a * m21 b)
    (m00 a * m02 b + m01 a * m12 b + m02 a * m22 b)
    (m10 a * m00 b + m11 a * m10 b + m12 a * m20 b)
    (m10 a * m01 b + m11 a * m11 b + m12 a * m21 b)
    (m10 a * m02 b + m11 a * m12 b + m12 a * m22 b)
    (m20 a * m00 b + m21 a * m10 b + m22 a * m20 b)
    (m20 a * m01 b + m21 a * m11 b + m22 a * m21 b)
    (m20 a * m02 b + m21 a * m12 b + m22 a * m22 b).

Definition mat_sub (a b : Mat3d) : Mat3d :=
  mkMat3d (m00 a - m00 b) (m01 a - m01 b) (m02 a - m02 b)
          (m10 a - m10 b) (m11 a - m11 b) (m12 a - m12 b)
          (m20 a - m20 b) (m21 a - m21 b) (m22 a - m22 b).

Definition mat_add (a b : Mat3d) : Mat3d :=
  mkMat3d (m00 a + m00 b) (m01 a + m01 b) (m02 a + m02 b)
          (m10 a + m10 b) (m11 a + m11 b) (m12 a + m12 b)
          (m20 a + m20 b) (m21 a + m21 b) (m22 a + m22 b).

Definition mat_scale (c : R) (a : Mat3d) : Mat3d :=
  mkMat3d (c * m00 a) (c * m01 a) (c * m02 a)
          (c * m10 a) (c * m11 a) (c * m12 a)
          (c * m20 a) (c * m21 a) (c * m22 a).

Definition mat_trace (a : Mat3d) : R := m00 a + m11 a + m22 a.

(** [norm()] of a matrix: the Frobenius norm. *)
Definition mat_norm (a : Mat3d) : R :=
  sqrt (m00 a * m00 a + m01 a * m01 a + m02 a * m02 a
        + m10 a * m10 a + m11 a * m11 a + m12 a * m12 a
        + m20 a * m20 a + m21 a * m21 a + m22 a * m22 a).

Definition mat_symmetric (a : Mat3d) : Prop :=
  m01 a = m10 a /\ m02 a = m20 a /\ m12 a = m21 a.

(** Reading entry [i] of a particle array; [None] stands for an index past
    the end, where the unchecked access of the source has no meaning. *)
Definition read {A : Type} (v : list A) (i : nat) : option A := nth_error v i.

(** Writing entry [i] of a particle array. *)
Fixpoint write {A : Type} (v : list A) (i : nat) (x : A) : option (list A) :=
  match v, i with
  | [], _ => None
  | _ :: rest, O => Some (x :: rest)
  | y :: rest, S i' =>
      match write rest i' x with
      | Some rest' => Some (y :: rest')
      | None => None
      end
  end.

(** [std::pow(x, 2.0)]. *)
Definition pow2 (x : R) : R := x ^ 2.

(** The von Mises measure of a strain tensor, from its upper triangle. *)
Definition von_mises_strain_of (epsilon : Mat3d) : R :=
  let epsilonxx := m00 epsilon in
  let epsilonyy := m11 epsilon in
  let epsilonzz := m22 epsilon in
  let epsilonxy := m01 epsilon in
  let epsilonxz := m02 epsilon in
  let epsilonyz := m12 epsilon in
  sqrt (1 / 3 * (pow2 (epsilonxx - epsilonyy) + pow2 (epsilonyy - epsilonzz)
                 + pow2 (epsilonzz - epsilonxx))
        + 2 * (pow2 epsilonxy + pow2 epsilonyz + pow2 epsilonxz)).

(** [ElasticSolidParticles::getVonMisesStrain]. *)
Definition getVonMisesStrain (F_ : list Mat3d) (particle_i : nat) : option R :=
  match read F_ particle_i with
  | Some F =>
      let epsilon :=
        mat_scale 0.5 (mat_sub (mat_mul (mat_transpose F) F) mat_Identity) in
      Some (von_mises_strain_of epsilon)
  | None => None
  end.

Definition sqrt_3_over_2_ : R := sqrt (3 / 2).

Section DeviatorMeasure.

(** The constant [OneOverDimensions] is defined with the base data types,
    outside these sources; it is a parameter here, and the properties below
    are those of a build in which it is one third. *)
Variable OneOverDimensions : R.
Hypothesis three_dimensional_build : OneOverDimensions = 1 / 3.

(** [VonMisesStressforPD::update], and [VonMisesPlasticStrainforPD::update]
    which has the same body on the plastic strain: the norm of the deviator,
    scaled, stored at [index_i]. *)
Definition deviator_measure (eta : Mat3d) : R :=
  let norm1 := mat_trace eta * OneOverDimensions in
  let dev_eta := mat_sub eta (mat_scale norm1 mat_Identity) in
  let dev_eta_norm := mat_norm dev_eta in
  sqrt_3_over_2_ * dev_eta_norm.

Definition VonMisesStressforPD_update
    (stress_ : list Mat3d) (derived_variable_ : list R) (index_i : nat)
    : option (list R) :=
  match read stress_ index_i with
  | Some eta => write derived_variable_ index_i (deviator_measure eta)
  | None => None
  end.

Definition VonMisesPlasticStrainforPD_update
    (plastic_strain_ : list Mat3d) (derived_variable_ : list R) (index_i : nat)
    : option (list R) :=
  match read plastic_strain_ index_i with
  | Some eta => write derived_variable_ index_i (deviator_measure eta)
  | None => None
  end.

(** ** Matrix algebra *)

Lemma mat_eq (a b : Mat3d) :
  m00 a = m00 b -> m01 a = m01 b -> m02 a = m02 b ->
  m10 a = m10 b -> m11 a = m11 b -> m12 a = m12 b ->
  m20 a = m20 b -> m21 a = m21 b -> m22 a = m22 b -> a = b.
Proof. destruct a, b; simpl; intros; subst; reflexivity. Qed.

Lemma mat_mul_assoc (a b c : Mat3d) :
  mat_mul (mat_mul a b) c = mat_mul a (mat_mul b c).
Proof. apply mat_eq; simpl; ring. Qed.

Lemma mat_transpose_mul (a b : Mat3d) :
  mat_transpose (mat_mul a b) = mat_mul (mat_transpose b) (mat_transpose a).
Proof. apply mat_eq; simpl; ring. Qed.

Lemma mat_mul_Identity_l (a : Mat3d) : mat_mul mat_Identity a = a.
Proof. apply mat_eq; simpl; ring. Qed.

(** A rotation in front of the deformation does not change [F^T F]. *)
Lemma right_Cauchy_Green_rotation (rot F : Mat3d) :
  mat_mul (mat_transpose rot) rot = mat_Identity ->
  mat_mul (mat_transpose (mat_mul rot F)) (mat_mul rot F)
  = mat_mul (mat_transpose F) F.
Proof.
  intros Hrot.
  rewrite mat_transpose_mul, mat_mul_assoc.
  rewrite <- (mat_mul_assoc (mat_transpose rot) rot F), Hrot, mat_mul_Identity_l.
  reflexivity.
Qed.

Lemma von_mises_strain_isotropic (epsilon : Mat3d) :
  m00 epsilon = m11 epsilon -> m11 epsilon = m22 epsilon ->
  m01 epsilon = 0 -> m02 epsilon = 0 -> m12 epsilon = 0 ->
  von_mises_strain_of epsilon = 0.
Proof.
  intros H1 H2 H3 H4 H5; unfold von_mises_strain_of, pow2.
  rewrite H3, H4, H5, H1, H2.
  replace (1 / 3 * ((m22 epsilon - m22 epsilon) ^ 2 + (m22 epsilon - m22 epsilon) ^ 2
                    + (m22 epsilon - m22 epsilon) ^ 2)
           + 2 * (0 ^ 2 + 0 ^ 2 + 0 ^ 2)) with 0 by (simpl; lra).
  apply sqrt_0.
Qed.

(** The von Mises strain is objective: putting a rotation in front of the
    deformation of a particle leaves it unchanged.  In particular a particle
    that is rotated, or rotated and uniformly dilated, has von Mises
    strain 0. *)
Theorem getVonMisesStrain_objective
    (F_ F_rotated : list Mat3d) (particle_i : nat) (rot F : Mat3d) :
  mat_mul (mat_transpose rot) rot = mat_Identity ->
  read F_ particle_i = Some F ->
  read F_rotated particle_i = Some (mat_mul rot F) ->
  getVonMisesStrain F_rotated particle_i = getVonMisesStrain F_ particle_i
  /\ (forall dilation : R,
        F = mat_scale dilation mat_Identity ->
        getVonMisesStrain F_rotated particle_i = Some 0).
Proof.
  intros Hrot HF HRF; unfold getVonMisesStrain.
  rewrite HF, HRF, right_Cauchy_Green_rotation by exact Hrot.
  split; [reflexivity |].
  intros dilation ->; f_equal.
  apply von_mises_strain_isotropic; simpl; ring.
Qed.

(** ** The deviator measure *)

Lemma mat_norm_scale (c : R) (a : Mat3d) :
  mat_norm (mat_scale c a) = Rabs c * mat_norm a.
Proof.
  unfold mat_norm; simpl.
  rewrite <- sqrt_Rsqr_abs, <- sqrt_mult_alt by apply Rle_0_sqr.
  f_equal; unfold Rsqr; ring.
Qed.

Lemma deviator_shift (eta : Mat3d) (p : R) :
  mat_sub (mat_add eta (mat_scale p mat_Identity))
    (mat_scale (mat_trace (mat_add eta (mat_scale p mat_Identity))
                * OneOverDimensions) mat_Identity)
  = mat_sub eta (mat_scale (mat_trace eta * OneOverDimensions) mat_Identity).
Proof. apply mat_eq; unfold mat_trace; rewrite three_dimensional_build; simpl; field. Qed.

Lemma deviator_scale (eta : Mat3d) (c : R) :
  mat_sub (mat_scale c eta)
    (mat_scale (mat_trace (mat_scale c eta) * OneOverDimensions) mat_Identity)
  = mat_scale c
      (mat_sub eta (mat_scale (mat_trace eta * OneOverDimensions) mat_Identity)).
Proof. apply mat_eq; unfold mat_trace; rewrite three_dimensional_build; simpl; field. Qed.

Lemma deviator_measure_shift (eta : Mat3d) (p : R) :
  deviator_measure (mat_add eta (mat_scale p mat_Identity)) = deviator_measure eta.
Proof. unfold deviator_measure; rewrite deviator_shift; reflexivity. Qed.

Lemma deviator_measure_scale (eta : Mat3d) (c : R) :
  deviator_measure (mat_scale c eta) = Rabs c * deviator_measure eta.
Proof.
  unfold deviator_measure; rewrite deviator_scale, mat_norm_scale; ring.
Qed.

Lemma deviator_measure_hydrostatic (p : R) :
  deviator_measure (mat_scale p mat_Identity) = 0.
Proof.
  unfold deviator_measure, mat_norm, mat_trace.
  rewrite three_dimensional_build; simpl.
  replace (sqrt _) with 0; [ring |].
  symmetry; rewrite <- sqrt_0; f_equal; field.
Qed.

(** The von Mises stress of the peridynamic particles sees only the deviator:
    adding a pressure [p * Identity] to the stress of a particle does not
    change the value written, a purely hydrostatic stress writes 0, and
    scaling the stress by [c] scales the value by [|c|].  The plastic-strain
    variant writes the same value from the same tensor. *)
Theorem VonMisesStressforPD_deviatoric
    (stress_ shifted scaled : list Mat3d) (derived_variable_ : list R)
    (index_i : nat) (eta : Mat3d) (p c : R) :
  read stress_ index_i = Some eta ->
  read shifted index_i = Some (mat_add eta (mat_scale p mat_Identity)) ->
  read scaled index_i = Some (mat_scale c eta) ->
  VonMisesStressforPD_update shifted derived_variable_ index_i
  = VonMisesStressforPD_update stress_ derived_variable_ index_i
  /\ (eta = mat_scale p mat_Identity ->
      VonMisesStressforPD_update stress_ derived_variable_ index_i
      = write derived_variable_ index_i 0)
  /\ VonMisesStressforPD_update scaled derived_variable_ index_i
     = write derived_variable_ index_i (Rabs c * deviator_measure eta)
  /\ VonMisesPlasticStrainforPD_update stress_ derived_variable_ index_i
     = VonMisesStressforPD_update stress_ derived_variable_ index_i.
Proof.
  intros Heta Hshift Hscale.
  unfold VonMisesStressforPD_update, VonMisesPlasticStrainforPD_update.
  rewrite Heta, Hshift, Hscale, deviator_measure_shift, deviator_measure_scale.
  split; [reflexivity |]; split; [| split; reflexivity].
  intros ->; rewrite deviator_measure_hydrostatic; reflexivity.
Qed.

End DeviatorMeasure.

Definition quarter_turn : Mat3d := mkMat3d 0 (-1) 0 1 0 0 0 0 1.
Definition stretch_x : Mat3d := mkMat3d 2 0 0 0 1 0 0 0 1.
Definition principal_stress : Mat3d := mkMat3d 1 0 0 0 2 0 0 0 3.

Lemma getVonMisesStrain_objective_witness :
  getVonMisesStrain [mat_mul quarter_turn stretch_x] 0
  = getVonMisesStrain [stretch_x] 0.
Proof.
  apply (getVonMisesStrain_objective [stretch_x] [mat_mul quarter_turn stretch_x]
           0 quarter_turn stretch_x).
  - apply mat_eq; simpl; ring.
  - reflexivity.
  - reflexivity.
Defined.

Lemma VonMisesStressforPD_deviatoric_witness :
  VonMisesStressforPD_update (1 / 3)
    [mat_add principal_stress (mat_scale 5 mat_Identity)] [0] 0
  = VonMisesStressforPD_update (1 / 3) [principal_stress] [0] 0
  /\ VonMisesStressforPD_update (1 / 3) [mat_scale (-2) principal_stress] [0] 0
     = write [0] 0 (Rabs (-2) * deviator_measure (1 / 3) principal_stress).
Proof.
  destruct (VonMisesStressforPD_deviatoric (1 / 3) eq_refl
              [principal_stress]
              [mat_add principal_stress (mat_scale 5 mat_Identity)]
              [mat_scale (-2) principal_stress]
              [0] 0 principal_stress 5 (-2) eq_refl eq_refl eq_refl)
    as (Hshift & _ & Hscale & _).
  split; [exact Hshift | exact Hscale].
Defined.

(** * Interpolation from contact bodies (general_interpolation.h)

    [BaseInterpolation<Real>::interaction]: the kernel-weighted average of a
    scalar quantity over the neighbours of a particle in all contact bodies. *)

(** A neighbour list: the first [current_size_] entries of its arrays are in
    use. *)
Record Neighborhood : Type := mkNeighborhood {
  current_size_ : nat;
  j_ : list nat;
  W_ij_ : list R;
  dW_ijV_j_ : list R;
  r_ij_ : list R;
  e_ij_ : list Vecd
}.

(** A loop whose body may read past the end of an array. *)
Fixpoint fold_option {A B : Type} (f : A -> B -> option A) (l : list B) (a : A)
    : option A :=
  match l with
  | [] => Some a
  | x :: l' =>
      match f a x with
      | Some a' => fold_option f l' a'
      | None => None
      end
  end.

(** One neighbour [n]: the accumulators are the weighted sum and the total
    weight. *)
Definition interpolation_neighbor (Vol_k data_k : list R) (nb : Neighborhood)
    (acc : R * R) (n : nat) : option (R * R) :=
  match read (j_ nb) n, read (W_ij_ nb) n with
  | Some index_j, Some W_ij =>
      match read Vol_k index_j, read data_k index_j with
      | Some Vol_j, Some data_j =>
          let weight_j := W_ij * Vol_j in
          Some (fst acc + weight_j * data_j, snd acc + weight_j)
      | _, _ => None
      end
  | _, _ => None
  end.

(** One contact body [k]. *)
Definition interpolation_contact
    (contact_configuration_ : list (list Neighborhood))
    (contact_Vol_ contact_data_ : list (list R)) (index_i : nat)
    (acc : R * R) (k : nat) : option (R * R) :=
  match read contact_Vol_ k, read contact_data_ k, read contact_configuration_ k with
  | Some Vol_k, Some data_k, Some configuration_k =>
      match read configuration_k index_i with
      | Some contact_neighborhood =>
          fold_option (interpolation_neighbor Vol_k data_k contact_neighborhood)
            (seq 0 (current_size_ contact_neighborhood)) acc
      | None => None
      end
  | _, _, _ => None
  end.

Definition BaseInterpolation_interaction (TinyReal : R)
    (contact_configuration_ : list (list Neighborhood))
    (contact_Vol_ contact_data_ : list (list R))
    (interpolated_quantities_ : list R) (index_i : nat) : option (list R) :=
  match fold_option
          (interpolation_contact contact_configuration_ contact_Vol_ contact_data_
             index_i)
          (seq 0 (List.length contact_configuration_)) (0, 0) with
  | Some (observed_quantity, ttl_weight) =>
      write interpolated_quantities_ index_i
        (observed_quantity / (ttl_weight + TinyReal))
  | None => None
  end.

(** ** Arrays *)

Lemma read_write_same {A : Type} (v v' : list A) (i : nat) (x : A) :
  write v i x = Some v' -> read v' i = Some x.
Proof.
  revert i v'; induction v as [|y v IH]; intros i v' H; simpl in H.
  - discriminate.
  - destruct i as [|i].
    + injection H as <-; reflexivity.
    + destruct (write v i x) as [rest|] eqn:E; [| discriminate].
      injection H as <-; simpl; apply (IH i rest E).
Qed.

Lemma read_write_other {A : Type} (v v' : list A) (i j : nat) (x : A) :
  write v i x = Some v' -> j <> i -> read v' j = read v j.
Proof.
  revert i j v'; induction v as [|y v IH]; intros i j v' H Hne; simpl in H.
  - discriminate.
  - destruct i as [|i].
    + injection H as <-; destruct j; [congruence | reflexivity].
    + destruct (write v i x) as [rest|] eqn:E; [| discriminate].
      injection H as <-; destruct j as [|j]; [reflexivity |].
      simpl; apply (IH i j rest E); congruence.
Qed.

Lemma length_write {A : Type} (v v' : list A) (i : nat) (x : A) :
  write v i x = Some v' -> List.length v' = List.length v.
Proof.
  revert i v'; induction v as [|y v IH]; intros i v' H; simpl in H.
  - discriminate.
  - destruct i as [|i].
    + injection H as <-; reflexivity.
    + destruct (write v i x) as [rest|] eqn:E; [| discriminate].
      injection H as <-; simpl; f_equal; apply (IH i rest E).
Qed.

Lemma read_Forall {A : Type} (P : A -> Prop) (v : list A) (i : nat) (x : A) :
  Forall P v -> read v i = Some x -> P x.
Proof.
  intros HP Hr; apply (proj1 (Forall_forall P v) HP).
  apply (nth_error_In v i); exact Hr.
Qed.

Lemma fold_option_invariant {A B : Type} (P : A -> Prop)
    (f : A -> B -> option A) (l : list B) :
  (forall (a a' : A) (x : B), P a -> f a x = Some a' -> P a') ->
  forall a a' : A, P a -> fold_option f l a = Some a' -> P a'.
Proof.
  intros Hstep; induction l as [|x l IH]; intros a a' Ha H; simpl in H.
  - injection H as <-; exact Ha.
  - destruct (f a x) as [a1|] eqn:E; [| discriminate].
    apply (IH a1 a' (Hstep a a1 x Ha E) H).
Qed.

(** ** Properties of the weighted average *)

(** The accumulators stay a weighted sum of values between [lo] and [hi]. *)
Definition average_between (lo hi : R) (acc : R * R) : Prop :=
  0 <= snd acc /\ lo * snd acc <= fst acc <= hi * snd acc.

Lemma interpolation_neighbor_between
    (lo hi : R) (Vol_k data_k : list R) (nb : Neighborhood)
    (acc acc' : R * R) (n : nat) :
  Forall (fun Vol_j => 0 <= Vol_j) Vol_k ->
  Forall (fun data_j => lo <= data_j <= hi) data_k ->
  Forall (fun W_ij => 0 <= W_ij) (W_ij_ nb) ->
  average_between lo hi acc ->
  interpolation_neighbor Vol_k data_k nb acc n = Some acc' ->
  average_between lo hi acc'.
Proof.
  intros HV Hd HW (Ht & Hlo & Hhi) H; unfold interpolation_neighbor in H.
  destruct (read (j_ nb) n) as [index_j|]; [| discriminate].
  destruct (read (W_ij_ nb) n) as [W_ij|] eqn:EW; [| discriminate].
  destruct (read Vol_k index_j) as [Vol_j|] eqn:EV; [| discriminate].
  destruct (read data_k index_j) as [data_j|] eqn:Ed; [| discriminate].
  injection H as <-.
  pose proof (read_Forall _ _ _ _ HW EW) as HW'; simpl in HW'.
  pose proof (read_Forall _ _ _ _ HV EV) as HV'; simpl in HV'.
  pose proof (read_Forall _ _ _ _ Hd Ed) as Hd'; simpl in Hd'.
  assert (Hw : 0 <= W_ij * Vol_j) by (apply Rmult_le_pos; assumption).
  unfold average_between; simpl; repeat split; nra.
Qed.

Lemma interpolation_contact_between
    (lo hi : R) (contact_configuration_ : list (list Neighborhood))
    (contact_Vol_ contact_data_ : list (list R)) (index_i : nat)
    (acc acc' : R * R) (k : nat) :
  Forall (Forall (fun Vol_j => 0 <= Vol_j)) contact_Vol_ ->
  Forall (Forall (fun data_j => lo <= data_j <= hi)) contact_data_ ->
  Forall (Forall (fun nb => Forall (fun W_ij => 0 <= W_ij) (W_ij_ nb)))
    contact_configuration_ ->
  average_between lo hi acc ->
  interpolation_contact contact_configuration_ contact_Vol_ contact_data_
    index_i acc k = Some acc' ->
  average_between lo hi acc'.
Proof.
  intros HV Hd HW Hacc H; unfold interpolation_contact in H.
  destruct (read contact_Vol_ k) as [Vol_k|] eqn:EV; [| discriminate].
  destruct (read contact_data_ k) as [data_k|] eqn:Ed; [| discriminate].
  destruct (read contact_configuration_ k) as [configuration_k|] eqn:Ec;
    [| discriminate].
  destruct (read configuration_k index_i) as [nb|] eqn:En; [| discriminate].
  pose proof (read_Forall _ _ _ _ HV EV) as HV'.
  pose proof (read_Forall _ _ _ _ Hd Ed) as Hd'.
  pose proof (read_Forall _ _ _ _ (read_Forall _ _ _ _ HW Ec) En) as HW'.
  simpl in HV', Hd', HW'.
  apply (fold_option_invariant (average_between lo hi)
           (interpolation_neighbor Vol_k data_k nb)
           (seq 0 (current_size_ nb))) with (a := acc); [| exact Hacc | exact H].
  intros a a' n Ha Hstep.
  apply (interpolation_neighbor_between lo hi Vol_k data_k nb a a' n); assumption.
Qed.

(** With non-negative kernel weights and volumes and a positive [TinyReal],
    the interpolated value lies between any bounds [lo <= 0 <= hi] of the
    contact data; the call writes entry [index_i] only. *)
Theorem BaseInterpolation_interaction_bounds
    (TinyReal lo hi : R)
    (contact_configuration_ : list (list Neighborhood))
    (contact_Vol_ contact_data_ : list (list R))
    (interpolated_quantities_ updated : list R) (index_i : nat) :
  0 < TinyReal -> lo <= 0 <= hi ->
  Forall (Forall (fun Vol_j => 0 <= Vol_j)) contact_Vol_ ->
  Forall (Forall (fun data_j => lo <= data_j <= hi)) contact_data_ ->
  Forall (Forall (fun nb => Forall (fun W_ij => 0 <= W_ij) (W_ij_ nb)))
    contact_configuration_ ->
  BaseInterpolation_interaction TinyReal contact_configuration_ contact_Vol_
    contact_data_ interpolated_quantities_ index_i = Some updated ->
  (exists value : R, read updated index_i = Some value /\ lo <= value <= hi)
  /\ List.length updated = List.length interpolated_quantities_
  /\ (forall j : nat, j <> index_i ->
        read updated j = read interpolated_quantities_ j).
Proof.
  intros HT Hlohi HV Hd HW H; unfold BaseInterpolation_interaction in H.
  destruct (fold_option _ _ (0, 0)) as [[observed ttl]|] eqn:E; [| discriminate].
  assert (Hacc : average_between lo hi (observed, ttl)).
  { apply (fold_option_invariant (average_between lo hi) _ _) with (a := (0, 0))
      (3 := E).
    - intros a a' k Ha Hstep.
      apply (interpolation_contact_between lo hi contact_configuration_
               contact_Vol_ contact_data_ index_i a a' k); assumption.
    - unfold average_between; simpl; lra. }
  destruct Hacc as (Ht & Hlo & Hhi); simpl in Ht, Hlo, Hhi.
  split; [| split].
  - exists (observed / (ttl + TinyReal)).
    split; [apply (read_write_same _ _ _ _ H) |].
    assert (Hden : 0 < ttl + TinyReal) by lra.
    split.
    + apply (Rmult_le_reg_r (ttl + TinyReal)); [exact Hden |].
      replace (observed / (ttl + TinyReal) * (ttl + TinyReal)) with observed
        by (field; lra).
      nra.
    + apply (Rmult_le_reg_r (ttl + TinyReal)); [exact Hden |].
      replace (observed / (ttl + TinyReal) * (ttl + TinyReal)) with observed
        by (field; lra).
      nra.
  - apply (length_write _ _ _ _ H).
  - intros j Hj; apply (read_write_other _ _ _ _ _ H Hj).
Qed.

(** A particle without neighbours in any contact body gets the value 0: the
    [TinyReal] in the denominator keeps the quotient defined. *)
Theorem BaseInterpolation_interaction_no_neighbours
    (TinyReal : R)
    (contact_configuration_ : list (list Neighborhood))
    (contact_Vol_ contact_data_ : list (list R))
    (interpolated_quantities_ updated : list R) (index_i : nat) :
  0 < TinyReal ->
  (forall (k : nat) (configuration_k : list Neighborhood) (nb : Neighborhood),
     read contact_configuration_ k = Some configuration_k ->
     read configuration_k index_i = Some nb -> current_size_ nb = 0%nat) ->
  BaseInterpolation_interaction TinyReal contact_configuration_ contact_Vol_
    contact_data_ interpolated_quantities_ index_i = Some updated ->
  read updated index_i = Some 0.
Proof.
  intros HT Hempty H; unfold BaseInterpolation_interaction in H.
  destruct (fold_option _ _ (0, 0)) as [[observed ttl]|] eqn:E; [| discriminate].
  assert (Hacc : (observed, ttl) = (0, 0)).
  { apply (fold_option_invariant (fun acc => acc = (0, 0)) _ _) with (a := (0, 0))
      (3 := E); [| reflexivity].
    intros a a' k -> Hstep; unfold interpolation_contact in Hstep.
    destruct (read contact_Vol_ k); [| discriminate].
    destruct (read contact_data_ k); [| discriminate].
    destruct (read contact_configuration_ k) as [configuration_k|] eqn:Ec;
      [| discriminate].
    destruct (read configuration_k index_i) as [nb|] eqn:En; [| discriminate].
    rewrite (Hempty k configuration_k nb Ec En) in Hstep; simpl in Hstep.
    congruence. }
  injection Hacc as -> ->.
  rewrite (read_write_same _ _ _ _ H); f_equal; field; lra.
Qed.

Definition two_neighbours : Neighborhood :=
  {| current_size_ := 2; j_ := [0; 1]%nat; W_ij_ := [3; 1];
     dW_ijV_j_ := [0; 0]; r_ij_ := [1; 1]; e_ij_ := [[1; 0]; [0; 1]] |}.

Definition no_neighbours : Neighborhood :=
  {| current_size_ := 0; j_ := []; W_ij_ := [];
     dW_ijV_j_ := []; r_ij_ := []; e_ij_ := [] |}.

Lemma BaseInterpolation_interaction_bounds_witness :
  exists updated : list R,
    BaseInterpolation_interaction (/ 10 ^ 20) [[two_neighbours]] [[1; 1]] [[2; 4]]
      [0] 0 = Some updated
    /\ exists value : R, read updated 0 = Some value /\ 0 <= value <= 4.
Proof.
  eexists; split; [reflexivity |].
  refine (proj1 (BaseInterpolation_interaction_bounds (/ 10 ^ 20) 0 4
                   [[two_neighbours]] [[1; 1]] [[2; 4]] [0] _ 0 _ _ _ _ _ eq_refl)).
  - lra.
  - lra.
  - repeat constructor; lra.
  - repeat constructor; lra.
  - repeat constructor; simpl; lra.
Defined.

Lemma BaseInterpolation_interaction_no_neighbours_witness :
  exists updated : list R,
    BaseInterpolation_interaction (/ 10 ^ 20) [[no_neighbours]] [[1; 1]] [[2; 4]]
      [7] 0 = Some updated
    /\ read updated 0 = Some 0.
Proof.
  eexists; split; [reflexivity |].
  refine (BaseInterpolation_interaction_no_neighbours (/ 10 ^ 20)
            [[no_neighbours]] [[1; 1]] [[2; 4]] [7] _ 0 _ _ eq_refl).
  - lra.
  - intros k configuration_k nb Hk Hn.
    destruct k as [|[|k]]; simpl in Hk; try discriminate.
    injection Hk as <-; simpl in Hn; injection Hn as <-; reflexivity.
Defined.

(** * Forces from the fluid (fluid_structure_interaction.h) *)

(** Vectors of the spatial dimension, as lists of their components. *)
Definition vec_add (u v : Vecd) : Vecd := map (fun p => fst p + snd p) (combine u v).
Definition vec_sub (u v : Vecd) : Vecd := map (fun p => fst p - snd p) (combine u v).
Definition vec_scale (c : R) (v : Vecd) : Vecd := map (fun x => c * x) v.
Definition vec_div (v : Vecd) (c : R) : Vecd := map (fun x => x / c) v.
Definition vec_dot (u v : Vecd) : R :=
  fold_left (fun acc p => acc + fst p * snd p) (combine u v) 0.

(** [SMAX]. *)
Definition SMAX (a b : R) : R := Rmax a b.

(** What one call of an [interaction] leaves behind. *)
Record ForceFromFluid : Type := mkForceFromFluid {
  force_from_fluid_ : list Vecd;
  acc_prior_ : list Vecd;
  pressure_from_fluid_ : list R
}.

(** What an [interaction] reads: the solid particles, the fluid particles of
    each contact body, the Riemann solver of each contact body (by its
    dissipative pressure jump), and the neighbour lists. *)
Record FSIData : Type := mkFSIData {
  Zero : Vecd;
  ParticleMass : nat -> R;
  Vol_ : list R;
  vel_ave_ : list Vecd;
  acc_ave_ : list Vecd;
  n_ : list Vecd;
  contact_rho_n_ : list (list R);
  contact_p_ : list (list R);
  contact_u_div_ : list (list R);
  contact_vel_n_ : list (list Vecd);
  contact_acc_prior_ : list (list Vecd);
  riemann_solvers_ : list (R -> R);
  contact_configuration_ : list (list Neighborhood)
}.

(** The accumulators of the peridynamic variant: force, acoustic damper,
    weighted pressure sum and weight sum. *)
Record PressureAccumulators : Type := mkPressureAccumulators {
  force : Vecd;
  acoustic_damper : Vecd;
  p_from_f : R;
  sum_w : R
}.

(** The pressure force of one neighbour, common to both variants. *)
Definition neighbor_force (DissipativePJump : R -> R)
    (n_i e_ij : Vecd) (u_jump p_in_wall p_j Vol_i dW_ijV_j : R) : Vecd :=
  vec_scale dW_ijV_j
    (vec_scale Vol_i
       (vec_sub (vec_scale (DissipativePJump u_jump) n_i)
          (vec_scale (p_in_wall + p_j) e_ij))).

Definition pressure_neighbor_PD (d : FSIData) (index_i : nat)
    (rho_n_k p_k u_div_k : list R) (vel_k acc_prior_k : list Vecd)
    (DissipativePJump : R -> R) (nb : Neighborhood)
    (acc : PressureAccumulators) (n : nat) : option PressureAccumulators :=
  match read (j_ nb) n, read (e_ij_ nb) n, read (r_ij_ nb) n,
        read (W_ij_ nb) n, read (dW_ijV_j_ nb) n with
  | Some index_j, Some e_ij, Some r_ij, Some W_ij, Some dW_ijV_j =>
      match read acc_prior_k index_j, read (acc_ave_ d) index_i,
            read p_k index_j, read rho_n_k index_j, read u_div_k index_j,
            read vel_k index_j, read (vel_ave_ d) index_i,
            read (n_ d) index_i, read (Vol_ d) index_i with
      | Some acc_prior_j, Some acc_ave_i, Some p_j, Some rho_j, Some u_div_j,
        Some vel_j, Some vel_ave_i, Some n_i, Some Vol_i =>
          let face_wall_external_acceleration :=
            vec_dot (vec_sub acc_prior_j acc_ave_i) e_ij in
          let p_in_wall :=
            p_j + rho_j * r_ij * SMAX 0 face_wall_external_acceleration in
          let u_jump := 2 * vec_dot (vec_sub vel_j vel_ave_i) n_i in
          Some {| force :=
                    vec_add (force acc)
                      (neighbor_force DissipativePJump n_i e_ij u_jump p_in_wall
                         p_j Vol_i dW_ijV_j);
                  acoustic_damper :=
                    vec_add (acoustic_damper acc)
                      (vec_scale (u_div_j * 2 * Vol_i * dW_ijV_j) e_ij);
                  p_from_f := p_from_f acc + p_j * W_ij;
                  sum_w := sum_w acc + W_ij |}
      | _, _, _, _, _, _, _, _, _ => None
      end
  | _, _, _, _, _ => None
  end.

Definition pressure_contact_PD (d : FSIData) (index_i : nat)
    (acc : PressureAccumulators) (k : nat) : option PressureAccumulators :=
  match read (contact_rho_n_ d) k, read (contact_p_ d) k,
        read (contact_u_div_ d) k, read (contact_vel_n_ d) k,
        read (contact_acc_prior_ d) k, read (riemann_solvers_ d) k,
        read (contact_configuration_ d) k with
  | Some rho_n_k, Some p_k, Some u_div_k, Some vel_k, Some acc_prior_k,
    Some riemann_solvers_k, Some configuration_k =>
      match read configuration_k index_i with
      | Some contact_neighborhood =>
          fold_option
            (pressure_neighbor_PD d index_i rho_n_k p_k u_div_k vel_k acc_prior_k
               riemann_solvers_k contact_neighborhood)
            (seq 0 (current_size_ contact_neighborhood)) acc
      | None => None
      end
  | _, _, _, _, _, _, _ => None
  end.

(** [BasePressureForceAccelerationFromFluidforPD::interaction]. *)
Definition PressureForceAccelerationFromFluidforPD_interaction
    (coeff_acoustic_damper_ : R) (d : FSIData) (s : ForceFromFluid)
    (index_i : nat) : option ForceFromFluid :=
  match fold_option (pressure_contact_PD d index_i)
          (seq 0 (List.length (contact_configuration_ d)))
          {| force := Zero d; acoustic_damper := Zero d;
             p_from_f := 0; sum_w := 0 |} with
  | Some acc =>
      let force_i :=
        vec_add (force acc) (vec_scale coeff_acoustic_damper_ (acoustic_damper acc)) in
      match write (force_from_fluid_ s) index_i force_i with
      | Some force_from_fluid =>
          match write (acc_prior_ s) index_i
                  (vec_div force_i (ParticleMass d index_i)) with
          | Some acc_prior =>
              let sum_w := if Req_dec_T (sum_w acc) 0 then 1 else sum_w acc in
              match write (pressure_from_fluid_ s) index_i (p_from_f acc / sum_w) with
              | Some pressure_from_fluid =>
                  Some {| force_from_fluid_ := force_from_fluid;
                          acc_prior_ := acc_prior;
                          pressure_from_fluid_ := pressure_from_fluid |}
              | None => None
              end
          | None => None
          end
      | None => None
      end
  | None => None
  end.

(** [setcoeffacousticdamper]. *)
Definition setcoeffacousticdamper (rho0 c0 h : R) : R := 0.3 * c0 * rho0 * h.

Definition pressure_neighbor (d : FSIData) (index_i : nat)
    (rho_n_k p_k : list R) (vel_k acc_prior_k : list Vecd)
    (DissipativePJump : R -> R) (nb : Neighborhood)
    (force : Vecd) (n : nat) : option Vecd :=
  match read (j_ nb) n, read (e_ij_ nb) n, read (r_ij_ nb) n,
        read (dW_ijV_j_ nb) n with
  | Some index_j, Some e_ij, Some r_ij, Some dW_ijV_j =>
      match read acc_prior_k index_j, read (acc_ave_ d) index_i,
            read p_k index_j, read rho_n_k index_j,
            read vel_k index_j, read (vel_ave_ d) index_i,
            read (n_ d) index_i, read (Vol_ d) index_i with
      | Some acc_prior_j, Some acc_ave_i, Some p_j, Some rho_j,
        Some vel_j, Some vel_ave_i, Some n_i, Some Vol_i =>
          let face_wall_external_acceleration :=
            vec_dot (vec_sub acc_prior_j acc_ave_i) e_ij in
          let p_in_wall :=
            p_j + rho_j * r_ij * SMAX 0 face_wall_external_acceleration in
          let u_jump := 2 * vec_dot (vec_sub vel_j vel_ave_i) n_i in
          Some (vec_add force
                  (neighbor_force DissipativePJump n_i e_ij u_jump p_in_wall
                     p_j Vol_i dW_ijV_j))
      | _, _, _, _, _, _, _, _ => None
      end
  | _, _, _, _ => None
  end.

Definition pressure_contact (d : FSIData) (index_i : nat)
    (force : Vecd) (k : nat) : option Vecd :=
  match read (contact_rho_n_ d) k, read (contact_p_ d) k,
        read (contact_vel_n_ d) k, read (contact_acc_prior_ d) k,
        read (riemann_solvers_ d) k, read (contact_configuration_ d) k with
  | Some rho_n_k, Some p_k, Some vel_k, Some acc_prior_k,
    Some riemann_solvers_k, Some configuration_k =>
      match read configuration_k index_i with
      | Some contact_neighborhood =>
          fold_option
            (pressure_neighbor d index_i rho_n_k p_k vel_k acc_prior_k
               riemann_solvers_k contact_neighborhood)
            (seq 0 (current_size_ contact_neighborhood)) force
      | None => None
      end
  | _, _, _, _, _, _ => None
  end.

(** [BasePressureForceAccelerationFromFluid::interaction]; the pressure
    array is not touched. *)
Definition PressureForceAccelerationFromFluid_interaction
    (d : FSIData) (s : ForceFromFluid) (index_i : nat) : option ForceFromFluid :=
  match fold_option (pressure_contact d index_i)
          (seq 0 (List.length (contact_configuration_ d))) (Zero d) with
  | Some force =>
      match write (force_from_fluid_ s) index_i force with
      | Some force_from_fluid =>
          match write (acc_prior_ s) index_i
                  (vec_div force (ParticleMass d index_i)) with
          | Some acc_prior =>
              Some {| force_from_fluid_ := force_from_fluid;
                      acc_prior_ := acc_prior;
                      pressure_from_fluid_ := pressure_from_fluid_ s |}
          | None => None
          end
      | None => None
      end
  | None => None
  end.

(** Adding to entry [index_i] of an array of vectors. *)
Definition add_at (v : list Vecd) (index_i : nat) (x : Vecd) : option (list Vecd) :=
  match read v index_i with
  | Some old => write v index_i (vec_add old x)
  | None => None
  end.

(** [BaseAllForceAccelerationFromFluid::interaction], over the interaction
    of the pressure-force class it extends. *)
Definition AllForceAccelerationFromFluid_interaction
    (PressureForceType_interaction : ForceFromFluid -> nat -> option ForceFromFluid)
    (ParticleMass : nat -> R) (viscous_force_from_fluid_ : list Vecd)
    (s : ForceFromFluid) (index_i : nat) : option ForceFromFluid :=
  match PressureForceType_interaction s index_i with
  | Some s1 =>
      match read viscous_force_from_fluid_ index_i with
      | Some viscous_i =>
          match add_at (force_from_fluid_ s1) index_i viscous_i with
          | Some force_from_fluid =>
              match add_at (acc_prior_ s1) index_i
                      (vec_div viscous_i (ParticleMass index_i)) with
              | Some acc_prior =>
                  Some {| force_from_fluid_ := force_from_fluid;
                          acc_prior_ := acc_prior;
                          pressure_from_fluid_ := pressure_from_fluid_ s1 |}
              | None => None
              end
          | None => None
          end
      | None => None
      end
  | None => None
  end.

(** ** Vector algebra *)

Lemma vec_scale_div (v : Vecd) (c : R) : c <> 0 -> vec_scale c (vec_div v c) = v.
Proof.
  intros Hc; unfold vec_scale, vec_div; rewrite map_map.
  rewrite <- (map_id v) at 2; apply map_ext.
  intros x; field; exact Hc.
Qed.

Lemma vec_scale_add (c : R) (u v : Vecd) :
  vec_scale c (vec_add u v) = vec_add (vec_scale c u) (vec_scale c v).
Proof.
  unfold vec_scale, vec_add; revert v.
  induction u as [|x u IH]; intros v; [reflexivity |].
  destruct v as [|y v]; [reflexivity |].
  simpl; rewrite IH; f_equal; ring.
Qed.

(** ** Force and acceleration *)

Lemma pressure_interaction_newton
    (d : FSIData) (s s' : ForceFromFluid) (index_i : nat) :
  ParticleMass d index_i <> 0 ->
  PressureForceAccelerationFromFluid_interaction d s index_i = Some s' ->
  exists force_i acc_i : Vecd,
    read (force_from_fluid_ s') index_i = Some force_i
    /\ read (acc_prior_ s') index_i = Some acc_i
    /\ vec_scale (ParticleMass d index_i) acc_i = force_i.
Proof.
  intros Hm H; unfold PressureForceAccelerationFromFluid_interaction in H.
  destruct (fold_option _ _ (Zero d)) as [force_i|]; [| discriminate].
  destruct (write (force_from_fluid_ s) index_i force_i) as [ff|] eqn:Ef;
    [| discriminate].
  destruct (write (acc_prior_ s) index_i _) as [ap|] eqn:Ea; [| discriminate].
  injection H as <-; simpl.
  exists force_i, (vec_div force_i (ParticleMass d index_i)).
  split; [apply (read_write_same _ _ _ _ Ef) |].
  split; [apply (read_write_same _ _ _ _ Ea) |].
  apply vec_scale_div; exact Hm.
Qed.

(** The acceleration written by the pressure-force interaction is the force
    it writes over the particle mass: for a non-zero mass, mass times
    acceleration is the force of the particle, and no other particle is
    touched. *)
Theorem PressureForceAccelerationFromFluid_newton
    (d : FSIData) (s s' : ForceFromFluid) (index_i : nat) :
  ParticleMass d index_i <> 0 ->
  PressureForceAccelerationFromFluid_interaction d s index_i = Some s' ->
  (exists force_i acc_i : Vecd,
     read (force_from_fluid_ s') index_i = Some force_i
     /\ read (acc_prior_ s') index_i = Some acc_i
     /\ vec_scale (ParticleMass d index_i) acc_i = force_i)
  /\ (forall j : nat, j <> index_i ->
        read (force_from_fluid_ s') j = read (force_from_fluid_ s) j
        /\ read (acc_prior_ s') j = read (acc_prior_ s) j)
  /\ pressure_from_fluid_ s' = pressure_from_fluid_ s.
Proof.
  intros Hm H.
  split; [apply (pressure_interaction_newton d s s' index_i Hm H) |].
  unfold PressureForceAccelerationFromFluid_interaction in H.
  destruct (fold_option _ _ (Zero d)) as [force_i|]; [| discriminate].
  destruct (write (force_from_fluid_ s) index_i force_i) as [ff|] eqn:Ef;
    [| discriminate].
  destruct (write (acc_prior_ s) index_i _) as [ap|] eqn:Ea; [| discriminate].
  injection H as <-; simpl.
  split; [| reflexivity].
  intros j Hj; split.
  - apply (read_write_other _ _ _ _ _ Ef Hj).
  - apply (read_write_other _ _ _ _ _ Ea Hj).
Qed.

Lemma all_force_newton
    (PressureForceType_interaction : ForceFromFluid -> nat -> option ForceFromFluid)
    (ParticleMass : nat -> R) (viscous_force_from_fluid_ : list Vecd)
    (s s1 s' : ForceFromFluid) (index_i : nat)
    (pressure_force_i acc_i : Vecd) :
  ParticleMass index_i <> 0 ->
  PressureForceType_interaction s index_i = Some s1 ->
  read (force_from_fluid_ s1) index_i = Some pressure_force_i ->
  read (acc_prior_ s1) index_i = Some acc_i ->
  vec_scale (ParticleMass index_i) acc_i = pressure_force_i ->
  AllForceAccelerationFromFluid_interaction PressureForceType_interaction
    ParticleMass viscous_force_from_fluid_ s index_i = Some s' ->
  exists viscous_i acc_i' : Vecd,
    read viscous_force_from_fluid_ index_i = Some viscous_i
    /\ read (force_from_fluid_ s') index_i
       = Some (vec_add pressure_force_i viscous_i)
    /\ read (acc_prior_ s') index_i = Some acc_i'
    /\ vec_scale (ParticleMass index_i) acc_i'
       = vec_add pressure_force_i viscous_i.
Proof.
  intros Hm Hp Hf Ha Hnewton H.
  unfold AllForceAccelerationFromFluid_interaction, add_at in H.
  rewrite Hp, Hf, Ha in H.
  destruct (read viscous_force_from_fluid_ index_i) as [viscous_i|];
    [| discriminate].
  destruct (write (force_from_fluid_ s1) index_i _) as [ff|] eqn:Ef;
    [| discriminate].
  destruct (write (acc_prior_ s1) index_i _) as [ap|] eqn:Eacc; [| discriminate].
  injection H as <-; simpl.
  exists viscous_i, (vec_add acc_i (vec_div viscous_i (ParticleMass index_i))).
  split; [reflexivity |].
  split; [apply (read_write_same _ _ _ _ Ef) |].
  split; [apply (read_write_same _ _ _ _ Eacc) |].
  rewrite vec_scale_add, Hnewton, vec_scale_div by exact Hm; reflexivity.
Qed.

(** Adding the viscous force keeps force and acceleration consistent.  The
    all-force interaction over the pressure-force interaction writes, for a
    particle of non-zero mass, the pressure force plus the viscous force of
    the particle, and an acceleration that is this total force over the
    mass. *)
Theorem AllForceAccelerationFromFluid_newton
    (d : FSIData) (viscous_force_from_fluid_ : list Vecd)
    (s s' : ForceFromFluid) (index_i : nat) :
  ParticleMass d index_i <> 0 ->
  AllForceAccelerationFromFluid_interaction
    (PressureForceAccelerationFromFluid_interaction d) (ParticleMass d)
    viscous_force_from_fluid_ s index_i = Some s' ->
  exists (s1 : ForceFromFluid) (pressure_force_i viscous_i acc_i : Vecd),
    PressureForceAccelerationFromFluid_interaction d s index_i = Some s1
    /\ read (force_from_fluid_ s1) index_i = Some pressure_force_i
    /\ read viscous_force_from_fluid_ index_i = Some viscous_i
    /\ read (force_from_fluid_ s') index_i
       = Some (vec_add pressure_force_i viscous_i)
    /\ read (acc_prior_ s') index_i = Some acc_i
    /\ vec_scale (ParticleMass d index_i) acc_i
       = vec_add pressure_force_i viscous_i.
Proof.
  intros Hm H.
  destruct (PressureForceAccelerationFromFluid_interaction d s index_i)
    as [s1|] eqn:Hp.
  - destruct (pressure_interaction_newton d s s1 index_i Hm Hp)
      as (pressure_force_i & acc_i & Hf & Ha & Hnewton).
    destruct (all_force_newton (PressureForceAccelerationFromFluid_interaction d)
                (ParticleMass d) viscous_force_from_fluid_ s s1 s' index_i
                pressure_force_i acc_i Hm Hp Hf Ha Hnewton H)
      as (viscous_i & acc_i' & Hv & Hf' & Ha' & Hnewton').
    exists s1, pressure_force_i, viscous_i, acc_i'.
    repeat split; assumption.
  - unfold AllForceAccelerationFromFluid_interaction in H.
    rewrite Hp in H; discriminate.
Qed.

(** ** The peridynamic variant *)

(** The pressure accumulators hold a weighted sum and its total weight. *)
Definition pressure_between (lo hi : R) (acc : PressureAccumulators) : Prop :=
  0 <= sum_w acc /\ lo * sum_w acc <= p_from_f acc <= hi * sum_w acc.

Lemma pressure_neighbor_PD_between
    (lo hi : R) (d : FSIData) (index_i : nat)
    (rho_n_k p_k u_div_k : list R) (vel_k acc_prior_k : list Vecd)
    (DissipativePJump : R -> R) (nb : Neighborhood)
    (acc acc' : PressureAccumulators) (n : nat) :
  Forall (fun p_j => lo <= p_j <= hi) p_k ->
  Forall (fun W_ij => 0 <= W_ij) (W_ij_ nb) ->
  pressure_between lo hi acc ->
  pressure_neighbor_PD d index_i rho_n_k p_k u_div_k vel_k acc_prior_k
    DissipativePJump nb acc n = Some acc' ->
  pressure_between lo hi acc'.
Proof.
  intros Hp HW (Hs & Hlo & Hhi) H; unfold pressure_neighbor_PD in H.
  destruct (read (j_ nb) n) as [index_j|]; [| discriminate].
  destruct (read (e_ij_ nb) n) as [e_ij|]; [| discriminate].
  destruct (read (r_ij_ nb) n) as [r_ij|]; [| discriminate].
  destruct (read (W_ij_ nb) n) as [W_ij|] eqn:EW; [| discriminate].
  destruct (read (dW_ijV_j_ nb) n) as [dW_ijV_j|]; [| discriminate].
  destruct (read acc_prior_k index_j) as [acc_prior_j|]; [| discriminate].
  destruct (read (acc_ave_ d) index_i) as [acc_ave_i|]; [| discriminate].
  destruct (read p_k index_j) as [p_j|] eqn:Ep; [| discriminate].
  destruct (read rho_n_k index_j) as [rho_j|]; [| discriminate].
  destruct (read u_div_k index_j) as [u_div_j|]; [| discriminate].
  destruct (read vel_k index_j) as [vel_j|]; [| discriminate].
  destruct (read (vel_ave_ d) index_i) as [vel_ave_i|]; [| discriminate].
  destruct (read (n_ d) index_i) as [n_i|]; [| discriminate].
  destruct (read (Vol_ d) index_i) as [Vol_i|]; [| discriminate].
  injection H as <-.
  pose proof (read_Forall _ _ _ _ Hp Ep) as Hpj.
  pose proof (read_Forall _ _ _ _ HW EW) as HWn.
  simpl in Hpj, HWn.
  unfold pressure_between; simpl.
  split; [lra |]; split; nra.
Qed.

Lemma pressure_contact_PD_between
    (lo hi : R) (d : FSIData) (index_i : nat)
    (acc acc' : PressureAccumulators) (k : nat) :
  Forall (Forall (fun p_j => lo <= p_j <= hi)) (contact_p_ d) ->
  Forall (Forall (fun nb => Forall (fun W_ij => 0 <= W_ij) (W_ij_ nb)))
    (contact_configuration_ d) ->
  pressure_between lo hi acc ->
  pressure_contact_PD d index_i acc k = Some acc' ->
  pressure_between lo hi acc'.
Proof.
  intros Hp HW Hacc H; unfold pressure_contact_PD in H.
  destruct (read (contact_rho_n_ d) k) as [rho_n_k|]; [| discriminate].
  destruct (read (contact_p_ d) k) as [p_k|] eqn:Ep; [| discriminate].
  destruct (read (contact_u_div_ d) k) as [u_div_k|]; [| discriminate].
  destruct (read (contact_vel_n_ d) k) as [vel_k|]; [| discriminate].
  destruct (read (contact_acc_prior_ d) k) as [acc_prior_k|]; [| discriminate].
  destruct (read (riemann_solvers_ d) k) as [riemann_solvers_k|]; [| discriminate].
  destruct (read (contact_configuration_ d) k) as [configuration_k|] eqn:Ec;
    [| discriminate].
  destruct (read configuration_k index_i) as [nb|] eqn:En; [| discriminate].
  pose proof (read_Forall _ _ _ _ Hp Ep) as Hp'.
  pose proof (read_Forall _ _ _ _ (read_Forall _ _ _ _ HW Ec) En) as HW'.
  simpl in Hp', HW'.
  apply (fold_option_invariant (pressure_between lo hi) _ _) with (a := acc)
    (3 := H); [| exact Hacc].
  intros a a' n Ha Hstep.
  apply (pressure_neighbor_PD_between lo hi d index_i rho_n_k p_k u_div_k vel_k
           acc_prior_k riemann_solvers_k nb a a' n); assumption.
Qed.

(** The pressure stored for a solid particle is the kernel-weighted average
    of the pressures of its fluid neighbours: with non-negative kernel
    weights it lies between any bounds of the fluid pressures, and it is 0
    when the weights sum to zero. *)
Theorem PressureForceAccelerationFromFluidforPD_pressure
    (coeff_acoustic_damper_ lo hi : R) (d : FSIData) (s s' : ForceFromFluid)
    (index_i : nat) :
  Forall (Forall (fun p_j => lo <= p_j <= hi)) (contact_p_ d) ->
  Forall (Forall (fun nb => Forall (fun W_ij => 0 <= W_ij) (W_ij_ nb)))
    (contact_configuration_ d) ->
  PressureForceAccelerationFromFluidforPD_interaction coeff_acoustic_damper_
    d s index_i = Some s' ->
  exists value : R,
    read (pressure_from_fluid_ s') index_i = Some value
    /\ (value = 0 \/ lo <= value <= hi).
Proof.
  intros Hp HW H; unfold PressureForceAccelerationFromFluidforPD_interaction in H.
  destruct (fold_option _ _ _) as [acc|] eqn:E; [| discriminate].
  assert (Hacc : pressure_between lo hi acc).
  { apply (fold_option_invariant (pressure_between lo hi) _ _) with (3 := E).
    - intros a a' k Ha Hstep.
      apply (pressure_contact_PD_between lo hi d index_i a a' k); assumption.
    - unfold pressure_between; simpl; lra. }
  destruct Hacc as (Hs & Hlo & Hhi).
  cbv zeta in H.
  destruct (write (force_from_fluid_ s) index_i _) as [ff|]; [| discriminate].
  destruct (write (acc_prior_ s) index_i _) as [ap|]; [| discriminate].
  destruct (write (pressure_from_fluid_ s) index_i _) as [pf|] eqn:Epf;
    [| discriminate].
  injection H as <-; simpl.
  eexists; split; [apply (read_write_same _ _ _ _ Epf) |].
  destruct (Req_dec_T (sum_w acc) 0) as [Hz|Hnz].
  - left; rewrite Hz in Hlo, Hhi.
    replace (p_from_f acc) with 0 by lra; lra.
  - right.
    assert (Hpos : 0 < sum_w acc) by lra.
    split.
    + apply (Rmult_le_reg_r (sum_w acc)); [exact Hpos |].
      replace (p_from_f acc / sum_w acc * sum_w acc) with (p_from_f acc)
        by (field; lra).
      exact Hlo.
    + apply (Rmult_le_reg_r (sum_w acc)); [exact Hpos |].
      replace (p_from_f acc / sum_w acc * sum_w acc) with (p_from_f acc)
        by (field; lra).
      exact Hhi.
Qed.

Lemma pressure_neighbor_PD_force
    (d : FSIData) (index_i : nat)
    (rho_n_k p_k u_div_k : list R) (vel_k acc_prior_k : list Vecd)
    (DissipativePJump : R -> R) (nb : Neighborhood)
    (acc acc' : PressureAccumulators) (n : nat) :
  pressure_neighbor_PD d index_i rho_n_k p_k u_div_k vel_k acc_prior_k
    DissipativePJump nb acc n = Some acc' ->
  pressure_neighbor d index_i rho_n_k p_k vel_k acc_prior_k DissipativePJump nb
    (force acc) n = Some (force acc').
Proof.
  intros H; unfold pressure_neighbor_PD in H; unfold pressure_neighbor.
  destruct (read (j_ nb) n) as [index_j|]; [| discriminate].
  destruct (read (e_ij_ nb) n) as [e_ij|]; [| discriminate].
  destruct (read (r_ij_ nb) n) as [r_ij|]; [| discriminate].
  destruct (read (W_ij_ nb) n) as [W_ij|]; [| discriminate].
  destruct (read (dW_ijV_j_ nb) n) as [dW_ijV_j|]; [| discriminate].
  destruct (read acc_prior_k index_j) as [acc_prior_j|]; [| discriminate].
  destruct (read (acc_ave_ d) index_i) as [acc_ave_i|]; [| discriminate].
  destruct (read p_k index_j) as [p_j|]; [| discriminate].
  destruct (read rho_n_k index_j) as [rho_j|]; [| discriminate].
  destruct (read u_div_k index_j) as [u_div_j|]; [| discriminate].
  destruct (read vel_k index_j) as [vel_j|]; [| discriminate].
  destruct (read (vel_ave_ d) index_i) as [vel_ave_i|]; [| discriminate].
  destruct (read (n_ d) index_i) as [n_i|]; [| discriminate].
  destruct (read (Vol_ d) index_i) as [Vol_i|]; [| discriminate].
  injection H as <-; reflexivity.
Qed.

Lemma fold_option_project {A A' B : Type} (proj : A -> A')
    (f : A -> B -> option A) (g : A' -> B -> option A') (l : list B) :
  (forall (a a' : A) (x : B), f a x = Some a' -> g (proj a) x = Some (proj a')) ->
  forall a a' : A,
    fold_option f l a = Some a' -> fold_option g l (proj a) = Some (proj a').
Proof.
  intros Hstep; induction l as [|x l IH]; intros a a' H; simpl in H |- *.
  - injection H as <-; reflexivity.
  - destruct (f a x) as [a1|] eqn:E; [| discriminate].
    rewrite (Hstep a a1 x E); apply (IH a1 a' H).
Qed.

Lemma pressure_contact_PD_force
    (d : FSIData) (index_i : nat) (acc acc' : PressureAccumulators) (k : nat) :
  pressure_contact_PD d index_i acc k = Some acc' ->
  pressure_contact d index_i (force acc) k = Some (force acc').
Proof.
  intros H; unfold pressure_contact_PD in H; unfold pressure_contact.
  destruct (read (contact_rho_n_ d) k) as [rho_n_k|]; [| discriminate].
  destruct (read (contact_p_ d) k) as [p_k|]; [| discriminate].
  destruct (read (contact_u_div_ d) k) as [u_div_k|]; [| discriminate].
  destruct (read (contact_vel_n_ d) k) as [vel_k|]; [| discriminate].
  destruct (read (contact_acc_prior_ d) k) as [acc_prior_k|]; [| discriminate].
  destruct (read (riemann_solvers_ d) k) as [riemann_solvers_k|]; [| discriminate].
  destruct (read (contact_configuration_ d) k) as [configuration_k|];
    [| discriminate].
  destruct (read configuration_k index_i) as [nb|]; [| discriminate].
  apply (fold_option_project force
           (pressure_neighbor_PD d index_i rho_n_k p_k u_div_k vel_k acc_prior_k
              riemann_solvers_k nb)
           (pressure_neighbor d index_i rho_n_k p_k vel_k acc_prior_k
              riemann_solvers_k nb)); [| exact H].
  intros a a' n Hstep.
  apply (pressure_neighbor_PD_force d index_i rho_n_k p_k u_div_k vel_k
           acc_prior_k riemann_solvers_k nb a a' n Hstep).
Qed.

(** Vectors of one dimension. *)
Lemma length_vec_add (u v : Vecd) (n : nat) :
  List.length u = n -> List.length v = n -> List.length (vec_add u v) = n.
Proof.
  intros Hu Hv; unfold vec_add.
  rewrite length_map, length_combine, Hu, Hv; apply Nat.min_id.
Qed.

Lemma length_vec_sub (u v : Vecd) (n : nat) :
  List.length u = n -> List.length v = n -> List.length (vec_sub u v) = n.
Proof.
  intros Hu Hv; unfold vec_sub.
  rewrite length_map, length_combine, Hu, Hv; apply Nat.min_id.
Qed.

Lemma length_vec_scale (c : R) (v : Vecd) :
  List.length (vec_scale c v) = List.length v.
Proof. unfold vec_scale; apply length_map. Qed.

Lemma vec_add_scale_zero (u v : Vecd) :
  List.length u = List.length v -> vec_add u (vec_scale 0 v) = u.
Proof.
  unfold vec_add, vec_scale; revert v.
  induction u as [|x u IH]; intros v H; [reflexivity |].
  destruct v as [|y v]; [discriminate |].
  simpl in H |- *; injection H as H.
  rewrite (IH v H); f_equal; ring.
Qed.

Definition accumulators_of_dimension (n : nat) (acc : PressureAccumulators) : Prop :=
  List.length (force acc) = n /\ List.length (acoustic_damper acc) = n.

Lemma pressure_neighbor_PD_dimension
    (dimension : nat) (d : FSIData) (index_i : nat)
    (rho_n_k p_k u_div_k : list R) (vel_k acc_prior_k : list Vecd)
    (DissipativePJump : R -> R) (nb : Neighborhood)
    (acc acc' : PressureAccumulators) (n : nat) :
  Forall (fun n_i => List.length n_i = dimension) (n_ d) ->
  Forall (fun e_ij => List.length e_ij = dimension) (e_ij_ nb) ->
  accumulators_of_dimension dimension acc ->
  pressure_neighbor_PD d index_i rho_n_k p_k u_div_k vel_k acc_prior_k
    DissipativePJump nb acc n = Some acc' ->
  accumulators_of_dimension dimension acc'.
Proof.
  intros Hn He (Hf & Ha) H; unfold pressure_neighbor_PD in H.
  destruct (read (j_ nb) n) as [index_j|]; [| discriminate].
  destruct (read (e_ij_ nb) n) as [e_ij|] eqn:Ee; [| discriminate].
  destruct (read (r_ij_ nb) n) as [r_ij|]; [| discriminate].
  destruct (read (W_ij_ nb) n) as [W_ij|]; [| discriminate].
  destruct (read (dW_ijV_j_ nb) n) as [dW_ijV_j|]; [| discriminate].
  destruct (read acc_prior_k index_j) as [acc_prior_j|]; [| discriminate].
  destruct (read (acc_ave_ d) index_i) as [acc_ave_i|]; [| discriminate].
  destruct (read p_k index_j) as [p_j|]; [| discriminate].
  destruct (read rho_n_k index_j) as [rho_j|]; [| discriminate].
  destruct (read u_div_k index_j) as [u_div_j|]; [| discriminate].
  destruct (read vel_k index_j) as [vel_j|]; [| discriminate].
  destruct (read (vel_ave_ d) index_i) as [vel_ave_i|]; [| discriminate].
  destruct (read (n_ d) index_i) as [n_i|] eqn:En; [| discriminate].
  destruct (read (Vol_ d) index_i) as [Vol_i|]; [| discriminate].
  injection H as <-.
  pose proof (read_Forall _ _ _ _ Hn En) as Hni.
  pose proof (read_Forall _ _ _ _ He Ee) as Hei.
  simpl in Hni, Hei.
  unfold accumulators_of_dimension, neighbor_force; simpl; split.
  - apply length_vec_add; [exact Hf |].
    rewrite !length_vec_scale.
    apply length_vec_sub; rewrite length_vec_scale; assumption.
  - apply length_vec_add; [exact Ha |].
    rewrite length_vec_scale; exact Hei.
Qed.

Lemma pressure_contact_PD_dimension
    (dimension : nat) (d : FSIData) (index_i : nat)
    (acc acc' : PressureAccumulators) (k : nat) :
  Forall (fun n_i => List.length n_i = dimension) (n_ d) ->
  Forall (Forall (fun nb =>
            Forall (fun e_ij => List.length e_ij = dimension) (e_ij_ nb)))
    (contact_configuration_ d) ->
  accumulators_of_dimension dimension acc ->
  pressure_contact_PD d index_i acc k = Some acc' ->
  accumulators_of_dimension dimension acc'.
Proof.
  intros Hn He Hacc H; unfold pressure_contact_PD in H.
  destruct (read (contact_rho_n_ d) k) as [rho_n_k|]; [| discriminate].
  destruct (read (contact_p_ d) k) as [p_k|]; [| discriminate].
  destruct (read (contact_u_div_ d) k) as [u_div_k|]; [| discriminate].
  destruct (read (contact_vel_n_ d) k) as [vel_k|]; [| discriminate].
  destruct (read (contact_acc_prior_ d) k) as [acc_prior_k|]; [| discriminate].
  destruct (read (riemann_solvers_ d) k) as [riemann_solvers_k|]; [| discriminate].
  destruct (read (contact_configuration_ d) k) as [configuration_k|] eqn:Ec;
    [| discriminate].
  destruct (read configuration_k index_i) as [nb|] eqn:Enb; [| discriminate].
  pose proof (read_Forall _ _ _ _ (read_Forall _ _ _ _ He Ec) Enb) as He'.
  simpl in He'.
  apply (fold_option_invariant (accumulators_of_dimension dimension) _ _)
    with (a := acc) (3 := H); [| exact Hacc].
  intros a a' n Ha Hstep.
  apply (pressure_neighbor_PD_dimension dimension d index_i rho_n_k p_k u_div_k
           vel_k acc_prior_k riemann_solvers_k nb a a' n); assumption.
Qed.

(** With the acoustic-damper coefficient 0 that the constructor sets, the
    peridynamic variant writes the force and the acceleration of the standard
    pressure-force interaction on the same data (all vectors of one
    dimension); it writes the averaged pressure besides. *)
Theorem PressureForceAccelerationFromFluidforPD_default_coefficient
    (dimension : nat) (d : FSIData) (s s' : ForceFromFluid) (index_i : nat) :
  List.length (Zero d) = dimension ->
  Forall (fun n_i => List.length n_i = dimension) (n_ d) ->
  Forall (Forall (fun nb =>
            Forall (fun e_ij => List.length e_ij = dimension) (e_ij_ nb)))
    (contact_configuration_ d) ->
  PressureForceAccelerationFromFluidforPD_interaction 0 d s index_i = Some s' ->
  exists s0 : ForceFromFluid,
    PressureForceAccelerationFromFluid_interaction d s index_i = Some s0
    /\ force_from_fluid_ s' = force_from_fluid_ s0
    /\ acc_prior_ s' = acc_prior_ s0.
Proof.
  intros HZ Hn He H.
  unfold PressureForceAccelerationFromFluidforPD_interaction in H.
  unfold PressureForceAccelerationFromFluid_interaction.
  destruct (fold_option (pressure_contact_PD d index_i) _ _) as [acc|] eqn:E;
    [| discriminate].
  assert (Hdim : accumulators_of_dimension dimension acc).
  { apply (fold_option_invariant (accumulators_of_dimension dimension) _ _)
      with (3 := E).
    - intros a a' k Ha Hstep.
      apply (pressure_contact_PD_dimension dimension d index_i a a' k);
        assumption.
    - split; exact HZ. }
  destruct Hdim as (Hf & Ha).
  pose proof (fold_option_project force (pressure_contact_PD d index_i)
                (pressure_contact d index_i) _
                (pressure_contact_PD_force d index_i) _ _ E) as E'.
  simpl in E'; rewrite E'.
  cbv zeta in H.
  rewrite (vec_add_scale_zero (force acc) (acoustic_damper acc)) in H
    by (rewrite Hf, Ha; reflexivity).
  destruct (write (force_from_fluid_ s) index_i (force acc)) as [ff|];
    [| discriminate].
  destruct (write (acc_prior_ s) index_i _) as [ap|]; [| discriminate].
  destruct (write (pressure_from_fluid_ s) index_i _) as [pf|]; [| discriminate].
  injection H as <-; simpl.
  eexists; split; [reflexivity |]; split; reflexivity.
Qed.

(** For any coefficient, the acceleration written by the peridynamic variant
    is the force it writes over the particle mass, and only entry [index_i]
    of the three arrays is written. *)
Theorem PressureForceAccelerationFromFluidforPD_newton
    (coeff_acoustic_damper_ : R) (d : FSIData) (s s' : ForceFromFluid)
    (index_i : nat) :
  ParticleMass d index_i <> 0 ->
  PressureForceAccelerationFromFluidforPD_interaction coeff_acoustic_damper_
    d s index_i = Some s' ->
  (exists force_i acc_i : Vecd,
     read (force_from_fluid_ s') index_i = Some force_i
     /\ read (acc_prior_ s') index_i = Some acc_i
     /\ vec_scale (ParticleMass d index_i) acc_i = force_i)
  /\ (forall j : nat, j <> index_i ->
        read (force_from_fluid_ s') j = read (force_from_fluid_ s) j
        /\ read (acc_prior_ s') j = read (acc_prior_ s) j
        /\ read (pressure_from_fluid_ s') j = read (pressure_from_fluid_ s) j).
Proof.
  intros Hm H; unfold PressureForceAccelerationFromFluidforPD_interaction in H.
  destruct (fold_option _ _ _) as [acc|]; [| discriminate].
  cbv zeta in H.
  destruct (write (force_from_fluid_ s) index_i _) as [ff|] eqn:Ef;
    [| discriminate].
  destruct (write (acc_prior_ s) index_i _) as [ap|] eqn:Ea; [| discriminate].
  destruct (write (pressure_from_fluid_ s) index_i _) as [pf|] eqn:Ep;
    [| discriminate].
  injection H as <-; simpl.
  split.
  - eexists; eexists.
    split; [apply (read_write_same _ _ _ _ Ef) |].
    split; [apply (read_write_same _ _ _ _ Ea) |].
    apply vec_scale_div; exact Hm.
  - intros j Hj.
    split; [apply (read_write_other _ _ _ _ _ Ef Hj) |].
    split; [apply (read_write_other _ _ _ _ _ Ea Hj) |].
    apply (read_write_other _ _ _ _ _ Ep Hj).
Qed.

Lemma vec_add_zero (u v : Vecd) (c : R) :
  Forall (fun x => x = 0) u -> Forall (fun x => x = 0) v ->
  Forall (fun x => x = 0) (vec_add u (vec_scale c v)).
Proof.
  unfold vec_add, vec_scale; intros Hu; revert v.
  induction Hu as [|x u Hx Hu IH]; intros v Hv; [constructor |].
  destruct Hv as [|y v Hy Hv]; [constructor |].
  simpl; constructor; [subst; ring | apply (IH v Hv)].
Qed.

(** A solid particle without fluid neighbours gets the zero force and the
    pressure 0: the weight sum 0 is replaced by 1 before the division. *)
Theorem PressureForceAccelerationFromFluidforPD_no_neighbours
    (coeff_acoustic_damper_ : R) (d : FSIData) (s s' : ForceFromFluid)
    (index_i : nat) :
  Forall (fun x => x = 0) (Zero d) ->
  (forall (k : nat) (configuration_k : list Neighborhood) (nb : Neighborhood),
     read (contact_configuration_ d) k = Some configuration_k ->
     read configuration_k index_i = Some nb -> current_size_ nb = 0%nat) ->
  PressureForceAccelerationFromFluidforPD_interaction coeff_acoustic_damper_
    d s index_i = Some s' ->
  read (pressure_from_fluid_ s') index_i = Some 0
  /\ exists force_i : Vecd,
       read (force_from_fluid_ s') index_i = Some force_i
       /\ Forall (fun x => x = 0) force_i.
Proof.
  intros HZ Hempty H.
  unfold PressureForceAccelerationFromFluidforPD_interaction in H.
  destruct (fold_option _ _ _) as [acc|] eqn:E; [| discriminate].
  assert (Hacc : acc = {| force := Zero d; acoustic_damper := Zero d;
                          p_from_f := 0; sum_w := 0 |}).
  { apply (fold_option_invariant
             (fun a => a = {| force := Zero d; acoustic_damper := Zero d;
                              p_from_f := 0; sum_w := 0 |}) _ _)
      with (3 := E); [| reflexivity].
    intros a a' k -> Hstep; unfold pressure_contact_PD in Hstep.
    destruct (read (contact_rho_n_ d) k); [| discriminate].
    destruct (read (contact_p_ d) k); [| discriminate].
    destruct (read (contact_u_div_ d) k); [| discriminate].
    destruct (read (contact_vel_n_ d) k); [| discriminate].
    destruct (read (contact_acc_prior_ d) k); [| discriminate].
    destruct (read (riemann_solvers_ d) k); [| discriminate].
    destruct (read (contact_configuration_ d) k) as [configuration_k|] eqn:Ec;
      [| discriminate].
    destruct (read configuration_k index_i) as [nb|] eqn:En; [| discriminate].
    rewrite (Hempty k configuration_k nb Ec En) in Hstep; simpl in Hstep.
    congruence. }
  subst acc; cbv zeta in H; simpl in H.
  destruct (write (force_from_fluid_ s) index_i _) as [ff|] eqn:Ef;
    [| discriminate].
  destruct (write (acc_prior_ s) index_i _) as [ap|]; [| discriminate].
  destruct (write (pressure_from_fluid_ s) index_i _) as [pf|] eqn:Ep;
    [| discriminate].
  injection H as <-; simpl.
  split.
  - rewrite (read_write_same _ _ _ _ Ep); f_equal.
    destruct (Req_dec_T 0 0) as [_|Hne]; [| contradiction Hne; reflexivity].
    field.
  - eexists; split; [apply (read_write_same _ _ _ _ Ef) |].
    apply vec_add_zero; exact HZ.
Qed.

(** A solid particle of mass 2 next to two fluid particles of pressures 2 and
    4, and the same particle out of contact. *)
Definition fluid_contact (nb : Neighborhood) : FSIData :=
  {| Zero := [0; 0];
     ParticleMass := fun _ => 2;
     Vol_ := [1];
     vel_ave_ := [[0; 0]];
     acc_ave_ := [[0; 0]];
     n_ := [[1; 0]];
     contact_rho_n_ := [[1; 1]];
     contact_p_ := [[2; 4]];
     contact_u_div_ := [[1; 1]];
     contact_vel_n_ := [[[1; 0]; [0; 1]]];
     contact_acc_prior_ := [[[0; 0]; [0; 0]]];
     riemann_solvers_ := [fun u_jump => u_jump];
     contact_configuration_ := [[nb]] |}.

Definition solid_at_rest : ForceFromFluid :=
  {| force_from_fluid_ := [[0; 0]];
     acc_prior_ := [[0; 0]];
     pressure_from_fluid_ := [7] |}.

(** Two fluid neighbours whose kernel gradients do not vanish: the force on
    the solid particle is [(-2, -4)], and the acoustic damper adds
    [coeff_acoustic_damper_ * (2, 1)]. *)
Definition two_fluid_neighbours : Neighborhood :=
  {| current_size_ := 2; j_ := [0; 1]%nat; W_ij_ := [3; 1];
     dW_ijV_j_ := [1; / 2]; r_ij_ := [1; 1]; e_ij_ := [[1; 0]; [0; 1]] |}.

Lemma SMAX_at_rest (x : R) : x = 0 -> Rmax 0 x = 0.
Proof. intros ->; apply Rmax_left; lra. Qed.

Ltac at_rest :=
  repeat match goal with
         | |- context [Rmax 0 ?e] =>
             rewrite (SMAX_at_rest e) by lra
         end.

Lemma fluid_contact_pressure_force :
  PressureForceAccelerationFromFluid_interaction
    (fluid_contact two_fluid_neighbours) solid_at_rest 0
  = Some {| force_from_fluid_ := [[-2; -4]];
            acc_prior_ := [[-1; -2]];
            pressure_from_fluid_ := [7] |}.
Proof.
  cbv [PressureForceAccelerationFromFluid_interaction fluid_contact
       two_fluid_neighbours solid_at_rest fold_option pressure_contact
       pressure_neighbor read write nth_error seq List.length
       contact_configuration_ contact_rho_n_ contact_p_ contact_vel_n_
       contact_acc_prior_ riemann_solvers_ current_size_ j_ e_ij_ r_ij_
       dW_ijV_j_ acc_ave_ vel_ave_ n_ Vol_ Zero ParticleMass force_from_fluid_
       acc_prior_ pressure_from_fluid_ neighbor_force vec_add vec_sub vec_scale
       vec_div vec_dot map combine fst snd fold_left].
  unfold SMAX; at_rest.
  repeat f_equal; lra.
Qed.

Lemma fluid_contact_pressure_force_PD (coeff_acoustic_damper_ : R) :
  PressureForceAccelerationFromFluidforPD_interaction coeff_acoustic_damper_
    (fluid_contact two_fluid_neighbours) solid_at_rest 0
  = Some {| force_from_fluid_ :=
              [[-2 + coeff_acoustic_damper_ * 2; -4 + coeff_acoustic_damper_ * 1]];
            acc_prior_ :=
              [[(-2 + coeff_acoustic_damper_ * 2) / 2;
                (-4 + coeff_acoustic_damper_ * 1) / 2]];
            pressure_from_fluid_ := [5 / 2] |}.
Proof.
  cbv [PressureForceAccelerationFromFluidforPD_interaction fluid_contact
       two_fluid_neighbours solid_at_rest fold_option pressure_contact_PD
       pressure_neighbor_PD read write nth_error seq List.length
       contact_configuration_ contact_rho_n_ contact_p_ contact_u_div_
       contact_vel_n_ contact_acc_prior_ riemann_solvers_ current_size_ j_
       e_ij_ r_ij_ W_ij_ dW_ijV_j_ acc_ave_ vel_ave_ n_ Vol_ Zero ParticleMass
       force_from_fluid_ acc_prior_ pressure_from_fluid_ neighbor_force
       force acoustic_damper p_from_f sum_w
       vec_add vec_sub vec_scale vec_div vec_dot map combine fst snd fold_left].
  unfold SMAX; at_rest.
  destruct (Req_dec_T (0 + 3 + 1) 0) as [E | _]; [lra |].
  apply f_equal, (f_equal3 mkForceFromFluid).
  - apply (f_equal (fun v : Vecd => [v])), (f_equal2 (fun x y : R => [x; y])); lra.
  - apply (f_equal (fun v : Vecd => [v])), (f_equal2 (fun x y : R => [x; y])); lra.
  - apply (f_equal (fun x : R => [x])); lra.
Qed.

Lemma PressureForceAccelerationFromFluid_newton_witness :
  exists s' : ForceFromFluid,
    PressureForceAccelerationFromFluid_interaction
      (fluid_contact two_fluid_neighbours) solid_at_rest 0 = Some s'
    /\ force_from_fluid_ s' = [[-2; -4]]
    /\ acc_prior_ s' = [[-1; -2]]
    /\ exists force_i acc_i : Vecd,
         read (force_from_fluid_ s') 0 = Some force_i
         /\ read (acc_prior_ s') 0 = Some acc_i
         /\ vec_scale 2 acc_i = force_i.
Proof.
  eexists; split; [exact fluid_contact_pressure_force |].
  split; [reflexivity |]; split; [reflexivity |].
  refine (proj1 (PressureForceAccelerationFromFluid_newton
                   (fluid_contact two_fluid_neighbours) solid_at_rest _ 0 _
                   fluid_contact_pressure_force)).
  simpl; lra.
Defined.


Lemma AllForceAccelerationFromFluid_newton_witness :
  exists s' : ForceFromFluid,
    AllForceAccelerationFromFluid_interaction
      (PressureForceAccelerationFromFluid_interaction (fluid_contact two_neighbours))
      (ParticleMass (fluid_contact two_neighbours)) [[3; 5]] solid_at_rest 0
    = Some s'
    /\ exists (s1 : ForceFromFluid) (pressure_force_i viscous_i acc_i : Vecd),
         PressureForceAccelerationFromFluid_interaction
           (fluid_contact two_neighbours) solid_at_rest 0 = Some s1
         /\ read (force_from_fluid_ s1) 0 = Some pressure_force_i
         /\ read [[3; 5]] 0 = Some viscous_i
         /\ read (force_from_fluid_ s') 0
            = Some (vec_add pressure_force_i viscous_i)
         /\ read (acc_prior_ s') 0 = Some acc_i
         /\ vec_scale 2 acc_i = vec_add pressure_force_i viscous_i.
Proof.
  eexists; split; [reflexivity |].
  refine (AllForceAccelerationFromFluid_newton (fluid_contact two_neighbours)
            [[3; 5]] solid_at_rest _ 0 _ eq_refl).
  simpl; lra.
Defined.

Lemma PressureForceAccelerationFromFluidforPD_pressure_witness :
  exists s' : ForceFromFluid,
    PressureForceAccelerationFromFluidforPD_interaction (3 / 10)
      (fluid_contact two_neighbours) solid_at_rest 0 = Some s'
    /\ exists value : R,
         read (pressure_from_fluid_ s') 0 = Some value
         /\ (value = 0 \/ 2 <= value <= 4).
Proof.
  eexists; split; [reflexivity |].
  refine (PressureForceAccelerationFromFluidforPD_pressure (3 / 10) 2 4
            (fluid_contact two_neighbours) solid_at_rest _ 0 _ _ eq_refl).
  - repeat constructor; lra.
  - repeat constructor; simpl; lra.
Defined.

Lemma PressureForceAccelerationFromFluidforPD_default_coefficient_witness :
  exists s' s0 : ForceFromFluid,
    PressureForceAccelerationFromFluidforPD_interaction 0
      (fluid_contact two_fluid_neighbours) solid_at_rest 0 = Some s'
    /\ PressureForceAccelerationFromFluid_interaction
         (fluid_contact two_fluid_neighbours) solid_at_rest 0 = Some s0
    /\ force_from_fluid_ s' = force_from_fluid_ s0
    /\ acc_prior_ s' = acc_prior_ s0
    /\ force_from_fluid_ s0 = [[-2; -4]].
Proof.
  destruct (PressureForceAccelerationFromFluidforPD_default_coefficient 2
              (fluid_contact two_fluid_neighbours) solid_at_rest _ 0
              eq_refl
              ltac:(repeat constructor) ltac:(repeat constructor)
              (fluid_contact_pressure_force_PD 0))
    as (s0 & H0 & Hf & Ha).
  eexists; exists s0.
  split; [exact (fluid_contact_pressure_force_PD 0) |].
  split; [exact H0 |]; split; [exact Hf |]; split; [exact Ha |].
  rewrite fluid_contact_pressure_force in H0.
  injection H0 as <-; reflexivity.
Defined.

Lemma PressureForceAccelerationFromFluidforPD_newton_witness :
  exists s' : ForceFromFluid,
    PressureForceAccelerationFromFluidforPD_interaction (3 / 10)
      (fluid_contact two_fluid_neighbours) solid_at_rest 0 = Some s'
    /\ force_from_fluid_ s' = [[-2 + 3 / 10 * 2; -4 + 3 / 10 * 1]]
    /\ exists force_i acc_i : Vecd,
         read (force_from_fluid_ s') 0 = Some force_i
         /\ read (acc_prior_ s') 0 = Some acc_i
         /\ vec_scale 2 acc_i = force_i.
Proof.
  eexists; split; [exact (fluid_contact_pressure_force_PD (3 / 10)) |].
  split; [reflexivity |].
  refine (proj1 (PressureForceAccelerationFromFluidforPD_newton (3 / 10)
                   (fluid_contact two_fluid_neighbours) solid_at_rest _ 0 _
                   (fluid_contact_pressure_force_PD (3 / 10)))).
  simpl; lra.
Defined.

Lemma PressureForceAccelerationFromFluidforPD_no_neighbours_witness :
  exists s' : ForceFromFluid,
    PressureForceAccelerationFromFluidforPD_interaction (3 / 10)
      (fluid_contact no_neighbours) solid_at_rest 0 = Some s'
    /\ read (pressure_from_fluid_ s') 0 = Some 0
    /\ exists force_i : Vecd,
         read (force_from_fluid_ s') 0 = Some force_i
         /\ Forall (fun x => x = 0) force_i.
Proof.
  eexists; split; [reflexivity |].
  refine (PressureForceAccelerationFromFluidforPD_no_neighbours (3 / 10)
            (fluid_contact no_neighbours) solid_at_rest _ 0 _ _ eq_refl).
  - repeat constructor.
  - intros k configuration_k nb Hk Hn.
    destruct k as [|[|k]]; simpl in Hk; try discriminate.
    injection Hk as <-; simpl in Hn; injection Hn as <-; reflexivity.
Defined.

(** * Double-precision arithmetic

    The properties above read [Real] as a real number; they bear on values
    that vary continuously with the data.  The properties of this part bear
    on a comparison, on an integer conversion or on a margin of the size of
    [Eps], where the rounding of the arithmetic decides the outcome.  For
    them [Real] is read as a double: every arithmetic operation is followed
    by [round], the rounding of its exact result to a double, and a function
    of <cmath> is a parameter whose results are doubles.

    The rounding is a parameter too.  What is assumed of it is what rounding
    to nearest gives in binary64 as long as no result overflows or falls in
    the subnormal range; [round_binary64] below is such a rounding, with 53
    significant bits and ties to even.  The module [Binary64] evaluates the
    same expressions on the primitive binary64 numbers. *)

Module Rounded.

Section Arithmetic.

Variable round : R -> R.
Variable pow_lib : R -> R -> R.
Variable log2_lib : R -> R.
Variable Eps : R.
Variable dim : Dim.

(** The double written [1.2] in the source. *)
Definition literal_1_2 : R := 5404319552844595 / 4503599627370496.

(** Modelled from the spec: [powerN], as repeated multiplication from 1. *)
Fixpoint powerN_loop (a res : R) (k : nat) : R :=
  match k with
  | O => res
  | S k' => powerN_loop a (round (res * a)) k'
  end.

Definition powerN (a : R) (n : Z) : R := powerN_loop a 1 (Z.to_nat n).

Definition SPHAdaptation_MostRefinedSpacing
    (coarse_particle_spacing : R) (refinement_level : Z) : R :=
  round (coarse_particle_spacing / powerN 2 refinement_level).

(** The body of the constructor of [ParticleWithLocalRefinement], on the
    base object [a] that the delegated constructor has built. *)
Definition ParticleWithLocalRefinement_new
    (a : SPHAdaptation) (local_refinement_level : Z)
    : ParticleWithLocalRefinement :=
  let spacing_min :=
    SPHAdaptation_MostRefinedSpacing (spacing_ref_ a) local_refinement_level in
  {| adaptation :=
       {| h_spacing_ratio_ := h_spacing_ratio_ a;
          system_refinement_ratio_ := system_refinement_ratio_ a;
          local_refinement_level_ := local_refinement_level;
          spacing_ref_ := spacing_ref_ a;
          h_ref_ := h_ref_ a;
          kernel_ptr_ := kernel_ptr_ a;
          sigma0_ref_ := sigma0_ref_ a;
          spacing_min_ := spacing_min;
          h_ratio_max_ := powerN 2 local_refinement_level;
          body_name_ := body_name_ a |};
     finest_spacing_bound_ := round (spacing_min + Eps);
     coarsest_spacing_bound_ := round (spacing_ref_ a - Eps) |}.

Definition smoothedSpacing
    (p : ParticleWithLocalRefinement) (measure transition_thickness : R) : R :=
  let ratio_ref := round (measure / round (2 * transition_thickness)) in
  let target_spacing := coarsest_spacing_bound_ p in
  if Rltb ratio_ref (KernelSize (kernel_ptr_ p))
  then
    let weight :=
      round (W_1D (kernel_ptr_ p) ratio_ref / W_1D (kernel_ptr_ p) 0) in
    round (round (weight * finest_spacing_bound_ p)
           + round (round (1 - weight) * coarsest_spacing_bound_ p))
  else target_spacing.

Definition ParticleSplitAndMerge_MostRefinedSpacing
    (coarse_particle_spacing : R) (local_refinement_level : Z) : R :=
  let minimum_spacing_particles := powerN 2 local_refinement_level in
  let spacing_ratio :=
    pow_lib minimum_spacing_particles (round (1 / IZR (Dimensions dim))) in
  round (coarse_particle_spacing / spacing_ratio).

(** The body of the constructor of [ParticleSplitAndMerge], on the base
    object [p] that the local-refinement constructor has built. *)
Definition ParticleSplitAndMerge_new
    (p : ParticleWithLocalRefinement) : ParticleSplitAndMerge :=
  let spacing_min :=
    ParticleSplitAndMerge_MostRefinedSpacing
      (spacing_ref_ p) (local_refinement_level_ p) in
  {| refinement :=
       {| adaptation :=
            {| h_spacing_ratio_ := h_spacing_ratio_ p;
               system_refinement_ratio_ := system_refinement_ratio_ p;
               local_refinement_level_ := local_refinement_level_ p;
               spacing_ref_ := spacing_ref_ p;
               h_ref_ := h_ref_ p;
               kernel_ptr_ := kernel_ptr_ p;
               sigma0_ref_ := sigma0_ref_ p;
               spacing_min_ := spacing_min;
               h_ratio_max_ := round (spacing_ref_ p / spacing_min);
               body_name_ := body_name_ p |};
          finest_spacing_bound_ := finest_spacing_bound_ p;
          coarsest_spacing_bound_ := coarsest_spacing_bound_ p |};
     minimum_volume_ := powerN spacing_min (Dimensions dim);
     maximum_volume_ := powerN (spacing_ref_ p) (Dimensions dim) |}.

(** What [ParticleSplitAndMerge::resetAdaptationRatios] adds to the inherited
    reset, on the object [p] that the inherited reset has left. *)
Definition ParticleSplitAndMerge_resetAdaptationRatios
    (p : ParticleWithLocalRefinement) : ParticleSplitAndMerge :=
  {| refinement := p;
     minimum_volume_ := powerN (spacing_min_ p) (Dimensions dim);
     maximum_volume_ := powerN (spacing_ref_ p) (Dimensions dim) |}.

Definition isSplitAllowed (s : ParticleSplitAndMerge) (current_volume : R) : bool :=
  if Rgtb (round (current_volume - round (2 * minimum_volume_ s))) (- Eps)
  then true else false.

Definition mergeResolutionCheck (s : ParticleSplitAndMerge) (volume : R) : bool :=
  if Rltb (round (volume
                  - round (literal_1_2
                           * powerN (spacing_min_ s) (Dimensions dim)))) Eps
  then true else false.

Definition ParticleSplitAndMerge_getCellLinkedListTotalLevel
    (s : ParticleSplitAndMerge) : Z :=
  size_t_of_int
    (1 + int_of_Real (floor (log2_lib (round (spacing_ref_ s / spacing_min_ s))))).



End Arithmetic.

End Rounded.

(** ** Properties under rounding *)

Section RoundedProperties.

(** What is assumed of the rounding throughout: it is monotone, it leaves a
    rounded value unchanged, it commutes with the change of sign, and it
    leaves 1 and [Eps] unchanged.  Three further facts hold as long as no
    result overflows or falls in the subnormal range: doubling and halving a
    double are exact, and the relative error of a rounding is at most half
    of [Eps].  Only the lemmas on the powers of two assume the first two at
    large; elsewhere a statement assumes what it needs of the value at
    hand. *)
Variable round : R -> R.
Variable Eps : R.
Variable dim : Dim.

Hypothesis round_le : forall x y : R, x <= y -> round x <= round y.
Hypothesis round_round : forall x : R, round (round x) = round x.
Hypothesis round_opp : forall x : R, round (- x) = - round x.
Hypothesis round_1 : round 1 = 1.
Hypothesis Eps_pos : 0 < Eps.
Hypothesis Eps_small : Eps < / 12.
Hypothesis round_Eps : round Eps = Eps.

Hypothesis round_double : forall x : R, round x = x -> round (2 * x) = 2 * x.
Hypothesis round_half : forall x : R, round x = x -> round (x / 2) = x / 2.

Lemma round_0 : round 0 = 0.
Proof.
  pose proof (round_opp 0) as H; rewrite Ropp_0 in H; lra.
Qed.

Lemma round_opp_Eps : round (- Eps) = - Eps.
Proof. rewrite round_opp, round_Eps; reflexivity. Qed.

(** A rounded value above a double comes from a value above it. *)
Lemma round_gt (x y : R) : round y = y -> y < round x -> y < x.
Proof.
  intros Hy Hlt.
  destruct (Rle_lt_dec x y) as [Hle | Hgt]; [| exact Hgt].
  apply round_le in Hle; rewrite Hy in Hle; lra.
Qed.


(** *** Powers of two *)

Lemma powerN_loop_2 (k : nat) (res : R) :
  round res = res ->
  Rounded.powerN_loop round 2 res k = res * 2 ^ k
  /\ round (res * 2 ^ k) = res * 2 ^ k.
Proof.
  revert res; induction k as [|k IH]; intros res Hres; simpl.
  - rewrite Rmult_1_r; split; [reflexivity | exact Hres].
  - assert (H2 : round (res * 2) = res * 2).
    { rewrite (Rmult_comm res 2); apply round_double; exact Hres. }
    rewrite H2.
    destruct (IH (res * 2) H2) as [E1 E2].
    replace (res * (2 * 2 ^ k)) with (res * 2 * 2 ^ k) by ring.
    split; assumption.
Qed.

Lemma powerN_2 (L : Z) : Rounded.powerN round 2 L = 2 ^ Z.to_nat L.
Proof.
  unfold Rounded.powerN.
  destruct (powerN_loop_2 (Z.to_nat L) 1 round_1) as [E _].
  rewrite E; ring.
Qed.

Lemma round_div_pow2 (x : R) (k : nat) :
  round x = x -> round (x / 2 ^ k) = x / 2 ^ k.
Proof.
  intros Hx; induction k as [|k IH]; simpl.
  - unfold Rdiv; rewrite Rinv_1, Rmult_1_r; exact Hx.
  - assert (Hpow : 0 < 2 ^ k) by (apply pow_lt; lra).
    replace (x / (2 * 2 ^ k)) with (x / 2 ^ k / 2) by (field; lra).
    apply round_half; exact IH.
Qed.

(** Without overflow and underflow the halvings of the base rule are
    exact. *)
Lemma SPHAdaptation_MostRefinedSpacing_halvings (spacing : R) (L : Z) :
  round spacing = spacing ->
  Rounded.SPHAdaptation_MostRefinedSpacing round spacing L
  = spacing / 2 ^ Z.to_nat L.
Proof.
  intros Hs; unfold Rounded.SPHAdaptation_MostRefinedSpacing.
  rewrite powerN_2; apply round_div_pow2; exact Hs.
Qed.

(** *** Split eligibility *)

Lemma isSplitAllowed_rounded_true (s : ParticleSplitAndMerge) (v : R) :
  Rounded.isSplitAllowed round Eps s v = true
  <-> round (v - round (2 * minimum_volume_ s)) > - Eps.
Proof.
  unfold Rounded.isSplitAllowed.
  destruct (Rgtb (round (v - round (2 * minimum_volume_ s))) (- Eps)) eqn:E.
  - apply Rgtb_true in E; split; [intros _; exact E | reflexivity].
  - apply Rgtb_false in E; split; [discriminate | lra].
Qed.

Lemma isSplitAllowed_above (s : ParticleSplitAndMerge) (v : R) :
  Rounded.isSplitAllowed round Eps s v = true ->
  v - round (2 * minimum_volume_ s) > - Eps.
Proof.
  intros H; apply isSplitAllowed_rounded_true in H.
  apply Rlt_gt, (round_gt _ _ round_opp_Eps); lra.
Qed.

Lemma isSplitAllowed_from (s : ParticleSplitAndMerge) (v : R) :
  round (2 * minimum_volume_ s) <= v ->
  Rounded.isSplitAllowed round Eps s v = true.
Proof.
  intros H; apply isSplitAllowed_rounded_true.
  assert (H0 : 0 <= v - round (2 * minimum_volume_ s)) by lra.
  apply round_le in H0; rewrite round_0 in H0; lra.
Qed.

Lemma isSplitAllowed_below (s : ParticleSplitAndMerge) (v : R) :
  v <= round (2 * minimum_volume_ s) - Eps ->
  Rounded.isSplitAllowed round Eps s v = false.
Proof.
  intros H.
  destruct (Rounded.isSplitAllowed round Eps s v) eqn:E; [| reflexivity].
  apply isSplitAllowed_above in E; lra.
Qed.

(** C4, as the code has it: on an object for which twice the minimum volume
    is a double, [isSplitAllowed v] holds exactly when the difference
    [v - 2 * minimum_volume], rounded, is above [- Eps].  It then holds
    only when the exact difference is above [- Eps], and it holds whenever
    [v] is at least twice the minimum volume, in particular at twice the
    minimum volume.  At the volume computed as
    [2 * minimum_volume - 10 * Eps] it fails if that volume is still at most
    [2 * minimum_volume - Eps], and it holds if the subtraction has been
    absorbed, the computed volume being [2 * minimum_volume] again. *)
Theorem C4_isSplitAllowed (s : ParticleSplitAndMerge) :
  round (2 * minimum_volume_ s) = 2 * minimum_volume_ s ->
  (forall v : R,
     Rounded.isSplitAllowed round Eps s v = true
     <-> round (v - 2 * minimum_volume_ s) > - Eps)
  /\ (forall v : R,
        Rounded.isSplitAllowed round Eps s v = true ->
        v - 2 * minimum_volume_ s > - Eps)
  /\ (forall v : R,
        2 * minimum_volume_ s <= v ->
        Rounded.isSplitAllowed round Eps s v = true)
  /\ Rounded.isSplitAllowed round Eps s (round (2 * minimum_volume_ s)) = true
  /\ (round (round (2 * minimum_volume_ s) - round (10 * Eps))
      <= 2 * minimum_volume_ s - Eps ->
      Rounded.isSplitAllowed round Eps s
        (round (round (2 * minimum_volume_ s) - round (10 * Eps))) = false)
  /\ (round (round (2 * minimum_volume_ s) - round (10 * Eps))
      = 2 * minimum_volume_ s ->
      Rounded.isSplitAllowed round Eps s
        (round (round (2 * minimum_volume_ s) - round (10 * Eps))) = true).
Proof.
  intros H2.
  split; [intros v; rewrite isSplitAllowed_rounded_true, H2; reflexivity |].
  split; [intros v Hv; apply isSplitAllowed_above in Hv; rewrite H2 in Hv; exact Hv |].
  split; [intros v Hv; apply isSplitAllowed_from; rewrite H2; exact Hv |].
  split; [apply isSplitAllowed_from; lra |].
  split.
  - intros Hv; apply isSplitAllowed_below; rewrite H2 at 2; exact Hv.
  - intros Hv; apply isSplitAllowed_from; rewrite Hv, H2; lra.
Qed.

(** *** Split and merge together *)







(** *** Ordering of the spacing bounds *)

Lemma smoothedSpacing_at_feature_rounded
    (p : ParticleWithLocalRefinement) (t : R) :
  0 < KernelSize (kernel_ptr_ p) -> W_1D (kernel_ptr_ p) 0 <> 0 ->
  round (finest_spacing_bound_ p) = finest_spacing_bound_ p ->
  Rounded.smoothedSpacing round p 0 t = finest_spacing_bound_ p.
Proof.
  intros Hk Hw Hf; unfold Rounded.smoothedSpacing.
  replace (0 / round (2 * t)) with 0 by (unfold Rdiv; ring).
  rewrite round_0.
  destruct (Rltb 0 (KernelSize (kernel_ptr_ p))) eqn:E;
    [| apply Rltb_false in E; lra].
  replace (W_1D (kernel_ptr_ p) 0 / W_1D (kernel_ptr_ p) 0) with 1
    by (field; exact Hw).
  rewrite round_1, Rmult_1_l, Hf.
  replace (1 - 1) with 0 by ring.
  rewrite round_0, Rmult_0_l, round_0, Rplus_0_r; exact Hf.
Qed.

(** C10, as the code has it: built at level 0 on a base object whose
    reference spacing is a double, the finest bound is the rounded
    [reference spacing + Eps] and the coarsest bound the rounded
    [reference spacing - Eps]; the finest bound is never below the coarsest
    bound, and it is above it exactly when one of the two roundings moves
    away from the reference spacing.  [smoothedSpacing] at measure 0 returns
    the finest bound, so a value at or above the coarsest bound.  At a level
    [L >= 0] at which the halvings of the reference spacing are exact, the
    finest bound is below the coarsest bound only when [L >= 1] and
    [reference spacing * (1 - 2^(-L)) > 2 * Eps]. *)
Theorem C10_bound_ordering (a : SPHAdaptation) :
  round (spacing_ref_ a) = spacing_ref_ a ->
  (finest_spacing_bound_ (Rounded.ParticleWithLocalRefinement_new round Eps a 0)
   = round (spacing_ref_ a + Eps)
   /\ coarsest_spacing_bound_
        (Rounded.ParticleWithLocalRefinement_new round Eps a 0)
      = round (spacing_ref_ a - Eps)
   /\ round (spacing_ref_ a - Eps) <= spacing_ref_ a
      <= round (spacing_ref_ a + Eps)
   /\ (round (spacing_ref_ a - Eps) < round (spacing_ref_ a + Eps)
       <-> round (spacing_ref_ a + Eps) <> spacing_ref_ a
           \/ round (spacing_ref_ a - Eps) <> spacing_ref_ a)
   /\ (0 < KernelSize (kernel_ptr_ a) -> W_1D (kernel_ptr_ a) 0 <> 0 ->
       forall t : R, 0 < t ->
       Rounded.smoothedSpacing round
         (Rounded.ParticleWithLocalRefinement_new round Eps a 0) 0 t
       = round (spacing_ref_ a + Eps)))
  /\ (forall L : Z, (0 <= L)%Z ->
      Rounded.SPHAdaptation_MostRefinedSpacing round (spacing_ref_ a) L
      = spacing_ref_ a / 2 ^ Z.to_nat L ->
      finest_spacing_bound_
        (Rounded.ParticleWithLocalRefinement_new round Eps a L)
      < coarsest_spacing_bound_
          (Rounded.ParticleWithLocalRefinement_new round Eps a L) ->
      (1 <= L)%Z /\ spacing_ref_ a * (1 - / 2 ^ Z.to_nat L) > 2 * Eps).
Proof.
  intros Hr.
  assert (Hlo : round (spacing_ref_ a - Eps) <= spacing_ref_ a).
  { rewrite <- Hr at 2; apply round_le; lra. }
  assert (Hhi : spacing_ref_ a <= round (spacing_ref_ a + Eps)).
  { rewrite <- Hr at 1; apply round_le; lra. }
  split.
  - assert (Hf : finest_spacing_bound_
                   (Rounded.ParticleWithLocalRefinement_new round Eps a 0)
                 = round (spacing_ref_ a + Eps)).
    { cbn [Rounded.ParticleWithLocalRefinement_new finest_spacing_bound_].
      unfold Rounded.SPHAdaptation_MostRefinedSpacing, Rounded.powerN.
      change (Z.to_nat 0) with 0%nat; cbn [Rounded.powerN_loop].
      replace (spacing_ref_ a / 1) with (spacing_ref_ a) by field.
      rewrite Hr; reflexivity. }
    split; [exact Hf |].
    split; [reflexivity |].
    split; [split; assumption |].
    split.
    + split.
      * intros Hlt.
        destruct (Req_dec_T (round (spacing_ref_ a + Eps)) (spacing_ref_ a))
          as [E | E]; [right; lra | left; exact E].
      * intros [E | E]; lra.
    + intros Hk Hw t Ht.
      rewrite <- Hf.
      apply smoothedSpacing_at_feature_rounded; [exact Hk | exact Hw |].
      rewrite Hf; apply round_round.
  - intros L HL Hmin.
    cbn [Rounded.ParticleWithLocalRefinement_new finest_spacing_bound_
         coarsest_spacing_bound_].
    rewrite Hmin; intros Hlt.
    assert (Hpow : 0 < 2 ^ Z.to_nat L) by (apply pow_lt; lra).
    assert (Hex : spacing_ref_ a / 2 ^ Z.to_nat L + Eps < spacing_ref_ a - Eps).
    { destruct (Rle_lt_dec (spacing_ref_ a - Eps)
                  (spacing_ref_ a / 2 ^ Z.to_nat L + Eps)) as [Hle | Hgt];
        [| exact Hgt].
      apply round_le in Hle; lra. }
    split.
    + destruct (Z.eq_dec L 0) as [-> | Hne]; [| lia].
      change (Z.to_nat 0) with 0%nat in Hex; simpl in Hex.
      exfalso; revert Hex; unfold Rdiv; rewrite Rinv_1; lra.
    + replace (spacing_ref_ a * (1 - / 2 ^ Z.to_nat L))
        with (spacing_ref_ a - spacing_ref_ a / 2 ^ Z.to_nat L) by (field; lra).
      lra.
Qed.

(** *** Level counts *)

(** C8: a local-refinement adaptation built at a level [L] (an [int], not
    negative) reports [L] cell-linked-list levels and [L + 1] level-set
    levels.  A split-and-merge adaptation reports one more than the cast of
    [floor (log2 (reference spacing / finest spacing))], both the quotient and
    the logarithm as the arithmetic and the library compute them: for a
    library value between 0 and 1024 the count is one more than the integer
    part of that value, between 1 and 1025, and it is the same for two
    objects with the same two spacings, whatever their levels. *)
Theorem C8_total_levels
    (log2_lib : R -> R) (a : SPHAdaptation) (L : Z) (s : ParticleSplitAndMerge) :
  (0 <= L < 2 ^ 31)%Z ->
  0 <= log2_lib (round (spacing_ref_ s / spacing_min_ s)) <= 1024 ->
  ParticleWithLocalRefinement_getCellLinkedListTotalLevel
    (Rounded.ParticleWithLocalRefinement_new round Eps a L) = L
  /\ ParticleWithLocalRefinement_getLevelSetTotalLevel
       (Rounded.ParticleWithLocalRefinement_new round Eps a L) = (L + 1)%Z
  /\ Rounded.ParticleSplitAndMerge_getCellLinkedListTotalLevel round log2_lib s
     = (1 + Int_part (log2_lib (round (spacing_ref_ s / spacing_min_ s))))%Z
  /\ (1 <= Rounded.ParticleSplitAndMerge_getCellLinkedListTotalLevel
             round log2_lib s <= 1025)%Z
  /\ (forall s1 s2 : ParticleSplitAndMerge,
        spacing_ref_ s1 = spacing_ref_ s2 ->
        spacing_min_ s1 = spacing_min_ s2 ->
        Rounded.ParticleSplitAndMerge_getCellLinkedListTotalLevel
          round log2_lib s1
        = Rounded.ParticleSplitAndMerge_getCellLinkedListTotalLevel
            round log2_lib s2).
Proof.
  intros HL Hlog.
  assert (Hcell : ParticleWithLocalRefinement_getCellLinkedListTotalLevel
                    (Rounded.ParticleWithLocalRefinement_new round Eps a L) = L).
  { unfold ParticleWithLocalRefinement_getCellLinkedListTotalLevel; simpl.
    apply size_t_of_int_small; lia. }
  set (y := log2_lib (round (spacing_ref_ s / spacing_min_ s))) in *.
  assert (Hint : (0 <= Int_part y <= 1024)%Z).
  { split; [apply Int_part_nonneg; lra |].
    assert (Int_part y < 1025)%Z by (apply Int_part_le; lra).
    lia. }
  assert (Hcount : Rounded.ParticleSplitAndMerge_getCellLinkedListTotalLevel
                     round log2_lib s = (1 + Int_part y)%Z).
  { unfold Rounded.ParticleSplitAndMerge_getCellLinkedListTotalLevel.
    fold y; rewrite int_of_Real_floor.
    apply size_t_of_int_small; lia. }
  split; [exact Hcell |].
  split.
  { unfold ParticleWithLocalRefinement_getLevelSetTotalLevel, getLevelSetTotalLevel.
    rewrite Hcell; apply size_t_of_int_small; lia. }
  split; [exact Hcount |].
  split; [rewrite Hcount; lia |].
  intros s1 s2 Href Hmin.
  unfold Rounded.ParticleSplitAndMerge_getCellLinkedListTotalLevel.
  rewrite Href, Hmin; reflexivity.
Qed.

End RoundedProperties.

(** ** A rounding to nearest

    The doubles without the bounds on the exponent: the reals [n * 2^e] with
    [|n| < 2^53].  [round_binary64] takes a real to the nearest of them, to
    the one with the even [n] when two are as near. *)

Definition bpow (e : Z) : R := powerRZ 2 e.

(** The exponent [e] with [2^(e-1) <= |x| < 2^e]. *)
Definition mag (x : R) : Z := (Int_part (ln (Rabs x) / ln 2) + 1)%Z.

(** The nearest integer, the even one at a tie. *)
Definition rne (x : R) : Z :=
  let f := Int_part x in
  if Rlt_dec (x - IZR f) (/ 2) then f
  else if Rlt_dec (/ 2) (x - IZR f) then (f + 1)%Z
  else if Z.even f then f else (f + 1)%Z.

Definition round_binary64 (x : R) : R :=
  if Req_dec_T x 0 then 0
  else IZR (rne (x * bpow (53 - mag x))) * bpow (mag x - 53).

(** *** Powers of two *)

Lemma bpow_pos (e : Z) : 0 < bpow e.
Proof. apply powerRZ_lt; lra. Qed.

Lemma bpow_add (a b : Z) : bpow (a + b) = bpow a * bpow b.
Proof. apply powerRZ_add; lra. Qed.

Lemma bpow_0 : bpow 0 = 1.
Proof. reflexivity. Qed.

Lemma bpow_IZR (e : Z) : (0 <= e)%Z -> bpow e = IZR (2 ^ e).
Proof.
  intros He; unfold bpow.
  rewrite <- (Z2Nat.id e He), <- pow_powerRZ, <- pow_IZR; reflexivity.
Qed.

Lemma bpow_ge_1 (e : Z) : (0 <= e)%Z -> 1 <= bpow e.
Proof.
  intros He; rewrite (bpow_IZR e He).
  apply IZR_le.
  assert (0 < 2 ^ e)%Z by (apply Z.pow_pos_nonneg; lia).
  lia.
Qed.

Lemma bpow_le (a b : Z) : (a <= b)%Z -> bpow a <= bpow b.
Proof.
  intros Hab.
  replace b with (a + (b - a))%Z by ring.
  rewrite bpow_add.
  pose proof (bpow_pos a); pose proof (bpow_ge_1 (b - a)).
  assert (1 <= bpow (b - a)) by (apply bpow_ge_1; lia).
  nra.
Qed.

Lemma bpow_lt (a b : Z) : (a < b)%Z -> bpow a < bpow b.
Proof.
  intros Hab.
  apply Rlt_le_trans with (bpow (a + 1)); [| apply bpow_le; lia].
  rewrite bpow_add.
  change (bpow 1) with (2 * 1).
  pose proof (bpow_pos a); lra.
Qed.

Lemma bpow_lt_inv (a b : Z) : bpow a < bpow b -> (a < b)%Z.
Proof.
  intros H.
  destruct (Z_lt_le_dec a b) as [Hlt | Hle]; [exact Hlt |].
  apply bpow_le in Hle; lra.
Qed.

Lemma bpow_opp (e : Z) : bpow e * bpow (- e) = 1.
Proof. rewrite <- bpow_add, Z.add_opp_diag_r; reflexivity. Qed.

(** *** The exponent of a real *)

Lemma bpow_exp (e : Z) : bpow e = exp (IZR e * ln 2).
Proof.
  unfold bpow; rewrite powerRZ_Rpower by lra; reflexivity.
Qed.

Lemma mag_spec (x : R) :
  x <> 0 -> bpow (mag x - 1) <= Rabs x < bpow (mag x).
Proof.
  intros Hx.
  assert (Ha : 0 < Rabs x) by (apply Rabs_pos_lt; exact Hx).
  pose proof ln_2_pos as H2.
  unfold mag.
  set (l := ln (Rabs x) / ln 2).
  destruct (base_Int_part l) as [Hlo Hhi].
  assert (El : l * ln 2 = ln (Rabs x)) by (unfold l; field; lra).
  assert (Ex : exp (l * ln 2) = Rabs x) by (rewrite El; apply exp_ln; exact Ha).
  replace (Int_part l + 1 - 1)%Z with (Int_part l) by ring.
  rewrite !bpow_exp, plus_IZR, <- Ex.
  split.
  - destruct (Req_dec_T (IZR (Int_part l)) l) as [E | E].
    + rewrite E; lra.
    + left; apply exp_increasing; nra.
  - apply exp_increasing; nra.
Qed.

Lemma mag_unique (x : R) (e : Z) :
  bpow (e - 1) <= Rabs x < bpow e -> mag x = e.
Proof.
  intros [Hlo Hhi].
  assert (Hx : x <> 0).
  { intros ->; rewrite Rabs_R0 in Hlo; pose proof (bpow_pos (e - 1)); lra. }
  destruct (mag_spec x Hx) as [Mlo Mhi].
  assert (H1 : (e - 1 < mag x)%Z) by (apply bpow_lt_inv; lra).
  assert (H2 : (mag x - 1 < e)%Z) by (apply bpow_lt_inv; lra).
  lia.
Qed.

Lemma mag_opp (x : R) : mag (- x) = mag x.
Proof. unfold mag; rewrite Rabs_Ropp; reflexivity. Qed.

Lemma mag_double (x : R) : x <> 0 -> mag (2 * x) = (mag x + 1)%Z.
Proof.
  intros Hx; destruct (mag_spec x Hx) as [Mlo Mhi].
  apply mag_unique.
  rewrite Rabs_mult, (Rabs_pos_eq 2) by lra.
  replace (mag x + 1 - 1)%Z with (1 + (mag x - 1))%Z by ring.
  rewrite (Z.add_comm (mag x) 1), !bpow_add.
  change (bpow 1) with (2 * 1); lra.
Qed.

Lemma mag_le (x y : R) : 0 < x -> x <= y -> (mag x <= mag y)%Z.
Proof.
  intros Hx Hxy.
  destruct (mag_spec x) as [Xlo Xhi]; [lra |].
  destruct (mag_spec y) as [Ylo Yhi]; [lra |].
  rewrite Rabs_pos_eq in Xlo, Xhi by lra.
  rewrite Rabs_pos_eq in Ylo, Yhi by lra.
  assert (mag x - 1 < mag y)%Z by (apply bpow_lt_inv; lra).
  lia.
Qed.

(** *** The nearest integer *)

Lemma Int_part_mono (x y : R) : x <= y -> (Int_part x <= Int_part y)%Z.
Proof.
  intros Hxy.
  destruct (base_Int_part x) as [Hx _]; destruct (base_Int_part y) as [_ Hy].
  assert (H : IZR (Int_part x) < IZR (Int_part y + 1)).
  { rewrite plus_IZR; lra. }
  apply lt_IZR in H; lia.
Qed.

Lemma rne_IZR (n : Z) : rne (IZR n) = n.
Proof.
  unfold rne; rewrite Int_part_IZR.
  destruct (Rlt_dec (IZR n - IZR n) (/ 2)) as [_ | H]; [reflexivity | lra].
Qed.

Lemma rne_cases (x : R) :
  (rne x = Int_part x /\ x - IZR (Int_part x) <= / 2)
  \/ (rne x = (Int_part x + 1)%Z /\ / 2 <= x - IZR (Int_part x)).
Proof.
  unfold rne.
  destruct (Rlt_dec (x - IZR (Int_part x)) (/ 2)) as [H | H]; [left; split; [reflexivity | lra] |].
  destruct (Rlt_dec (/ 2) (x - IZR (Int_part x))) as [H' | H'];
    [right; split; [reflexivity | lra] |].
  destruct (Z.even (Int_part x)); [left | right]; split; try reflexivity; lra.
Qed.

Lemma rne_error (x : R) : Rabs (IZR (rne x) - x) <= / 2.
Proof.
  destruct (base_Int_part x) as [Hlo Hhi].
  apply Rabs_le.
  destruct (rne_cases x) as [[-> H] | [-> H]]; [| rewrite plus_IZR]; lra.
Qed.

Lemma rne_above_half (x : R) :
  / 2 < x - IZR (Int_part x) -> rne x = (Int_part x + 1)%Z.
Proof.
  intros H; unfold rne.
  destruct (Rlt_dec (x - IZR (Int_part x)) (/ 2)) as [H1 | H1]; [lra |].
  destruct (Rlt_dec (/ 2) (x - IZR (Int_part x))) as [H2 | H2]; [reflexivity | lra].
Qed.

Lemma rne_le (x y : R) : x <= y -> (rne x <= rne y)%Z.
Proof.
  intros [Hxy | ->]; [| lia].
  pose proof (Int_part_mono x y (Rlt_le _ _ Hxy)) as Hf.
  destruct (Z.eq_dec (Int_part x) (Int_part y)) as [E | NE].
  - destruct (rne_cases x) as [[Ex _] | [Ex Hx]].
    + destruct (rne_cases y) as [[Ey _] | [Ey _]]; lia.
    + rewrite E in Hx.
      rewrite (rne_above_half y) by lra.
      lia.
  - destruct (rne_cases x) as [[-> _] | [-> _]];
      destruct (rne_cases y) as [[-> _] | [-> _]]; lia.
Qed.

Lemma Int_part_opp (x : R) :
  x <> IZR (Int_part x) -> Int_part (- x) = (- Int_part x - 1)%Z.
Proof.
  intros Hx; symmetry; apply Int_part_spec.
  destruct (base_Int_part x) as [Hlo Hhi].
  rewrite minus_IZR, opp_IZR; split; lra.
Qed.

Lemma rne_opp (x : R) : rne (- x) = (- rne x)%Z.
Proof.
  destruct (Req_dec_T x (IZR (Int_part x))) as [E | NE].
  - rewrite E, <- opp_IZR, !rne_IZR; reflexivity.
  - unfold rne; rewrite (Int_part_opp x NE).
    destruct (base_Int_part x) as [Hlo Hhi].
    rewrite minus_IZR, opp_IZR.
    assert (Heven : Z.even (- Int_part x - 1) = negb (Z.even (Int_part x))).
    { replace (- Int_part x - 1)%Z with (- (Int_part x + 1))%Z by ring.
      rewrite Z.even_opp, Z.even_add; simpl.
      destruct (Z.even (Int_part x)); reflexivity. }
    rewrite Heven.
    destruct (Rlt_dec (x - IZR (Int_part x)) (/ 2)) as [H1 | H1];
      destruct (Rlt_dec (- x - (- IZR (Int_part x) - 1)) (/ 2)) as [H2 | H2];
      try lra.
    + destruct (Rlt_dec (/ 2) (- x - (- IZR (Int_part x) - 1))) as [H3 | H3];
        [lia | lra].
    + destruct (Rlt_dec (/ 2) (x - IZR (Int_part x))) as [H3 | H3]; [lia | lra].
    + destruct (Rlt_dec (/ 2) (x - IZR (Int_part x))) as [H3 | H3]; [lra |].
      destruct (Rlt_dec (/ 2) (- x - (- IZR (Int_part x) - 1))) as [H4 | H4];
        [lra |].
      destruct (Z.even (Int_part x)); simpl; lia.
Qed.

(** *** The rounding *)

Lemma round_binary64_0 : round_binary64 0 = 0.
Proof.
  unfold round_binary64; destruct (Req_dec_T 0 0) as [_ | H]; [reflexivity | lra].
Qed.

Lemma round_binary64_nonzero (x : R) :
  x <> 0 ->
  round_binary64 x = IZR (rne (x * bpow (53 - mag x))) * bpow (mag x - 53).
Proof.
  intros Hx; unfold round_binary64.
  destruct (Req_dec_T x 0) as [E | _]; [contradiction | reflexivity].
Qed.

Lemma round_binary64_opp (x : R) : round_binary64 (- x) = - round_binary64 x.
Proof.
  destruct (Req_dec_T x 0) as [-> | Hx].
  - rewrite Ropp_0, round_binary64_0; ring.
  - rewrite !round_binary64_nonzero by lra.
    rewrite mag_opp.
    replace (- x * bpow (53 - mag x)) with (- (x * bpow (53 - mag x))) by ring.
    rewrite rne_opp, opp_IZR; ring.
Qed.

Lemma scaled_range (x : R) :
  0 < x -> bpow 52 <= x * bpow (53 - mag x) < bpow 53.
Proof.
  intros Hx.
  destruct (mag_spec x) as [Mlo Mhi]; [lra |].
  rewrite Rabs_pos_eq in Mlo, Mhi by lra.
  pose proof (bpow_pos (53 - mag x)) as Hb.
  assert (E52 : bpow 52 = bpow (mag x - 1) * bpow (53 - mag x)).
  { rewrite <- bpow_add; f_equal; ring. }
  assert (E53 : bpow 53 = bpow (mag x) * bpow (53 - mag x)).
  { rewrite <- bpow_add; f_equal; ring. }
  rewrite E52, E53; split.
  - apply Rmult_le_compat_r; lra.
  - apply Rmult_lt_compat_r; lra.
Qed.

Lemma rne_scaled_range (x : R) :
  0 < x -> (2 ^ 52 <= rne (x * bpow (53 - mag x)) <= 2 ^ 53)%Z.
Proof.
  intros Hx; destruct (scaled_range x Hx) as [Hlo Hhi].
  rewrite (bpow_IZR 52) in Hlo by lia.
  rewrite (bpow_IZR 53) in Hhi by lia.
  split.
  - rewrite <- (rne_IZR (2 ^ 52)); apply rne_le; exact Hlo.
  - rewrite <- (rne_IZR (2 ^ 53)); apply rne_le; lra.
Qed.

Lemma round_binary64_range (x : R) :
  0 < x -> bpow (mag x - 1) <= round_binary64 x <= bpow (mag x).
Proof.
  intros Hx; rewrite round_binary64_nonzero by lra.
  destruct (rne_scaled_range x Hx) as [Hlo Hhi].
  apply IZR_le in Hlo, Hhi.
  rewrite <- (bpow_IZR 52) in Hlo by lia.
  rewrite <- (bpow_IZR 53) in Hhi by lia.
  pose proof (bpow_pos (mag x - 53)) as Hb.
  assert (Elo : bpow (mag x - 1) = bpow 52 * bpow (mag x - 53)).
  { rewrite <- bpow_add; f_equal; ring. }
  assert (Ehi : bpow (mag x) = bpow 53 * bpow (mag x - 53)).
  { rewrite <- bpow_add; f_equal; ring. }
  rewrite Elo, Ehi; split; apply Rmult_le_compat_r; lra.
Qed.

Lemma round_binary64_le_pos (x y : R) :
  0 < x -> x <= y -> round_binary64 x <= round_binary64 y.
Proof.
  intros Hx Hxy.
  pose proof (mag_le x y Hx Hxy) as Hm.
  destruct (Z.eq_dec (mag x) (mag y)) as [E | NE].
  - rewrite !round_binary64_nonzero by lra.
    rewrite E.
    apply Rmult_le_compat_r; [left; apply bpow_pos |].
    apply IZR_le, rne_le.
    apply Rmult_le_compat_r; [left; apply bpow_pos | exact Hxy].
  - destruct (round_binary64_range x Hx) as [_ Hhi].
    destruct (round_binary64_range y) as [Hlo _]; [lra |].
    assert (bpow (mag x) <= bpow (mag y - 1)) by (apply bpow_le; lia).
    lra.
Qed.

Lemma round_binary64_pos (x : R) : 0 < x -> 0 < round_binary64 x.
Proof.
  intros Hx; destruct (round_binary64_range x Hx) as [Hlo _].
  pose proof (bpow_pos (mag x - 1)); lra.
Qed.

Lemma round_binary64_le (x y : R) :
  x <= y -> round_binary64 x <= round_binary64 y.
Proof.
  intros Hxy.
  destruct (Rtotal_order x 0) as [Hx | [-> | Hx]].
  - assert (Hnx : round_binary64 x < 0).
    { replace x with (- - x) by ring; rewrite round_binary64_opp.
      assert (0 < round_binary64 (- x)) by (apply round_binary64_pos; lra).
      lra. }
    destruct (Rtotal_order y 0) as [Hy | [-> | Hy]].
    + replace x with (- - x) by ring; replace y with (- - y) by ring.
      rewrite (round_binary64_opp (- x)), (round_binary64_opp (- y)).
      assert (round_binary64 (- y) <= round_binary64 (- x)).
      { apply round_binary64_le_pos; lra. }
      lra.
    + rewrite round_binary64_0; lra.
    + assert (0 < round_binary64 y) by (apply round_binary64_pos; lra).
      lra.
  - rewrite round_binary64_0.
    destruct Hxy as [Hy | <-]; [| rewrite round_binary64_0; lra].
    left; apply round_binary64_pos; exact Hy.
  - apply round_binary64_le_pos; assumption.
Qed.

(** The doubles are left unchanged. *)
Lemma round_binary64_double_value (n e : Z) :
  (Z.abs n < 2 ^ 53)%Z ->
  round_binary64 (IZR n * bpow e) = IZR n * bpow e.
Proof.
  intros Hn.
  destruct (Z.eq_dec n 0) as [-> | Hn0].
  - rewrite Rmult_0_l; apply round_binary64_0.
  - pose proof (bpow_pos e) as He.
    assert (HnR : IZR n <> 0) by (apply not_0_IZR; exact Hn0).
    assert (Hx : IZR n * bpow e <> 0).
    { apply Rmult_integral_contrapositive_currified; lra. }
    rewrite round_binary64_nonzero by exact Hx.
    set (m := mag (IZR n * bpow e)).
    destruct (mag_spec _ Hx) as [Mlo Mhi]; fold m in Mlo, Mhi.
    rewrite Rabs_mult, (Rabs_pos_eq (bpow e)) in Mlo, Mhi by lra.
    assert (Habs : Rabs (IZR n) < bpow 53).
    { rewrite <- abs_IZR, (bpow_IZR 53) by lia; apply IZR_lt; exact Hn. }
    assert (Hk : (m - 1 < 53 + e)%Z).
    { apply bpow_lt_inv; rewrite bpow_add.
      apply Rle_lt_trans with (Rabs (IZR n) * bpow e); [exact Mlo |].
      apply Rmult_lt_compat_r; lra. }
    replace (IZR n * bpow e * bpow (53 - m))
      with (IZR (n * 2 ^ (e + 53 - m))).
    + rewrite rne_IZR, mult_IZR, <- bpow_IZR by lia.
      rewrite Rmult_assoc, <- bpow_add.
      f_equal; f_equal; ring.
    + rewrite mult_IZR, <- bpow_IZR by lia.
      rewrite Rmult_assoc, <- bpow_add.
      f_equal; f_equal; ring.
Qed.

Lemma round_binary64_round (x : R) :
  round_binary64 (round_binary64 x) = round_binary64 x.
Proof.
  assert (Hpos : forall y : R, 0 < y ->
            round_binary64 (round_binary64 y) = round_binary64 y).
  { intros y Hy.
    rewrite (round_binary64_nonzero y) by lra.
    destruct (rne_scaled_range y Hy) as [Hlo Hhi].
    destruct (Z.eq_dec (rne (y * bpow (53 - mag y))) (2 ^ 53)) as [E | NE].
    - rewrite E, <- (bpow_IZR 53), <- bpow_add by lia.
      rewrite <- (Rmult_1_l (bpow _)).
      apply (round_binary64_double_value 1); reflexivity.
    - apply round_binary64_double_value; lia. }
  destruct (Rtotal_order x 0) as [Hx | [-> | Hx]].
  - replace x with (- - x) by ring.
    rewrite (round_binary64_opp (- x)), round_binary64_opp, Hpos by lra.
    reflexivity.
  - rewrite !round_binary64_0; reflexivity.
  - apply Hpos; exact Hx.
Qed.

Lemma round_binary64_twice (x : R) :
  round_binary64 (2 * x) = 2 * round_binary64 x.
Proof.
  destruct (Req_dec_T x 0) as [-> | Hx].
  - rewrite Rmult_0_r, round_binary64_0; ring.
  - rewrite !round_binary64_nonzero by lra.
    rewrite (mag_double x Hx).
    replace (2 * x * bpow (53 - (mag x + 1))) with (x * bpow (53 - mag x)).
    + replace (mag x + 1 - 53)%Z with (1 + (mag x - 53))%Z by ring.
      rewrite bpow_add; change (bpow 1) with (2 * 1); ring.
    + replace (53 - mag x)%Z with (1 + (53 - (mag x + 1)))%Z by ring.
      rewrite bpow_add; change (bpow 1) with (2 * 1); ring.
Qed.

Lemma round_binary64_double (x : R) :
  round_binary64 x = x -> round_binary64 (2 * x) = 2 * x.
Proof. intros Hx; rewrite round_binary64_twice, Hx; reflexivity. Qed.

Lemma round_binary64_half (x : R) :
  round_binary64 x = x -> round_binary64 (x / 2) = x / 2.
Proof.
  intros Hx.
  pose proof (round_binary64_twice (x / 2)) as H.
  replace (2 * (x / 2)) with x in H by field.
  lra.
Qed.

Lemma round_binary64_1 : round_binary64 1 = 1.
Proof.
  replace 1 with (IZR 1 * bpow 0) by (rewrite bpow_0; ring).
  apply round_binary64_double_value; reflexivity.
Qed.


Lemma bpow_m52 : bpow (-52) = / 2 ^ 52.
Proof. reflexivity. Qed.

Lemma round_binary64_Eps : round_binary64 Eps_double = Eps_double.
Proof.
  unfold Eps_double; rewrite <- bpow_m52, <- (Rmult_1_l (bpow _)).
  apply (round_binary64_double_value 1); reflexivity.
Qed.


Lemma rne_near (x : R) (n : Z) : Rabs (x - IZR n) < / 2 -> rne x = n.
Proof.
  intros Hn.
  pose proof (rne_error x) as He.
  apply Rabs_def2 in Hn; destruct Hn as [Hn1 Hn2].
  assert (He' : - / 2 <= IZR (rne x) - x <= / 2).
  { split.
    - pose proof (Rle_trans _ _ _ (Rle_abs (- (IZR (rne x) - x)))
                    (eq_ind_r (fun t => t <= / 2) He (Rabs_Ropp _))) as H.
      lra.
    - exact (Rle_trans _ _ _ (Rle_abs _) He). }
  assert (H1 : IZR (rne x) < IZR (n + 1)) by (rewrite plus_IZR; lra).
  assert (H2 : IZR (n - 1) < IZR (rne x)) by (rewrite minus_IZR; lra).
  apply lt_IZR in H1, H2; lia.
Qed.

(** A real within half a unit in the last place of a double inside a binade
    rounds to that double. *)
Lemma round_binary64_near (x : R) (n e : Z) :
  (2 ^ 52 < n < 2 ^ 53)%Z ->
  Rabs (x - IZR n * bpow e) < / 2 * bpow e ->
  round_binary64 x = IZR n * bpow e.
Proof.
  intros [Hlo Hhi] Hx.
  pose proof (bpow_pos e) as He.
  apply Rabs_def2 in Hx; destruct Hx as [Hx1 Hx2].
  assert (Hlo' : IZR (2 ^ 52 + 1) <= IZR n) by (apply IZR_le; lia).
  assert (Hhi' : IZR n <= IZR (2 ^ 53 - 1)) by (apply IZR_le; lia).
  rewrite plus_IZR in Hlo'; rewrite minus_IZR in Hhi'.
  rewrite <- (bpow_IZR 52) in Hlo' by lia.
  rewrite <- (bpow_IZR 53) in Hhi' by lia.
  assert (Hpos : 0 < x).
  { pose proof (bpow_pos 52); nra. }
  assert (Hm : mag x = (e + 53)%Z).
  { apply mag_unique; rewrite Rabs_pos_eq by lra.
    replace (e + 53 - 1)%Z with (52 + e)%Z by ring.
    rewrite (Z.add_comm e 53), !bpow_add; split; nra. }
  rewrite round_binary64_nonzero by lra.
  rewrite Hm.
  replace (53 - (e + 53))%Z with (- e)%Z by ring.
  replace (e + 53 - 53)%Z with e by ring.
  f_equal; f_equal; apply rne_near.
  pose proof (bpow_opp e) as Hinv.
  pose proof (bpow_pos (- e)) as Hne.
  replace (x * bpow (- e) - IZR n)
    with ((x - IZR n * bpow e) * bpow (- e)) by nra.
  apply Rabs_def1.
  - apply Rmult_lt_reg_r with (bpow e); [exact He |].
    rewrite Rmult_assoc, (Rmult_comm (bpow (- e))), Hinv; lra.
  - apply Rmult_lt_reg_r with (bpow e); [exact He |].
    rewrite Rmult_assoc, (Rmult_comm (bpow (- e))), Hinv; lra.
Qed.

(** ** Evaluation in binary64

    The same expressions on the primitive binary64 numbers, whose operations
    round to nearest, ties to even. *)

Module Binary64.

Import Floats.
Local Open Scope float_scope.

(** Modelled from the spec: [powerN], as repeated multiplication from 1. *)
Fixpoint powerN_loop (a res : float) (k : nat) : float :=
  match k with
  | O => res
  | S k' => powerN_loop a (res * a) k'
  end.

Definition powerN (a : float) (n : Z) : float := powerN_loop a 1 (Z.to_nat n).

Definition SPHAdaptation_MostRefinedSpacing
    (coarse_particle_spacing : float) (refinement_level : Z) : float :=
  coarse_particle_spacing / powerN 2 refinement_level.

(** The two bounds that the constructor of [ParticleWithLocalRefinement]
    sets, from the reference spacing of the base object. *)
Definition finest_spacing_bound_
    (Eps spacing_ref_ : float) (local_refinement_level : Z) : float :=
  SPHAdaptation_MostRefinedSpacing spacing_ref_ local_refinement_level + Eps.

Definition coarsest_spacing_bound_ (Eps spacing_ref_ : float) : float :=
  spacing_ref_ - Eps.

Definition smoothedSpacing
    (KernelSize : float) (W_1D : float -> float)
    (finest_spacing_bound_ coarsest_spacing_bound_ : float)
    (measure transition_thickness : float) : float :=
  let ratio_ref := measure / (2 * transition_thickness) in
  let target_spacing := coarsest_spacing_bound_ in
  if ratio_ref <? KernelSize
  then
    let weight := W_1D ratio_ref / W_1D 0 in
    weight * finest_spacing_bound_ + (1 - weight) * coarsest_spacing_bound_
  else target_spacing.

Definition isSplitAllowed (Eps minimum_volume_ current_volume : float) : bool :=
  if - Eps <? current_volume - 2 * minimum_volume_ then true else false.

(** The radial profile of a kernel that falls linearly to the edge of its
    support. *)
Definition hat_profile (q : float) : float := 1 - 0x1p-1 * q.

End Binary64.

Section Binary64Evaluation.

Import Floats.

(** At a minimum volume of 25 the subtraction of ten tolerances is absorbed:
    the volume computed as [2 * 25 - 10 * Eps] is 50, and the split test holds
    on it.  This is so for [Eps] the machine epsilon [2^-52] and for [Eps] the
    double written [2.22045e-16]. *)
Lemma isSplitAllowed_margin_absorbed :
  (2 * 25 - 10 * 0x1p-52 = 50)%float
  /\ Binary64.isSplitAllowed 0x1p-52 25 (2 * 25 - 10 * 0x1p-52)%float = true
  /\ Binary64.isSplitAllowed 0x1.00001dd9dc7d3p-52 25
       (2 * 25 - 10 * 0x1.00001dd9dc7d3p-52)%float = true.
Proof. repeat split; reflexivity. Qed.

(** At a reference spacing of 5 and level 0 both bounds are the reference
    spacing itself, and [smoothedSpacing] at measure 0 returns it. *)
Lemma spacing_bounds_margin_absorbed :
  Binary64.finest_spacing_bound_ 0x1p-52 5 0 = 5%float
  /\ Binary64.coarsest_spacing_bound_ 0x1p-52 5 = 5%float
  /\ Binary64.smoothedSpacing 2 Binary64.hat_profile
       (Binary64.finest_spacing_bound_ 0x1p-52 5 0)
       (Binary64.coarsest_spacing_bound_ 0x1p-52 5) 0 0x1p-3 = 5%float
  /\ Binary64.finest_spacing_bound_ 0x1.00001dd9dc7d3p-52 5 0 = 5%float
  /\ Binary64.coarsest_spacing_bound_ 0x1.00001dd9dc7d3p-52 5 = 5%float.
Proof. repeat split; reflexivity. Qed.

(** No double has 2.5 times the machine epsilon as its square or as its cube:
    of two neighbouring doubles, one has its square below and the other its
    square above, and likewise for the cube. *)
Lemma minimum_volume_skips_bound :
  (next_up 0x1.94c583ada5b52p-26 = 0x1.94c583ada5b53p-26
   /\ (Binary64.powerN 0x1.94c583ada5b52p-26 2 <? 0x1.4p-51) = true
   /\ (0x1.4p-51 <? Binary64.powerN 0x1.94c583ada5b53p-26 2) = true
   /\ next_up 0x1.13c484138704ep-17 = 0x1.13c484138704fp-17
   /\ (Binary64.powerN 0x1.13c484138704ep-17 3 <? 0x1.4p-51) = true
   /\ (0x1.4p-51 <? Binary64.powerN 0x1.13c484138704fp-17 3) = true)%float.
Proof. repeat split; reflexivity. Qed.

End Binary64Evaluation.

(** ** The statements at concrete objects

    Two-dimensional builds under [round_binary64], with the machine epsilon
    for [Eps], a correctly rounded [pow] and the mathematical [log2]. *)

Definition pow_nearest (x y : R) : R := round_binary64 (Rpower x y).

(** A body resolved at a quarter, and a body resolved at 5. *)
Definition quarter_body : SPHBody :=
  {| resolution_ref_ := / 4; getName := "QuarterBody" |}.

Definition coarse_body : SPHBody :=
  {| resolution_ref_ := 5; getName := "CoarseBody" |}.

Definition base_adaptation (body : SPHBody) : SPHAdaptation :=
  SPHAdaptation_of_body Dim2 wendland_kernel wendland_kernel body 1.3 1.

Definition rounded_refinement (body : SPHBody) (L : Z)
    : ParticleWithLocalRefinement :=
  Rounded.ParticleWithLocalRefinement_new round_binary64 Eps_double
    (base_adaptation body) L.

Definition rounded_split_merge (body : SPHBody) (L : Z) : ParticleSplitAndMerge :=
  Rounded.ParticleSplitAndMerge_new round_binary64 pow_nearest Dim2
    (rounded_refinement body L).

(** [double_value n e] proves that [round_binary64] leaves [n * 2^e]
    unchanged. *)
Ltac double_value n e :=
  match goal with
  | |- round_binary64 ?x = ?y =>
      let Hx := fresh "Hx" in
      let Hy := fresh "Hy" in
      assert (Hx : x = IZR n * bpow e)
        by (unfold bpow, Eps_double; simpl; lra);
      assert (Hy : y = IZR n * bpow e)
        by (unfold bpow, Eps_double; simpl; lra);
      refine (eq_trans (f_equal round_binary64 Hx)
                (eq_trans (round_binary64_double_value n e _) (eq_sym Hy)));
      reflexivity
  end.


Lemma round_binary64_quarter : round_binary64 (/ 4) = / 4.
Proof. double_value 1%Z (-2)%Z. Qed.

Lemma round_binary64_5 : round_binary64 5 = 5.
Proof. double_value 5%Z 0%Z. Qed.

Lemma base_adaptation_spacing (body : SPHBody) :
  spacing_ref_ (base_adaptation body) = resolution_ref_ body.
Proof. simpl; field. Qed.

Lemma powerN_binary64_2 (L : Z) :
  Rounded.powerN round_binary64 2 L = 2 ^ Z.to_nat L.
Proof. apply powerN_2; [exact round_binary64_1 | exact round_binary64_double]. Qed.

Lemma powerN_binary64_square (x : R) :
  round_binary64 x = x ->
  Rounded.powerN round_binary64 x 2 = round_binary64 (x * x).
Proof.
  intros Hx; unfold Rounded.powerN.
  change (Z.to_nat 2) with 2%nat; simpl.
  rewrite Rmult_1_l, Hx; reflexivity.
Qed.

(** The split-and-merge adaptation of the quarter body at level 2: the
    finest spacing is an eighth, the minimum volume its square. *)
Lemma quarter_split_merge_level2 :
  spacing_ref_ (rounded_split_merge quarter_body 2) = / 4
  /\ spacing_min_ (rounded_split_merge quarter_body 2) = / 8
  /\ minimum_volume_ (rounded_split_merge quarter_body 2) = / 64.
Proof.
  assert (Href : spacing_ref_ (rounded_split_merge quarter_body 2) = / 4).
  { simpl; field. }
  assert (Hmin : spacing_min_ (rounded_split_merge quarter_body 2) = / 8).
  { cbn [rounded_split_merge Rounded.ParticleSplitAndMerge_new spacing_min_
         refinement adaptation].
    unfold Rounded.ParticleSplitAndMerge_MostRefinedSpacing.
    cbn [rounded_refinement Rounded.ParticleWithLocalRefinement_new
         local_refinement_level_ spacing_ref_ adaptation].
    rewrite base_adaptation_spacing, powerN_binary64_2.
    cbn [quarter_body resolution_ref_].
    change (Z.to_nat 2) with 2%nat.
    change (IZR (Dimensions Dim2)) with 2.
    assert (Hhalf : round_binary64 (1 / 2) = 1 / INR 2).
    { replace (1 / INR 2) with (1 / 2) by (simpl; lra).
      double_value 1%Z (-1)%Z. }
    unfold pow_nearest; rewrite Hhalf, Rpower_4_half.
    replace (round_binary64 2) with 2
      by (symmetry; double_value 2%Z 0%Z).
    double_value 1%Z (-3)%Z. }
  split; [exact Href |]; split; [exact Hmin |].
  change (minimum_volume_ (rounded_split_merge quarter_body 2))
    with (Rounded.powerN round_binary64
            (spacing_min_ (rounded_split_merge quarter_body 2)) (Dimensions Dim2)).
  rewrite Hmin.
  change (Dimensions Dim2) with 2%Z.
  rewrite powerN_binary64_square by (double_value 1%Z (-3)%Z).
  double_value 1%Z (-6)%Z.
Qed.

(** [near_double n e] proves that [round_binary64] takes a real within half
    a unit in the last place of [n * 2^e] to it. *)
Ltac near_double n e :=
  match goal with
  | |- round_binary64 ?x = ?y =>
      let Hy := fresh "Hy" in
      assert (Hy : y = IZR n * bpow e)
        by (unfold bpow, Eps_double; simpl; lra);
      refine (eq_trans (round_binary64_near x n e _ _) (eq_sym Hy));
      [ split; reflexivity
      | unfold bpow, Eps_double; simpl; apply Rabs_def1; lra ]
  end.

(** The split-and-merge adaptation of the coarse body at level 0: the finest
    spacing is the reference spacing 5, the minimum volume 25. *)
Lemma coarse_split_merge_level0 :
  spacing_min_ (rounded_split_merge coarse_body 0) = 5
  /\ minimum_volume_ (rounded_split_merge coarse_body 0) = 25.
Proof.
  assert (Hmin : spacing_min_ (rounded_split_merge coarse_body 0) = 5).
  { cbn [rounded_split_merge Rounded.ParticleSplitAndMerge_new spacing_min_
         refinement adaptation].
    unfold Rounded.ParticleSplitAndMerge_MostRefinedSpacing.
    cbn [rounded_refinement Rounded.ParticleWithLocalRefinement_new
         local_refinement_level_ spacing_ref_ adaptation].
    rewrite base_adaptation_spacing, powerN_binary64_2.
    cbn [coarse_body resolution_ref_].
    change (Z.to_nat 0) with 0%nat.
    unfold pow_nearest; simpl pow; rewrite Rpower_1, round_binary64_1.
    double_value 5%Z 0%Z. }
  split; [exact Hmin |].
  change (minimum_volume_ (rounded_split_merge coarse_body 0))
    with (Rounded.powerN round_binary64
            (spacing_min_ (rounded_split_merge coarse_body 0)) (Dimensions Dim2)).
  rewrite Hmin.
  change (Dimensions Dim2) with 2%Z.
  rewrite powerN_binary64_square by exact round_binary64_5.
  double_value 25%Z 0%Z.
Qed.

(** The local-refinement adaptation of the coarse body at level 0: both
    bounds are the reference spacing 5. *)
Lemma coarse_refinement_level0 :
  spacing_ref_ (rounded_refinement coarse_body 0) = 5
  /\ finest_spacing_bound_ (rounded_refinement coarse_body 0) = 5
  /\ coarsest_spacing_bound_ (rounded_refinement coarse_body 0) = 5.
Proof.
  split; [simpl; field |].
  cbn [rounded_refinement Rounded.ParticleWithLocalRefinement_new
       finest_spacing_bound_ coarsest_spacing_bound_].
  unfold Rounded.SPHAdaptation_MostRefinedSpacing.
  rewrite base_adaptation_spacing, powerN_binary64_2.
  cbn [coarse_body resolution_ref_].
  change (Z.to_nat 0) with 0%nat; simpl pow.
  replace (round_binary64 (5 / 1)) with 5
    by (symmetry; double_value 5%Z 0%Z).
  split.
  - near_double 5629499534213120%Z (-50)%Z.
  - near_double 5629499534213120%Z (-50)%Z.
Qed.

Section ConcreteStatements.

Import Floats.

(** C4 at the coarse body: at a minimum volume of 25 the volume computed as
    [2 * 25 - 10 * Eps] is 50 again, and the split test holds on it, under
    [round_binary64] and on the primitive binary64 numbers. *)
Lemma C4_margin_absorbed :
  let s := rounded_split_merge coarse_body 0 in
  minimum_volume_ s = 25
  /\ round_binary64
       (round_binary64 (2 * minimum_volume_ s) - round_binary64 (10 * Eps_double))
     = 2 * minimum_volume_ s
  /\ Rounded.isSplitAllowed round_binary64 Eps_double s
       (round_binary64
          (round_binary64 (2 * minimum_volume_ s)
           - round_binary64 (10 * Eps_double))) = true
  /\ Binary64.isSplitAllowed 0x1p-52 25 (2 * 25 - 10 * 0x1p-52)%float = true.
Proof.
  intros s.
  destruct coarse_split_merge_level0 as [_ Hmv]; fold s in Hmv.
  assert (Habs : round_binary64
                   (round_binary64 (2 * minimum_volume_ s)
                    - round_binary64 (10 * Eps_double))
                 = 2 * minimum_volume_ s).
  { rewrite Hmv.
    replace (round_binary64 (2 * 25)) with 50
      by (symmetry; double_value 50%Z 0%Z).
    replace (round_binary64 (10 * Eps_double)) with (10 * Eps_double)
      by (symmetry; double_value 10%Z (-52)%Z).
    near_double 7036874417766400%Z (-47)%Z. }
  split; [exact Hmv |]; split; [exact Habs |]; split; [| reflexivity].
  rewrite Habs.
  apply (isSplitAllowed_from round_binary64 Eps_double round_binary64_le
           round_binary64_opp Eps_double_pos).
  rewrite Hmv.
  replace (round_binary64 (2 * 25)) with 50
    by (symmetry; double_value 50%Z 0%Z).
  lra.
Qed.

(** C10 at the coarse body: at a reference spacing of 5 and level 0 the
    finest bound does not exceed the coarsest bound, both are 5, and
    [smoothedSpacing] at measure 0 returns the coarsest bound, not a value
    above it; under [round_binary64] and on the primitive binary64
    numbers. *)
Lemma C10_margin_absorbed :
  let p := rounded_refinement coarse_body 0 in
  finest_spacing_bound_ p = 5
  /\ coarsest_spacing_bound_ p = 5
  /\ ~ coarsest_spacing_bound_ p < finest_spacing_bound_ p
  /\ ~ Rounded.smoothedSpacing round_binary64 p 0 (/ 8)
       > coarsest_spacing_bound_ p
  /\ Binary64.finest_spacing_bound_ 0x1p-52 5 0 = 5%float
  /\ Binary64.coarsest_spacing_bound_ 0x1p-52 5 = 5%float
  /\ Binary64.smoothedSpacing 2 Binary64.hat_profile
       (Binary64.finest_spacing_bound_ 0x1p-52 5 0)
       (Binary64.coarsest_spacing_bound_ 0x1p-52 5) 0 0x1p-3 = 5%float.
Proof.
  intros p.
  destruct coarse_refinement_level0 as (_ & Hf & Hc); fold p in Hf, Hc.
  split; [exact Hf |]; split; [exact Hc |]; split; [lra |].
  split; [| repeat split; reflexivity].
  rewrite (smoothedSpacing_at_feature_rounded round_binary64
             round_binary64_opp round_binary64_1 p (/ 8)).
  - lra.
  - simpl; lra.
  - simpl; unfold wendland_profile; lra.
  - rewrite Hf; exact round_binary64_5.
Qed.

End ConcreteStatements.

(** ** The minimum volumes that a finest spacing gives *)












(** C4 at the quarter body, level 2: the minimum volume is 1/64, the split
    test holds at twice the minimum volume and fails ten tolerances below,
    where the subtraction is exact. *)
Lemma C4_isSplitAllowed_witness :
  let s := rounded_split_merge quarter_body 2 in
  round_binary64 (2 * minimum_volume_ s) = 2 * minimum_volume_ s
  /\ Rounded.isSplitAllowed round_binary64 Eps_double s
       (round_binary64 (2 * minimum_volume_ s)) = true
  /\ Rounded.isSplitAllowed round_binary64 Eps_double s
       (round_binary64
          (round_binary64 (2 * minimum_volume_ s)
           - round_binary64 (10 * Eps_double))) = false.
Proof.
  intros s.
  destruct quarter_split_merge_level2 as (_ & _ & Hmv); fold s in Hmv.
  assert (Hr : round_binary64 (2 * minimum_volume_ s) = 2 * minimum_volume_ s).
  { rewrite Hmv; double_value 1%Z (-5)%Z. }
  destruct (C4_isSplitAllowed round_binary64 Eps_double round_binary64_le
              round_binary64_opp Eps_double_pos round_binary64_Eps s Hr)
    as (_ & _ & _ & Htwice & Hbelow & _).
  split; [exact Hr |]; split; [exact Htwice |].
  apply Hbelow; rewrite Hmv.
  replace (round_binary64 (2 * / 64)) with (/ 32)
    by (symmetry; double_value 1%Z (-5)%Z).
  replace (round_binary64 (10 * Eps_double)) with (10 * Eps_double)
    by (symmetry; double_value 10%Z (-52)%Z).
  replace (round_binary64 (/ 32 - 10 * Eps_double)) with (/ 32 - 10 * Eps_double)
    by (symmetry; double_value 9007199254740352%Z (-58)%Z).
  unfold Eps_double; lra.
Defined.


(** C10 at the quarter body: at level 0 the two roundings are exact and the
    bounds are inverted; at level 2 they are ordered. *)
Lemma C10_bound_ordering_witness :
  let a := base_adaptation quarter_body in
  let p0 := rounded_refinement quarter_body 0 in
  let p2 := rounded_refinement quarter_body 2 in
  round_binary64 (spacing_ref_ a) = spacing_ref_ a
  /\ Rounded.SPHAdaptation_MostRefinedSpacing round_binary64 (spacing_ref_ a) 2
     = spacing_ref_ a / 2 ^ Z.to_nat 2
  /\ coarsest_spacing_bound_ p0 < finest_spacing_bound_ p0
  /\ Rounded.smoothedSpacing round_binary64 p0 0 (/ 8) = finest_spacing_bound_ p0
  /\ finest_spacing_bound_ p2 < coarsest_spacing_bound_ p2
  /\ spacing_ref_ a * (1 - / 2 ^ 2) > 2 * Eps_double.
Proof.
  intros a p0 p2.
  assert (Href : spacing_ref_ a = / 4) by (unfold a; simpl; field).
  assert (Hr : round_binary64 (spacing_ref_ a) = spacing_ref_ a).
  { rewrite Href; exact round_binary64_quarter. }
  destruct (C10_bound_ordering round_binary64 Eps_double round_binary64_le
              round_binary64_round round_binary64_opp round_binary64_1
              Eps_double_pos a Hr)
    as [(Hf & Hc & _ & Hiff & Hsmooth) Hlevels].
  change (finest_spacing_bound_ p0
          = round_binary64 (spacing_ref_ a + Eps_double)) in Hf.
  change (coarsest_spacing_bound_ p0
          = round_binary64 (spacing_ref_ a - Eps_double)) in Hc.
  assert (Hup : round_binary64 (spacing_ref_ a + Eps_double)
                = / 4 + Eps_double).
  { rewrite Href; double_value 1125899906842625%Z (-52)%Z. }
  assert (Hk : 0 < KernelSize (kernel_ptr_ a)) by (simpl; lra).
  assert (Hw : W_1D (kernel_ptr_ a) 0 <> 0).
  { simpl; unfold wendland_profile; lra. }
  assert (Ht : 0 < / 8) by lra.
  pose proof (SPHAdaptation_MostRefinedSpacing_halvings round_binary64
                round_binary64_1 round_binary64_double round_binary64_half
                (spacing_ref_ a) 2 Hr) as Hmin.
  assert (H2 : finest_spacing_bound_ p2 < coarsest_spacing_bound_ p2).
  { unfold p2.
    cbn [rounded_refinement Rounded.ParticleWithLocalRefinement_new
         finest_spacing_bound_ coarsest_spacing_bound_].
    fold a.
    rewrite Hmin.
    rewrite Href; change (Z.to_nat 2) with 2%nat.
    replace (round_binary64 (/ 4 / 2 ^ 2 + Eps_double))
      with (/ 16 + Eps_double)
      by (symmetry; double_value 281474976710657%Z (-52)%Z).
    replace (round_binary64 (/ 4 - Eps_double)) with (/ 4 - Eps_double)
      by (symmetry; double_value 1125899906842623%Z (-52)%Z).
    unfold Eps_double; lra. }
  split; [exact Hr |].
  split; [exact Hmin |].
  split.
  { rewrite Hf, Hc; apply Hiff; left; rewrite Hup, Href.
    unfold Eps_double; lra. }
  split; [rewrite Hf; exact (Hsmooth Hk Hw (/ 8) Ht) |].
  split; [exact H2 |].
  exact (proj2 (Hlevels 2%Z ltac:(discriminate) Hmin H2)).
Defined.

(** C8 at the quarter body, level 2: two cell-linked-list levels and three
    level-set levels for the local refinement; for the split-and-merge
    variant the quotient of the spacings is 2 and the count is 2. *)
Lemma C8_total_levels_witness :
  let a := base_adaptation quarter_body in
  let s := rounded_split_merge quarter_body 2 in
  (0 <= 2 < 2 ^ 31)%Z
  /\ 0 <= log2 (round_binary64 (spacing_ref_ s / spacing_min_ s)) <= 1024
  /\ ParticleWithLocalRefinement_getCellLinkedListTotalLevel
       (rounded_refinement quarter_body 2) = 2%Z
  /\ ParticleWithLocalRefinement_getLevelSetTotalLevel
       (rounded_refinement quarter_body 2) = 3%Z
  /\ Rounded.ParticleSplitAndMerge_getCellLinkedListTotalLevel
       round_binary64 log2 s = 2%Z.
Proof.
  intros a s.
  destruct quarter_split_merge_level2 as (Href & Hmin & _).
  fold s in Href, Hmin.
  assert (HL : (0 <= 2 < 2 ^ 31)%Z) by (split; [discriminate | reflexivity]).
  assert (Hq : round_binary64 (spacing_ref_ s / spacing_min_ s) = 2).
  { rewrite Href, Hmin; double_value 2%Z 0%Z. }
  assert (Hlog2 : log2 2 = 1).
  { unfold log2; pose proof ln_2_pos; field; lra. }
  assert (Hlog : 0 <= log2 (round_binary64 (spacing_ref_ s / spacing_min_ s))
                 <= 1024).
  { rewrite Hq, Hlog2; lra. }
  destruct (C8_total_levels round_binary64 Eps_double log2 a 2 s HL Hlog)
    as (Hcell & Hlevel & Hcount & _).
  split; [exact HL |]; split; [exact Hlog |].
  split; [exact Hcell |]; split; [exact Hlevel |].
  rewrite Hcount, Hq, Hlog2.
  change 1 with (IZR 1); rewrite Int_part_IZR; reflexivity.
Defined.
